(** * Digitalyz "Data Alchemist": header reconciliation, value coercion and
      validation engine, embedded from [src/utils/fileParser.ts] and the
      [DataValidator] class.

    Conventions of the embedding.
    - JavaScript strings are Rocq [string]s (sequences of 8-bit characters);
      the development covers ASCII text: [toLowerCase], [trim] and the regular
      expression [[^a-z0-9]] act on ASCII characters.
    - Similarity scores are exact rationals [Q].
    - JavaScript numbers held by cells are exact decimals [m / 10^k] extended
      with [NaN] and the two infinities; every IEEE double is such a decimal,
      and arithmetic on them is exact (no binary rounding).  [parseInt]
      rounds the integer it reads to the nearest double.  The sign of zero is
      not kept: [-0] and [0] are the same number.
    - Dynamically typed cells are values of [jsval]; rows are finite maps from
      property names to values. *)

From Stdlib Require Import Ascii String QArith Qround Qminmax.
From stdpp Require Import gmap strings list fin_maps pretty.

Local Open Scope general_if_scope.
Local Open Scope nat_scope.

(** ** String primitives *)

Module Str.

Definition chars (s : string) : list ascii := list_ascii_of_string s.
Definition of_chars (l : list ascii) : string := string_of_list_ascii l.

Definition code (c : ascii) : nat := nat_of_ascii c.

Definition is_upper (c : ascii) : bool := (65 <=? code c) && (code c <=? 90).
Definition is_lower (c : ascii) : bool := (97 <=? code c) && (code c <=? 122).
Definition is_digit (c : ascii) : bool := (48 <=? code c) && (code c <=? 57).

(** [String.prototype.toLowerCase], one character. *)
Definition lower (c : ascii) : ascii :=
  if is_upper c then ascii_of_nat (code c + 32) else c.

Definition toLowerCase (s : list ascii) : list ascii := map lower s.

(** [s.replace(/[^a-z0-9]/g, '')]. *)
Definition strip_non_alnum (s : list ascii) : list ascii :=
  filter (fun c => Is_true (is_lower c || is_digit c)) s.

(** [a.startsWith(b)] with [b] the first argument here. *)
Fixpoint prefixb (p s : list ascii) : bool :=
  match p, s with
  | [], _ => true
  | _ :: _, [] => false
  | a :: p', b :: s' => bool_decide (a = b) && prefixb p' s'
  end.

(** [s.includes(p)]: [p] occurs in [s] as a contiguous block. *)
Fixpoint includes (s p : list ascii) : bool :=
  prefixb p s || match s with
                 | [] => false
                 | _ :: s' => includes s' p
                 end.

End Str.

(** ** Similarity scorer ([calculateSimilarity]) *)

(** [const normalize = (s) => s.toLowerCase().replace(/[^a-z0-9]/g, '')] *)
Definition normalize (s : string) : list ascii :=
  Str.strip_non_alnum (Str.toLowerCase (Str.chars s)).

(** The distance table [matrix[j][i]], rows indexed by positions of [s2]. *)
Definition mget (m : list (list nat)) (j i : nat) : nat :=
  default 0 (m !! j ≫= (.!! i)).

(** [matrix[j][i] = v] *)
Definition mset (m : list (list nat)) (j i v : nat) : list (list nat) :=
  alter (<[i:=v]>) j m.

Definition indicator (s1 s2 : list ascii) (i j : nat) : nat :=
  if decide (s1 !! (i - 1) = s2 !! (j - 1)) then 0 else 1.

(** One execution of the body of the innermost loop. *)
Definition fill_cell (s1 s2 : list ascii) (j : nat) (m : list (list nat)) (i : nat)
  : list (list nat) :=
  mset m j i
       (Nat.min (Nat.min (mget m j (i - 1) + 1) (mget m (j - 1) i + 1))
                (mget m (j - 1) (i - 1) + indicator s1 s2 i j)).

Definition fill_row (s1 s2 : list ascii) (m : list (list nat)) (j : nat)
  : list (list nat) :=
  foldl (fill_cell s1 s2 j) m (seq 1 (length s1)).

(** The table after the three loops.  The cells created by [fill(null)] are
    written as [0]; every cell is assigned before it is read. *)
Definition levenshtein_matrix (s1 s2 : list ascii) : list (list nat) :=
  let m0 := replicate (length s2 + 1) (replicate (length s1 + 1) 0) in
  let m1 := foldl (fun m i => mset m 0 i i) m0 (seq 0 (length s1 + 1)) in
  let m2 := foldl (fun m j => mset m j 0 j) m1 (seq 0 (length s2 + 1)) in
  foldl (fill_row s1 s2) m2 (seq 1 (length s2)).

Definition distance (s1 s2 : list ascii) : nat :=
  mget (levenshtein_matrix s1 s2) (length s2) (length s1).

Definition Qnat (n : nat) : Q := inject_Z (Z.of_nat n).

Definition calculateSimilarity (str1 str2 : string) : Q :=
  let s1 := normalize str1 in
  let s2 := normalize str2 in
  if decide (s1 = s2) then 1%Q
  else if Str.includes s1 s2 || Str.includes s2 s1 then 0.8%Q
  else (1 - Qnat (distance s1 s2) / Qnat (Nat.max (length s1) (length s2)))%Q.

(** ** Header mapper ([mapHeaders]) *)

Inductive DataType := clients | workers | tasks.

(** The table [HEADER_MAPPINGS], each entity's fields in the order in which
    [Object.entries] enumerates them. *)
Definition HEADER_MAPPINGS (dataType : DataType) : list (string * list string) :=
  match dataType with
  | clients =>
      [ ("ClientID", ["client_id"; "clientid"; "id"; "client"; "client_identifier"]);
        ("ClientName", ["client_name"; "clientname"; "name"; "company"; "organization"]);
        ("PriorityLevel", ["priority_level"; "priority"; "importance"; "urgency"]);
        ("RequestedTaskIDs",
          ["requested_task_ids"; "requested_tasks"; "tasks"; "task_ids"; "taskids"]);
        ("GroupTag", ["group_tag"; "group"; "category"; "segment"; "type"]);
        ("AttributesJSON",
          ["attributes_json"; "attributes"; "metadata"; "properties"; "extras"]) ]
  | workers =>
      [ ("WorkerID", ["worker_id"; "workerid"; "id"; "employee_id"; "worker"]);
        ("WorkerName", ["worker_name"; "workername"; "name"; "employee_name"; "full_name"]);
        ("Skills", ["skills"; "skill_set"; "competencies"; "abilities"; "expertise"]);
        ("AvailableSlots",
          ["available_slots"; "availability"; "slots"; "capacity"; "schedule"]);
        ("MaxLoadPerPhase", ["max_load_per_phase"; "max_load"; "capacity"; "workload_limit"]);
        ("WorkerGroup", ["worker_group"; "group"; "team"; "department"; "division"]);
        ("QualificationLevel",
          ["qualification_level"; "level"; "experience"; "seniority"; "grade"]) ]
  | tasks =>
      [ ("TaskID", ["task_id"; "taskid"; "id"; "task"; "task_identifier"]);
        ("TaskName", ["task_name"; "taskname"; "name"; "title"; "description"]);
        ("Category", ["category"; "type"; "classification"; "domain"; "area"]);
        ("Duration", ["duration"; "time"; "hours"; "effort"; "estimated_duration"]);
        ("RequiredSkills",
          ["required_skills"; "skills"; "skill_requirements"; "competencies"]);
        ("PreferredPhases", ["preferred_phases"; "phases"; "timeline"; "schedule"; "periods"]);
        ("MaxConcurrent", ["max_concurrent"; "concurrency"; "parallel_limit"; "simultaneous"]) ]
  end.

(** [x < y] on scores. *)
Definition Qltb (x y : Q) : bool := negb (Qle_bool y x).

(** [alternatives.includes(header.toLowerCase().replace(/[^a-z0-9]/g, ''))] *)
Definition directMatch (alternatives : list string) (header : string) : bool :=
  bool_decide (Str.of_chars (normalize header) ∈ alternatives).

(** Body of [alternatives.forEach(alt => ...)]; the pair is
    [(bestMatch, bestScore)]. *)
Definition fuzzy_step (header : string) (best : string * Q) (alt : string) : string * Q :=
  let score := calculateSimilarity header alt in
  if Qltb best.2 score && Qltb 0.6 score then (header, score) else best.

(** Body of [headers.forEach(header => ...)]. *)
Definition header_step (usedHeaders : gset string) (alternatives : list string)
    (best : string * Q) (header : string) : string * Q :=
  if decide (header ∈ usedHeaders) then best
  else if directMatch alternatives header then (header, 1%Q)
  else foldl (fuzzy_step header) best alternatives.

Definition best_candidate (headers : list string) (usedHeaders : gset string)
    (alternatives : list string) : string * Q :=
  foldl (header_step usedHeaders alternatives) (EmptyString, 0%Q) headers.

(** Body of [Object.entries(mappings).forEach(...)]; the state is
    [(result, usedHeaders)].  The empty string is falsy in
    [if (bestMatch && bestScore > 0.6)]. *)
Definition field_step (headers : list string)
    (st : gmap string string * gset string) (entry : string * list string)
  : gmap string string * gset string :=
  let best := best_candidate headers st.2 entry.2 in
  if bool_decide (best.1 ≠ EmptyString) && Qltb 0.6 best.2
  then (<[entry.1 := best.1]> st.1, {[best.1]} ∪ st.2)
  else st.

Definition mapFields (headers : list string) (mappings : list (string * list string))
  : gmap string string * gset string :=
  foldl (field_step headers) (∅, ∅) mappings.

Definition mapHeaders (headers : list string) (dataType : DataType) : gmap string string :=
  (mapFields headers (HEADER_MAPPINGS dataType)).1.

(** ** JavaScript values *)

(** A finite number [Fin m k] is the decimal [m / 10^k].  Every IEEE double is
    such a decimal.  [dec] builds the canonical form: the scale is zero or the
    mantissa does not end in a zero digit. *)
Inductive num :=
| Fin (mantissa : Z) (scale : nat)
| NaN
| PosInf
| NegInf.

Fixpoint dec (m : Z) (k : nat) : num :=
  match k with
  | 0 => Fin m 0
  | S k' => if (m mod 10 =? 0)%Z then dec (m / 10) k' else Fin m k
  end.

Definition int (z : Z) : num := Fin z 0.

Definition pow10 (k : nat) : Z := 10 ^ Z.of_nat k.

(** The rational a finite number stands for. *)
Definition to_Q (m : Z) (k : nat) : Q := (inject_Z m / inject_Z (pow10 k))%Q.

Module Num.

Definition is_nan (x : num) : bool := if x is NaN then true else false.

(** Three-way comparison of two numbers, [None] when one is [NaN]. *)
Definition compare (x y : num) : option comparison :=
  match x, y with
  | NaN, _ | _, NaN => None
  | PosInf, PosInf | NegInf, NegInf => Some Eq
  | PosInf, _ | _, NegInf => Some Gt
  | NegInf, _ | _, PosInf => Some Lt
  | Fin m1 k1, Fin m2 k2 => Some (m1 * pow10 k2 ?= m2 * pow10 k1)%Z
  end.

Definition ltb (x y : num) : bool := bool_decide (compare x y = Some Lt).
Definition leb (x y : num) : bool :=
  bool_decide (compare x y = Some Lt ∨ compare x y = Some Eq).
Definition eqb (x y : num) : bool := bool_decide (compare x y = Some Eq).

Definition opp (x : num) : num :=
  match x with
  | Fin m k => Fin (- m) k
  | NaN => NaN
  | PosInf => NegInf
  | NegInf => PosInf
  end.

Definition add (x y : num) : num :=
  match x, y with
  | NaN, _ | _, NaN => NaN
  | PosInf, NegInf | NegInf, PosInf => NaN
  | PosInf, _ | _, PosInf => PosInf
  | NegInf, _ | _, NegInf => NegInf
  | Fin m1 k1, Fin m2 k2 =>
      dec (m1 * pow10 (Nat.max k1 k2 - k1) + m2 * pow10 (Nat.max k1 k2 - k2))
          (Nat.max k1 k2)
  end.

Definition sign (x : num) : comparison :=
  match x with
  | Fin m _ => (m ?= 0)%Z
  | PosInf => Gt
  | _ => Lt
  end.

Definition mul (x y : num) : num :=
  match x, y with
  | NaN, _ | _, NaN => NaN
  | Fin m1 k1, Fin m2 k2 => dec (m1 * m2) (k1 + k2)
  | _, _ =>
      match sign x, sign y with
      | Eq, _ | _, Eq => NaN
      | Gt, Gt | Lt, Lt => PosInf
      | _, _ => NegInf
      end
  end.

(** [Math.round]: the nearest integer, halves rounded up. *)
Definition round (x : num) : num :=
  match x with
  | Fin m k => int ((2 * m + pow10 k) / (2 * pow10 k))
  | _ => x
  end.

(** [Math.max(x, y)] and [Math.min(x, y)] of two numbers. *)
Definition max (x y : num) : num :=
  if is_nan x || is_nan y then NaN else if ltb x y then y else x.
Definition min (x y : num) : num :=
  if is_nan x || is_nan y then NaN else if ltb y x then y else x.

(** [n / 2^e] rounded to the nearest integer, ties to the even one. *)
Definition round_half_even (n e : Z) : Z :=
  let q := (n / 2 ^ e)%Z in
  let r := (n mod 2 ^ e)%Z in
  if (2 * r <? 2 ^ e)%Z then q
  else if (2 ^ e <? 2 * r)%Z then (q + 1)%Z
  else if Z.even q then q else (q + 1)%Z.

(** The double nearest to the natural number [n]: 53 significant bits, ties
    to even, and [Infinity] from [2^1024 - 2^970] on. *)
Definition of_natural (n : Z) : num :=
  let e := Z.max 0 (Z.log2 n - 52) in
  let m := (round_half_even n e * 2 ^ e)%Z in
  if (2 ^ 1024 <=? m)%Z then PosInf else int m.

(** The Number value of the integer [z]. *)
Definition of_Z (z : Z) : num :=
  if (z <? 0)%Z then opp (of_natural (- z)) else of_natural z.

End Num.

#[local] Unset Elimination Schemes.
Inductive jsval :=
| JUndefined
| JNull
| JBool (b : bool)
| JNum (n : num)
| JStr (s : string)
| JArr (elements : list jsval)
| JObj (members : list (string * jsval)).
#[local] Set Elimination Schemes.

(** ** Text primitives of the runtime *)

Module Text.

Import Str.

(** White space and line terminators removed by [trim] (ASCII). *)
Definition is_space (c : ascii) : bool :=
  bool_decide (code c ∈ [9; 10; 11; 12; 13; 32]).

Fixpoint trimStart (s : list ascii) : list ascii :=
  match s with
  | c :: r => if is_space c then trimStart r else s
  | [] => []
  end.

Definition trimEnd (s : list ascii) : list ascii :=
  reverse (trimStart (reverse s)).

(** [s.trim()] *)
Definition trim (s : list ascii) : list ascii := trimEnd (trimStart s).

(** [s.split(',')] *)
Fixpoint split_comma (s : list ascii) : list (list ascii) :=
  match s with
  | [] => [[]]
  | c :: r =>
      if bool_decide (c = ","%char) then [] :: split_comma r
      else match split_comma r with
           | piece :: pieces => (c :: piece) :: pieces
           | [] => [[c]]
           end
  end.

(** [s.slice(1, -1)] *)
Definition slice_1_m1 (s : list ascii) : list ascii := removelast (tail s).

(** [s.startsWith('[') && s.endsWith(']')] *)
Definition bracketed (s : list ascii) : bool :=
  prefixb ["["%char] s && prefixb ["]"%char] (reverse s).

(** [pieces.join(sep)] on strings. *)
Fixpoint join (sep : list ascii) (pieces : list (list ascii)) : list ascii :=
  match pieces with
  | [] => []
  | [p] => p
  | p :: rest => p ++ sep ++ join sep rest
  end.

Definition digit_value (c : ascii) : Z := (Z.of_nat (code c) - 48)%Z.

(** Value of a hexadecimal digit, if it is one. *)
Definition hex_value (c : ascii) : option Z :=
  if is_digit c then Some (digit_value c)
  else if (97 <=? code c) && (code c <=? 102) then Some (Z.of_nat (code c) - 87)%Z
  else if (65 <=? code c) && (code c <=? 70) then Some (Z.of_nat (code c) - 55)%Z
  else None.

(** The longest prefix of characters satisfying [p], and the rest. *)
Fixpoint span (p : ascii → bool) (s : list ascii) : list ascii * list ascii :=
  match s with
  | c :: r => if p c then let '(a, b) := span p r in (c :: a, b) else ([], s)
  | [] => ([], [])
  end.

Definition decimal_value (ds : list ascii) : Z :=
  foldl (fun acc c => 10 * acc + digit_value c)%Z 0%Z ds.

Definition hex_digits_value (ds : list ascii) : Z :=
  foldl (fun acc c => 16 * acc + default 0 (hex_value c))%Z 0%Z ds.

(** The rest of [s] after its first character, when that is [c]. *)
Definition eat (c : ascii) (s : list ascii) : option (list ascii) :=
  match s with
  | x :: r => if bool_decide (x = c) then Some r else None
  | [] => None
  end.

(** An optional sign: whether it is a minus, and the rest. *)
Definition sign_prefix (s : list ascii) : bool * list ascii :=
  match eat "-"%char s, eat "+"%char s with
  | Some r, _ => (true, r)
  | None, Some r => (false, r)
  | None, None => (false, s)
  end.

Definition signed (negative : bool) (z : Z) : Z := if negative then (- z)%Z else z.

Definition is_hex_digit (c : ascii) : bool := bool_decide (is_Some (hex_value c)).

(** The integer that [parseInt(s)], with the radix left out, reads: leading
    white space and a sign are skipped, a [0x] prefix selects base 16, and the
    longest run of digits is taken; [None] when there is no digit. *)
Definition mathInt (s : list ascii) : option Z :=
  let '(negative, s1) := sign_prefix (trimStart s) in
  let hex := prefixb (chars "0x") s1 || prefixb (chars "0X") s1 in
  let ds := if hex then (span is_hex_digit (drop 2 s1)).1 else (span is_digit s1).1 in
  match ds with
  | [] => None
  | _ => Some (signed negative (if hex then hex_digits_value ds else decimal_value ds))
  end.

(** [parseInt(s)]: the Number value of that integer, a double; [NaN] when
    there is no digit.  In base 10 the language lets an implementation replace
    the digits after the twentieth by zeros before rounding; the correctly
    rounded value is taken here. *)
Definition parseInt (s : list ascii) : num :=
  match mathInt s with
  | Some z => Num.of_Z z
  | None => NaN
  end.

(** An exponent part [e], [e+] or [e-] followed by digits, when present. *)
Definition exponent_part (s : list ascii) : option (Z * list ascii) :=
  match s with
  | e :: r =>
      if bool_decide (e = "e"%char ∨ e = "E"%char) then
        let '(negative, r1) := sign_prefix r in
        match span is_digit r1 with
        | ([], _) => None
        | (ds, rest) => Some (signed negative (decimal_value ds), rest)
        end
      else None
  | [] => None
  end.

(** The number [m * 10^e / 10^k]. *)
Definition scaled (m : Z) (k : nat) (e : Z) : num :=
  if (0 <=? e)%Z then dec (m * 10 ^ e) k else dec m (k + Z.to_nat (- e)).

(** The longest prefix of [s] that is an unsigned decimal literal
    ([12], [12.], [12.5], [.5], each with an optional exponent):
    mantissa, scale, exponent and the unread rest. *)
Definition decimal_literal (s : list ascii) : option (Z * nat * Z * list ascii) :=
  let '(ip, r1) := span is_digit s in
  let '(fp, r2) :=
    match eat "."%char r1 with
    | Some r => span is_digit r
    | None => ([], r1)
    end in
  match ip, fp with
  | [], [] => None
  | _, _ =>
      let m := decimal_value (ip ++ fp) in
      match exponent_part r2 with
      | Some (e, rest) => Some (m, length fp, e, rest)
      | None => Some (m, length fp, 0%Z, r2)
      end
  end.

Definition Infinity_text : list ascii := chars "Infinity".

(** [parseFloat(s)] *)
Definition parseFloat (s : list ascii) : num :=
  let '(negative, s1) := sign_prefix (trimStart s) in
  if prefixb Infinity_text s1 then (if negative then NegInf else PosInf)
  else match decimal_literal s1 with
       | Some (m, k, e, _) => scaled (signed negative m) k e
       | None => NaN
       end.

End Text.
(** ** [JSON.parse] *)

Module JSON.

Import Str Text.

(** Outcome of a parsing step. *)
Inductive result (A : Type) :=
| Ok (a : A)
| SyntaxError
| OutOfFuel.
Arguments Ok {A} a.
Arguments SyntaxError {A}.
Arguments OutOfFuel {A}.

#[global] Instance result_bind : MBind result := λ A B k r,
  match r with
  | Ok a => k a
  | SyntaxError => SyntaxError
  | OutOfFuel => OutOfFuel
  end.

(** The double quote character. *)
Definition quote : ascii := ascii_of_nat 34.

(** The backslash character. *)
Definition backslash : ascii := ascii_of_nat 92.

Definition is_ws (c : ascii) : bool := bool_decide (code c ∈ [9; 10; 13; 32]).

Fixpoint skip_ws (s : list ascii) : list ascii :=
  match s with
  | c :: r => if is_ws c then skip_ws r else s
  | [] => []
  end.

(** UTF-8 bytes of the code unit written by a [\uXXXX] escape. *)
Definition utf8 (u : Z) : list ascii :=
  let byte (z : Z) := ascii_of_nat (Z.to_nat z) in
  if (u <? 128)%Z then [byte u]
  else if (u <? 2048)%Z then [byte (192 + u / 64); byte (128 + u mod 64)]%Z
  else [byte (224 + u / 4096); byte (128 + (u / 64) mod 64); byte (128 + u mod 64)]%Z.

Definition hex4 (a b c d : ascii) : option Z :=
  x1 ← hex_value a; x2 ← hex_value b; x3 ← hex_value c; x4 ← hex_value d;
  Some (((x1 * 16 + x2) * 16 + x3) * 16 + x4)%Z.

(** The character an escape letter stands for. *)
Definition escape (e : ascii) : option ascii :=
  if bool_decide (e = quote ∨ e = backslash ∨ e = "/"%char) then Some e
  else if bool_decide (e = "b"%char) then Some (ascii_of_nat 8)
  else if bool_decide (e = "f"%char) then Some (ascii_of_nat 12)
  else if bool_decide (e = "n"%char) then Some (ascii_of_nat 10)
  else if bool_decide (e = "r"%char) then Some (ascii_of_nat 13)
  else if bool_decide (e = "t"%char) then Some (ascii_of_nat 9)
  else None.

(** The characters of a string literal after its opening quote, up to the
    closing quote. *)
Fixpoint parse_string (s : list ascii) : result (list ascii * list ascii) :=
  match s with
  | [] => SyntaxError
  | c :: r =>
      if bool_decide (c = quote) then Ok ([], r)
      else if bool_decide (c = backslash) then
        match r with
        | [] => SyntaxError
        | e :: r1 =>
            if bool_decide (e = "u"%char) then
              match r1 with
              | a :: b :: c :: d :: r2 =>
                  match hex4 a b c d with
                  | Some u => '(str, rest) ← parse_string r2; Ok (utf8 u ++ str, rest)
                  | None => SyntaxError
                  end
              | _ => SyntaxError
              end
            else
              match escape e with
              | Some x => '(str, rest) ← parse_string r1; Ok (x :: str, rest)
              | None => SyntaxError
              end
        end
      else if code c <? 32 then SyntaxError
      else '(str, rest) ← parse_string r; Ok (c :: str, rest)
  end.

(** A number: [-? int frac? exp?], with no leading zero in [int]. *)
Definition parse_number (s : list ascii) : result (num * list ascii) :=
  let '(negative, s1) :=
    match eat "-"%char s with
    | Some r => (true, r)
    | None => (false, s)
    end in
  let '(ip, r1) :=
    match eat "0"%char s1 with
    | Some r => (["0"%char], r)
    | None => span is_digit s1
    end in
  match ip with
  | [] => SyntaxError
  | _ =>
      '(fp, r2) ←
        match eat "."%char r1 with
        | Some r =>
            match span is_digit r with
            | ([], _) => SyntaxError
            | (fp, r2) => Ok (fp, r2)
            end
        | None => Ok ([], r1)
        end;
      '(e, r3) ←
        match eat "e"%char r2, eat "E"%char r2 with
        | None, None => Ok (0%Z, r2)
        | _, _ =>
            match exponent_part r2 with
            | Some (e, r3) => Ok (e, r3)
            | None => SyntaxError
            end
        end;
      Ok (scaled (signed negative (decimal_value (ip ++ fp))) (length fp) e, r3)
  end.

Definition literal (word : string) (v : jsval) (s : list ascii)
  : result (jsval * list ascii) :=
  if prefixb (chars word) s then Ok (v, drop (String.length word) s) else SyntaxError.

Fixpoint parse_value (fuel : nat) (s : list ascii) : result (jsval * list ascii) :=
  match fuel with
  | 0 => OutOfFuel
  | S fuel =>
      match skip_ws s with
      | [] => SyntaxError
      | c :: r =>
          if bool_decide (c = "["%char) then
            match eat "]"%char (skip_ws r) with
            | Some r' => Ok (JArr [], r')
            | None => '(vs, r') ← parse_elements fuel r; Ok (JArr vs, r')
            end
          else if bool_decide (c = "{"%char) then
            match eat "}"%char (skip_ws r) with
            | Some r' => Ok (JObj [], r')
            | None => '(ms, r') ← parse_members fuel r; Ok (JObj ms, r')
            end
          else if bool_decide (c = quote) then
            '(str, r') ← parse_string r; Ok (JStr (of_chars str), r')
          else if bool_decide (c = "-"%char) || is_digit c then
            '(n, r') ← parse_number (c :: r); Ok (JNum n, r')
          else if bool_decide (c = "t"%char) then literal "true" (JBool true) (c :: r)
          else if bool_decide (c = "f"%char) then literal "false" (JBool false) (c :: r)
          else if bool_decide (c = "n"%char) then literal "null" JNull (c :: r)
          else SyntaxError
      end
  end
with parse_elements (fuel : nat) (s : list ascii) : result (list jsval * list ascii) :=
  match fuel with
  | 0 => OutOfFuel
  | S fuel =>
      '(v, r) ← parse_value fuel s;
      match skip_ws r with
      | c :: r' =>
          if bool_decide (c = ","%char) then
            '(vs, r'') ← parse_elements fuel r'; Ok (v :: vs, r'')
          else if bool_decide (c = "]"%char) then Ok ([v], r')
          else SyntaxError
      | [] => SyntaxError
      end
  end
with parse_members (fuel : nat) (s : list ascii)
  : result (list (string * jsval) * list ascii) :=
  match fuel with
  | 0 => OutOfFuel
  | S fuel =>
      match eat quote (skip_ws s) with
      | Some r =>
          '(key, r1) ← parse_string r;
          match eat ":"%char (skip_ws r1) with
          | Some r2 =>
              '(v, r3) ← parse_value fuel r2;
              match skip_ws r3 with
              | c :: r4 =>
                  if bool_decide (c = ","%char) then
                    '(ms, r5) ← parse_members fuel r4; Ok ((of_chars key, v) :: ms, r5)
                  else if bool_decide (c = "}"%char) then Ok ([(of_chars key, v)], r4)
                  else SyntaxError
              | [] => SyntaxError
              end
          | None => SyntaxError
          end
      | None => SyntaxError
      end
  end.

(** Fuel that covers every text of the given length. *)
Definition fuel_for (s : list ascii) : nat := 2 * length s + 3.

Definition parse_text (s : list ascii) : result jsval :=
  '(v, r) ← parse_value (fuel_for s) s;
  match skip_ws r with
  | [] => Ok v
  | _ => SyntaxError
  end.

(** [JSON.parse(text)]; [None] is the thrown [SyntaxError].  The members of
    an object are kept in the order of the text. *)
Definition parse (text : list ascii) : option jsval :=
  match parse_text text with
  | Ok v => Some v
  | _ => None
  end.

End JSON.
(** ** Conversions of the runtime *)

Module Conv.

Import Str Text.

Definition zeros (n : nat) : list ascii := replicate n "0"%char.

(** Decimal digits of a positive integer. *)
Definition digits (z : Z) : list ascii := chars (pretty (Z.to_N z)).

(** Removes the zero digits at the end of [ds], counting them. *)
Definition strip_zeros (ds : list ascii) : list ascii * nat :=
  let '(zs, rest) := span (fun c => bool_decide (c = "0"%char)) (reverse ds) in
  (reverse rest, length zs).

(** [Number::toString] of the positive decimal [m / 10^k]: with [s] the
    significant digits and [n] the position of the decimal point, plain
    notation is used for [-6 < n <= 21] and exponent notation otherwise. *)
Definition positive_toString (m : Z) (k : nat) : list ascii :=
  let '(s, z) := strip_zeros (digits m) in
  let n := (Z.of_nat (length s) + Z.of_nat z - Z.of_nat k)%Z in
  let len := Z.of_nat (length s) in
  if (len <=? n)%Z && (n <=? 21)%Z then s ++ zeros (Z.to_nat (n - len))
  else if (0 <? n)%Z && (n <=? 21)%Z then
    take (Z.to_nat n) s ++ "."%char :: drop (Z.to_nat n) s
  else if (-6 <? n)%Z && (n <=? 0)%Z then
    "0"%char :: "."%char :: zeros (Z.to_nat (- n)) ++ s
  else
    let e := (n - 1)%Z in
    let exponent := (if (e <? 0)%Z then "-"%char else "+"%char) :: digits (Z.abs e) in
    match s with
    | [d] => d :: "e"%char :: exponent
    | d :: ds => d :: "."%char :: ds ++ "e"%char :: exponent
    | [] => []
    end.

Definition Number_toString (x : num) : list ascii :=
  match x with
  | NaN => chars "NaN"
  | PosInf => chars "Infinity"
  | NegInf => chars "-Infinity"
  | Fin m k =>
      match m with
      | Z0 => ["0"%char]
      | Zpos _ => positive_toString m k
      | Zneg _ => "-"%char :: positive_toString (- m) k
      end
  end.

(** [String(v)], as in template literals and [join]. *)
Fixpoint ToString (v : jsval) : list ascii :=
  match v with
  | JUndefined => chars "undefined"
  | JNull => chars "null"
  | JBool true => chars "true"
  | JBool false => chars "false"
  | JNum n => Number_toString n
  | JStr s => chars s
  | JArr l =>
      join [","%char]
           (map (fun e => match e with
                          | JUndefined | JNull => []
                          | _ => ToString e
                          end) l)
  | JObj _ => chars "[object Object]"
  end.

(** [elements.join(sep)] *)
Definition Array_join (sep : string) (elements : list jsval) : list ascii :=
  join (chars sep)
       (map (fun e => match e with
                      | JUndefined | JNull => []
                      | _ => ToString e
                      end) elements).

(** [Boolean(v)]: truthiness. *)
Definition truthy (v : jsval) : bool :=
  match v with
  | JUndefined | JNull => false
  | JBool b => b
  | JNum (Fin m _) => negb (m =? 0)%Z
  | JNum NaN => false
  | JNum _ => true
  | JStr s => negb (bool_decide (s = EmptyString))
  | JArr _ | JObj _ => true
  end.

(** [v === null || v === undefined] *)
Definition nullish (v : jsval) : bool :=
  match v with
  | JUndefined | JNull => true
  | _ => false
  end.

(** The numeric value of a whole string ([StringToNumber]): white space is
    trimmed, the empty string is [0], a prefix [0x], [0o] or [0b] introduces
    an integer in that base, otherwise the whole text must be a signed
    decimal literal or [Infinity]. *)
Definition radix_digits (radix : Z) (s : list ascii) : num :=
  match s with
  | [] => NaN
  | _ =>
      if forallb (fun c => match hex_value c with
                           | Some d => (d <? radix)%Z
                           | None => false
                           end) s
      then int (foldl (fun acc c => radix * acc + default 0 (hex_value c))%Z 0%Z s)
      else NaN
  end.

Definition StringToNumber (s : list ascii) : num :=
  match trim s with
  | [] => int 0
  | "0"%char :: x :: r =>
      if bool_decide (x = "x"%char ∨ x = "X"%char) then radix_digits 16 r
      else if bool_decide (x = "o"%char ∨ x = "O"%char) then radix_digits 8 r
      else if bool_decide (x = "b"%char ∨ x = "B"%char) then radix_digits 2 r
      else match decimal_literal ("0"%char :: x :: r) with
           | Some (m, k, e, []) => scaled m k e
           | _ => NaN
           end
  | t =>
      let '(negative, t1) := sign_prefix t in
      if bool_decide (t1 = Infinity_text) then (if negative then NegInf else PosInf)
      else match decimal_literal t1 with
           | Some (m, k, e, []) => scaled (signed negative m) k e
           | _ => NaN
           end
  end.

(** [ToPrimitive(v)]: arrays and objects become their string. *)
Definition ToPrimitive (v : jsval) : jsval :=
  match v with
  | JArr _ | JObj _ => JStr (of_chars (ToString v))
  | _ => v
  end.

(** [Number(v)] *)
Definition ToNumber (v : jsval) : num :=
  match ToPrimitive v with
  | JUndefined => NaN
  | JNull => int 0
  | JBool b => int (if b then 1 else 0)
  | JNum n => n
  | JStr s => StringToNumber (chars s)
  | _ => NaN
  end.

End Conv.
(** ** Value coercer ([convertValue]) *)

Section ConvertValue.

Import Str Text Conv.

(** [pieces.map(s => s.trim())] *)
Definition trimmed_pieces (s : list ascii) : list jsval :=
  map (fun piece => JStr (of_chars (trim piece))) (split_comma s).

(** [pieces.map(s => parseInt(s.trim())).filter(n => !isNaN(n))] *)
Definition integer_pieces (s : list ascii) : list jsval :=
  map JNum
      (filter (fun n => Is_true (negb (Num.is_nan n)))
              (map (fun piece => parseInt (trim piece)) (split_comma s))).

Definition convertValue (value : jsval) (fieldName : string) : jsval :=
  if Conv.nullish value || (if value is JStr EmptyString then true else false) then JNull
  else
    let stringValue := trim (ToString value) in
    let named (word : string) := includes (chars fieldName) (chars word) in
    (* Handle arrays (skills, task IDs, etc.) *)
    if named "Skills" || named "TaskIDs" || named "Phases" then
      if bracketed stringValue then
        match JSON.parse stringValue with
        | Some v => v
        | None => JArr (trimmed_pieces (slice_1_m1 stringValue))
        end
      else JArr (filter (fun v => Is_true (truthy v)) (trimmed_pieces stringValue))
    (* Handle JSON fields *)
    else if named "JSON" || named "Attributes" then
      match JSON.parse stringValue with
      | Some v => v
      | None => JStr (of_chars stringValue)
      end
    (* Handle numbers *)
    else if named "Level" || named "Duration" || named "Load" || named "Concurrent" then
      let num := parseFloat stringValue in
      if Num.is_nan num then JNull else JNum num
    (* Handle slots/availability arrays *)
    else if named "Slots" then
      if bracketed stringValue then
        match JSON.parse stringValue with
        | Some v => v
        | None => JArr (integer_pieces (slice_1_m1 stringValue))
        end
      else JArr (integer_pieces stringValue)
    else JStr (of_chars stringValue).

End ConvertValue.
(** ** Operators on values *)

Module Js.

Import Str Text Conv.

(** A record of the input: an object read by property name; a missing
    property reads as [undefined]. *)
Definition get (r : gmap string jsval) (field : string) : jsval :=
  default JUndefined (r !! field).

Definition isArray (v : jsval) : bool := if v is JArr _ then true else false.
Definition is_string (v : jsval) : bool := if v is JStr _ then true else false.
Definition is_number (v : jsval) : bool := if v is JNum _ then true else false.

(** Elements of an array value (empty for other values). *)
Definition elements (v : jsval) : list jsval := if v is JArr l then l else [].

(** Own property [key] of a parsed object: the last member of that name. *)
Definition member (key : string) (members : list (string * jsval)) : jsval :=
  default JUndefined (snd <$> last (filter (fun m => m.1 = key) members)).

(** [v.length] for a value that is neither [null] nor [undefined]. *)
Definition length_of (v : jsval) : jsval :=
  match v with
  | JStr s => JNum (int (Z.of_nat (String.length s)))
  | JArr l => JNum (int (Z.of_nat (length l)))
  | JObj ms => member "length" ms
  | _ => JUndefined
  end.

(** Lexicographic order on strings, by character code. *)
Fixpoint str_ltb (a b : list ascii) : bool :=
  match a, b with
  | _, [] => false
  | [], _ :: _ => true
  | x :: a', y :: b' =>
      (code x <? code y) || (bool_decide (x = y) && str_ltb a' b')
  end.

(** [a < b] *)
Definition lt (a b : jsval) : bool :=
  match ToPrimitive a, ToPrimitive b with
  | JStr x, JStr y => str_ltb (chars x) (chars y)
  | pa, pb => Num.ltb (ToNumber pa) (ToNumber pb)
  end.

(** [a > b] *)
Definition gt (a b : jsval) : bool := lt b a.

(** [a <= b] *)
Definition le (a b : jsval) : bool :=
  match ToPrimitive a, ToPrimitive b with
  | JStr x, JStr y => negb (str_ltb (chars y) (chars x))
  | pa, pb => Num.leb (ToNumber pa) (ToNumber pb)
  end.

(** [a + b] *)
Definition add (a b : jsval) : jsval :=
  match ToPrimitive a, ToPrimitive b with
  | JStr x, pb => JStr (of_chars (chars x ++ ToString pb))
  | pa, JStr y => JStr (of_chars (ToString pa ++ chars y))
  | pa, pb => JNum (Num.add (ToNumber pa) (ToNumber pb))
  end.

(** [a * b] *)
Definition mul (a b : jsval) : jsval := JNum (Num.mul (ToNumber a) (ToNumber b)).

(** [a || b] *)
Definition or (a b : jsval) : jsval := if truthy a then a else b.

(** [Math.max(...values)] *)
Definition Math_max (values : list jsval) : num :=
  foldl (fun acc v => Num.max acc (ToNumber v)) NegInf values.

(** Equality used by [Set] and [Array.prototype.includes].  Arrays and
    objects are compared by identity; two cells never hold the same
    object, so they are never equal. *)
Definition SameValueZero (a b : jsval) : bool :=
  match a, b with
  | JUndefined, JUndefined | JNull, JNull => true
  | JBool x, JBool y => bool_decide (x = y)
  | JNum NaN, JNum NaN => true
  | JNum x, JNum y => Num.eqb x y
  | JStr x, JStr y => bool_decide (x = y)
  | _, _ => false
  end.

(** [set.has(v)] and [array.includes(v)] *)
Definition has (set : list jsval) (v : jsval) : bool :=
  existsb (fun x => SameValueZero x v) set.

End Js.
(** ** Validation engine ([DataValidator]) *)

Inductive DiagnosticType := error | warning.
Inductive Severity := high | medium | low.

#[global] Instance DiagnosticType_eq_dec : EqDecision DiagnosticType.
Proof. solve_decision. Defined.

(** A diagnostic.  The field [id], filled by [generateId()] from a module
    outside this development, is left out. *)
Record ValidationError := {
  type : DiagnosticType;
  severity : Severity;
  entity : DataType;
  row : nat;
  column : string;
  message : string;
  value : jsval;
  suggestion : option string;
  autoFixAvailable : bool
}.

Record Summary := {
  totalErrors : nat;
  totalWarnings : nat;
  validRows : Z;
  totalRows : nat
}.

Record ValidationResult := {
  isValid : bool;
  result_errors : list ValidationError;
  result_warnings : list ValidationError;
  confidence : Z;
  summary : Summary
}.

(** The collections handed to the cross-entity checks. *)
Record AllData := {
  all_clients : list (gmap string jsval);
  all_workers : list (gmap string jsval);
  all_tasks : list (gmap string jsval)
}.

(** [Math.round(q)] on an exact quotient. *)
Definition Math_round (q : Q) : Z := Qfloor (q + (1 # 2))%Q.

Module DataValidator.

Import Str Text Conv Js.

(** The two accumulators of the validator object. *)
Record state := { errors : list ValidationError; warnings : list ValidationError }.

(** [this.errors = []; this.warnings = [];] *)
Definition fresh : state := {| errors := []; warnings := [] |}.

Definition step := state → state.

Definition and_then (f g : step) : step := fun st => g (f st).
Infix ">>" := and_then (at level 61, left associativity).

Definition when (condition : bool) (f : step) : step :=
  if condition then f else fun st => st.

(** [!!suggestion] *)
Definition offered (suggestion : option string) : bool :=
  match suggestion with
  | Some s => negb (bool_decide (s = EmptyString))
  | None => false
  end.

Definition addError (entity : DataType) (row : nat) (column : string)
    (message : list ascii) (value : jsval) (suggestion : option string) : step :=
  fun st =>
    {| errors := errors st ++
         [ {| type := error; severity := high; entity := entity; row := row;
              column := column; message := of_chars message; value := value;
              suggestion := suggestion; autoFixAvailable := offered suggestion |} ];
       warnings := warnings st |}.

Definition addWarning (entity : DataType) (row : nat) (column : string)
    (message : list ascii) (value : jsval) (suggestion : option string) : step :=
  fun st =>
    {| errors := errors st;
       warnings := warnings st ++
         [ {| type := warning; severity := medium; entity := entity; row := row;
              column := column; message := of_chars message; value := value;
              suggestion := suggestion; autoFixAvailable := offered suggestion |} ] |}.

Definition num_lit (z : Z) : jsval := JNum (int z).

(** [ids.add(v)]: a set is kept as the list of the values added to it; the
    code only asks [ids.has(v)]. *)
Definition set_add (ids : list jsval) (v : jsval) : list jsval := ids ++ [v].

(** [values.filter(x => !x || typeof x !== 'string')] *)
Definition not_strings (values : list jsval) : list jsval :=
  filter (fun x => Is_true (negb (truthy x) || negb (is_string x))) values.

(** [JSON.parse(text)] throws. *)
Definition broken_json (v : jsval) : bool :=
  match v with
  | JStr s => bool_decide (JSON.parse (chars s) = None)
  | _ => false
  end.

(** The checks made on one client; [clientIds] holds the identifiers of the
    rows before it. *)
Definition clientChecks (clientIds : list jsval) (index : nat)
    (client : gmap string jsval) : step :=
  let ClientID := get client "ClientID" in
  let ClientName := get client "ClientName" in
  let PriorityLevel := get client "PriorityLevel" in
  let RequestedTaskIDs := get client "RequestedTaskIDs" in
  let AttributesJSON := get client "AttributesJSON" in
  let GroupTag := get client "GroupTag" in
  (* Missing required fields *)
  when (negb (truthy ClientID))
    (addError clients index "ClientID"
       (chars "Missing required field: ClientID") ClientID None) >>
  when (negb (truthy ClientName))
    (addError clients index "ClientName"
       (chars "Missing required field: ClientName") ClientName None) >>
  when (nullish PriorityLevel)
    (addError clients index "PriorityLevel"
       (chars "Missing required field: PriorityLevel") PriorityLevel None) >>
  (* Duplicate IDs *)
  when (truthy ClientID && has clientIds ClientID)
    (addError clients index "ClientID"
       (chars "Duplicate ClientID: " ++ ToString ClientID) ClientID
       (Some "Consider adding a suffix or using a unique identifier"%string)) >>
  (* Out-of-range values *)
  when (negb (nullish PriorityLevel) &&
        (lt PriorityLevel (num_lit 1) || gt PriorityLevel (num_lit 5)))
    (addError clients index "PriorityLevel"
       (chars "PriorityLevel must be between 1 and 5") PriorityLevel
       (Some "Use a value between 1 (lowest) and 5 (highest)"%string)) >>
  (* Malformed task IDs list *)
  when (truthy RequestedTaskIDs)
    (if negb (isArray RequestedTaskIDs) then
       addError clients index "RequestedTaskIDs"
         (chars "RequestedTaskIDs must be an array") RequestedTaskIDs
         (Some "Format as comma-separated values or JSON array"%string)
     else
       when (existsb (fun id => negb (truthy id) || negb (is_string id))
                     (elements RequestedTaskIDs))
         (addWarning clients index "RequestedTaskIDs"
            (chars "Some task IDs are empty or invalid") RequestedTaskIDs None)) >>
  (* Broken JSON in attributes *)
  when (truthy AttributesJSON && is_string AttributesJSON && broken_json AttributesJSON)
    (addError clients index "AttributesJSON"
       (chars "Invalid JSON format in AttributesJSON") AttributesJSON
       (Some "Ensure proper JSON syntax with quotes around keys and values"%string)) >>
  (* Data quality checks *)
  when (truthy ClientName && lt (length_of ClientName) (num_lit 2))
    (addWarning clients index "ClientName"
       (chars "Client name seems too short") ClientName None) >>
  when (truthy GroupTag &&
        negb (has [JStr "Enterprise"; JStr "SMB"; JStr "Startup"; JStr "Freelancer"]
                  GroupTag))
    (addWarning clients index "GroupTag"
       (chars "Unusual group tag value") GroupTag None).

(** Body of the loop of [validateClients]; [st.1] is the set [clientIds]. *)
Definition validateClient (st : list jsval * state) (item : nat * gmap string jsval)
  : list jsval * state :=
  let ClientID := get item.2 "ClientID" in
  (if truthy ClientID then set_add st.1 ClientID else st.1,
   clientChecks st.1 item.1 item.2 st.2).

(** [clients.forEach((client, index) => ...)] with a fresh [clientIds]. *)
Definition validateClients (data : list (gmap string jsval)) : step :=
  fun st => (foldl validateClient ([], st) (imap (fun i r => (i, r)) data)).2.

(** The checks made on one worker; [workerIds] holds the identifiers of the rows
    before it. *)
Definition workerChecks (workerIds : list jsval) (index : nat)
    (worker : gmap string jsval) : step :=
  let WorkerID := get worker "WorkerID" in
  let WorkerName := get worker "WorkerName" in
  let Skills := get worker "Skills" in
  let AvailableSlots := get worker "AvailableSlots" in
  let MaxLoadPerPhase := get worker "MaxLoadPerPhase" in
  let QualificationLevel := get worker "QualificationLevel" in
  let invalidSlots :=
    filter (fun slot => Is_true (negb (is_number slot) || lt slot (num_lit 0)))
           (elements AvailableSlots) in
  let maxSlots := JNum (Math_max (elements AvailableSlots ++ [num_lit 0])) in
  let emptySkills := not_strings (elements Skills) in
  (* Missing required fields *)
  when (negb (truthy WorkerID))
    (addError workers index "WorkerID"
       (chars "Missing required field: WorkerID") WorkerID None) >>
  when (negb (truthy WorkerName))
    (addError workers index "WorkerName"
       (chars "Missing required field: WorkerName") WorkerName None) >>
  when (negb (truthy Skills) || negb (isArray Skills) ||
        bool_decide (length (elements Skills) = 0))
    (addError workers index "Skills"
       (chars "Missing or empty skills array") Skills
       (Some "Add at least one skill"%string)) >>
  (* Duplicate IDs *)
  when (truthy WorkerID && has workerIds WorkerID)
    (addError workers index "WorkerID"
       (chars "Duplicate WorkerID: " ++ ToString WorkerID) WorkerID None) >>
  (* Availability slots validation *)
  when (truthy AvailableSlots)
    (if negb (isArray AvailableSlots) then
       addError workers index "AvailableSlots"
         (chars "AvailableSlots must be an array") AvailableSlots None
     else
       when (0 <? length invalidSlots)
         (addError workers index "AvailableSlots"
            (chars "Invalid slot values (must be positive numbers)")
            (JArr invalidSlots) None)) >>
  (* Load validation *)
  when (negb (nullish MaxLoadPerPhase))
    (when (le MaxLoadPerPhase (num_lit 0))
       (addError workers index "MaxLoadPerPhase"
          (chars "MaxLoadPerPhase must be greater than 0") MaxLoadPerPhase None) >>
     when (truthy AvailableSlots && isArray AvailableSlots)
       (when (gt MaxLoadPerPhase maxSlots)
          (addWarning workers index "MaxLoadPerPhase"
             (chars "MaxLoadPerPhase exceeds maximum available slots")
             MaxLoadPerPhase None))) >>
  (* Skills validation *)
  when (truthy Skills && isArray Skills)
    (when (0 <? length emptySkills)
       (addWarning workers index "Skills"
          (chars "Some skills are empty or invalid") (JArr emptySkills) None)) >>
  (* Data quality checks *)
  when (truthy WorkerName && lt (length_of WorkerName) (num_lit 2))
    (addWarning workers index "WorkerName"
       (chars "Worker name seems too short") WorkerName None) >>
  when (negb (nullish QualificationLevel))
    (when (lt QualificationLevel (num_lit 1) || gt QualificationLevel (num_lit 10))
       (addWarning workers index "QualificationLevel"
          (chars "Unusual qualification level (expected 1-10)")
          QualificationLevel None)).

(** Body of the loop of [validateWorkers]; [st.1] is the set [workerIds]. *)
Definition validateWorker (st : list jsval * state) (item : nat * gmap string jsval)
  : list jsval * state :=
  let WorkerID := get item.2 "WorkerID" in
  (if truthy WorkerID then set_add st.1 WorkerID else st.1,
   workerChecks st.1 item.1 item.2 st.2).

Definition validateWorkers (data : list (gmap string jsval)) : step :=
  fun st => (foldl validateWorker ([], st) (imap (fun i r => (i, r)) data)).2.

(** The checks made on one task; [taskIds] holds the identifiers of the rows
    before it. *)
Definition taskChecks (taskIds : list jsval) (index : nat)
    (task : gmap string jsval) : step :=
  let TaskID := get task "TaskID" in
  let TaskName := get task "TaskName" in
  let Category := get task "Category" in
  let Duration := get task "Duration" in
  let RequiredSkills := get task "RequiredSkills" in
  let PreferredPhases := get task "PreferredPhases" in
  let MaxConcurrent := get task "MaxConcurrent" in
  let emptySkills := not_strings (elements RequiredSkills) in
  let invalidPhases :=
    filter (fun phase => Is_true (negb (is_number phase) || lt phase (num_lit 1)))
           (elements PreferredPhases) in
  (* Missing required fields *)
  when (negb (truthy TaskID))
    (addError tasks index "TaskID"
       (chars "Missing required field: TaskID") TaskID None) >>
  when (negb (truthy TaskName))
    (addError tasks index "TaskName"
       (chars "Missing required field: TaskName") TaskName None) >>
  when (negb (truthy Category))
    (addError tasks index "Category"
       (chars "Missing required field: Category") Category None) >>
  when (nullish Duration)
    (addError tasks index "Duration"
       (chars "Missing required field: Duration") Duration None) >>
  (* Duplicate IDs *)
  when (truthy TaskID && has taskIds TaskID)
    (addError tasks index "TaskID"
       (chars "Duplicate TaskID: " ++ ToString TaskID) TaskID None) >>
  (* Duration validation *)
  when (negb (nullish Duration))
    (when (le Duration (num_lit 0))
       (addError tasks index "Duration"
          (chars "Duration must be greater than 0") Duration None) >>
     when (gt Duration (num_lit 1000))
       (addWarning tasks index "Duration"
          (chars "Unusually long duration") Duration None)) >>
  (* Required skills validation *)
  when (truthy RequiredSkills)
    (if negb (isArray RequiredSkills) then
       addError tasks index "RequiredSkills"
         (chars "RequiredSkills must be an array") RequiredSkills None
     else if bool_decide (length (elements RequiredSkills) = 0) then
       addWarning tasks index "RequiredSkills"
         (chars "No required skills specified") RequiredSkills None
     else
       when (0 <? length emptySkills)
         (addWarning tasks index "RequiredSkills"
            (chars "Some required skills are empty or invalid")
            (JArr emptySkills) None)) >>
  (* Preferred phases validation *)
  when (truthy PreferredPhases)
    (if negb (isArray PreferredPhases) then
       addError tasks index "PreferredPhases"
         (chars "PreferredPhases must be an array") PreferredPhases None
     else
       when (0 <? length invalidPhases)
         (addError tasks index "PreferredPhases"
            (chars "Invalid phase values (must be positive numbers)")
            (JArr invalidPhases) None)) >>
  (* Max concurrent validation *)
  when (negb (nullish MaxConcurrent))
    (when (le MaxConcurrent (num_lit 0))
       (addError tasks index "MaxConcurrent"
          (chars "MaxConcurrent must be greater than 0") MaxConcurrent None)) >>
  (* Data quality checks *)
  when (truthy TaskName && lt (length_of TaskName) (num_lit 3))
    (addWarning tasks index "TaskName"
       (chars "Task name seems too short") TaskName None).

(** Body of the loop of [validateTasks]; [st.1] is the set [taskIds]. *)
Definition validateTask (st : list jsval * state) (item : nat * gmap string jsval)
  : list jsval * state :=
  let TaskID := get item.2 "TaskID" in
  (if truthy TaskID then set_add st.1 TaskID else st.1,
   taskChecks st.1 item.1 item.2 st.2).

Definition validateTasks (data : list (gmap string jsval)) : step :=
  fun st => (foldl validateTask ([], st) (imap (fun i r => (i, r)) data)).2.

(** [rows.flatMap(r => r[field] || [])] *)
Definition flatMap_field (field : string) (rows : list (gmap string jsval)) : list jsval :=
  rows ≫= (fun r => match or (get r field) (JArr []) with
                    | JArr l => l
                    | v => [v]
                    end).

(** [rows.forEach((r, index) => ...)] for a body that only reports. *)
Definition forEach (rows : list (gmap string jsval))
    (body : nat → gmap string jsval → step) : step :=
  fun st => foldl (fun st item => body item.1 item.2 st) st (imap (fun i r => (i, r)) rows).

(** Cross-entity validation. *)
Definition validateCrossReferences (allData : AllData) : step :=
  let clients_ := all_clients allData in
  let workers_ := all_workers allData in
  let tasks_ := all_tasks allData in
  let taskIds := map (fun t => get t "TaskID") tasks_ in
  let allSkills := flatMap_field "Skills" workers_ in
  let maxPhase := JNum (Math_max (flatMap_field "AvailableSlots" workers_ ++ [num_lit 0])) in
  let totalTaskDuration :=
    foldl (fun sum task => add sum (or (get task "Duration") (num_lit 0)))
          (num_lit 0) tasks_ in
  let totalWorkerCapacity :=
    foldl (fun sum worker =>
             add sum (mul (or (get worker "MaxLoadPerPhase") (num_lit 0))
                          (or (if nullish (get worker "AvailableSlots") then JUndefined
                               else length_of (get worker "AvailableSlots"))
                              (num_lit 1))))
          (num_lit 0) workers_ in
  (* Check client requested task references *)
  forEach clients_ (fun index client =>
    let RequestedTaskIDs := get client "RequestedTaskIDs" in
    let invalidTaskIds :=
      filter (fun taskId => Is_true (negb (has taskIds taskId))) (elements RequestedTaskIDs) in
    when (truthy RequestedTaskIDs && isArray RequestedTaskIDs)
      (when (0 <? length invalidTaskIds)
         (addError clients index "RequestedTaskIDs"
            (chars "Referenced task IDs not found: " ++ Array_join ", " invalidTaskIds)
            (JArr invalidTaskIds) None))) >>
  (* Check skill coverage *)
  forEach tasks_ (fun index task =>
    let RequiredSkills := get task "RequiredSkills" in
    let uncoveredSkills :=
      filter (fun skill => Is_true (negb (has allSkills skill))) (elements RequiredSkills) in
    when (truthy RequiredSkills && isArray RequiredSkills)
      (when (0 <? length uncoveredSkills)
         (addWarning tasks index "RequiredSkills"
            (chars "No workers have these required skills: "
               ++ Array_join ", " uncoveredSkills)
            (JArr uncoveredSkills) None))) >>
  (* Check phase-slot feasibility *)
  forEach tasks_ (fun index task =>
    let PreferredPhases := get task "PreferredPhases" in
    let invalidPhases :=
      filter (fun phase => Is_true (gt phase maxPhase)) (elements PreferredPhases) in
    when (truthy PreferredPhases && isArray PreferredPhases)
      (when (0 <? length invalidPhases)
         (addWarning tasks index "PreferredPhases"
            (chars "Some preferred phases exceed worker availability: "
               ++ Array_join ", " invalidPhases)
            (JArr invalidPhases) None))) >>
  (* Check workload feasibility *)
  when (gt totalTaskDuration totalWorkerCapacity)
    (addWarning tasks 0 "Duration"
       (chars "Total task duration may exceed total worker capacity")
       (JStr (of_chars (ToString totalTaskDuration ++ chars " hrs vs "
                          ++ ToString totalWorkerCapacity ++ chars " hrs capacity")))
       None).

(** Main validation function.  The accumulators are cleared on entry, so
    the result depends on the arguments only. *)
Definition validate (data : list (gmap string jsval)) (dataType : DataType)
    (allData : option AllData) : ValidationResult :=
  let run :=
    match dataType with
    | clients => validateClients data
    | workers => validateWorkers data
    | tasks => validateTasks data
    end >>
    (* Cross-entity validations if all data is available *)
    match allData with
    | Some all => validateCrossReferences all
    | None => fun st => st
    end in
  let st := run fresh in
  let totalErrors := length (errors st) in
  let totalWarnings := length (warnings st) in
  let validRows :=
    (Z.of_nat (length data)
     - Z.of_nat (length (filter (fun e => type e = error) (errors st))))%Z in
  let confidence :=
    if 0 <? length data
    then Math_round (inject_Z validRows / Qnat (length data) * 100)%Q
    else 100%Z in
  {| isValid := bool_decide (totalErrors = 0);
     result_errors := errors st;
     result_warnings := warnings st;
     confidence := confidence;
     summary := {| totalErrors := totalErrors; totalWarnings := totalWarnings;
                   validRows := validRows; totalRows := length data |} |}.

End DataValidator.

(** Auto-fix suggestions. *)
Definition generateAutoFix (e : ValidationError) : jsval :=
  let at_column (name : string) := bool_decide (column e = name) in
  if at_column "PriorityLevel" then
    match value e with
    | JNum n => JNum (Num.max (int 1) (Num.min (int 5) (Num.round n)))
    | _ => JNum (int 3)
    end
  else if at_column "Duration" then
    if Js.is_number (value e) && Js.le (value e) (JNum (int 0)) then JNum (int 1)
    else value e
  else if at_column "MaxLoadPerPhase" then
    if Js.is_number (value e) && Js.le (value e) (JNum (int 0)) then JNum (int 8)
    else value e
  else if at_column "RequestedTaskIDs" || at_column "Skills" || at_column "RequiredSkills" then
    match value e with
    | JStr s => JArr (filter (fun v => Is_true (Conv.truthy v)) (trimmed_pieces (Str.chars s)))
    | _ => JArr []
    end
  else if at_column "AvailableSlots" || at_column "PreferredPhases" then
    match value e with
    | JStr s => JArr (integer_pieces (Str.chars s))
    | _ => JArr []
    end
  else value e.

(** ** File processing ([processFile]) *)

(** The result of [processFile].  The field [processingTime], read from the
    clock, is left out. *)
Record FileProcessingResult := {
  success : bool;
  data : list (gmap string jsval);
  headers : list string;
  mappedHeaders : gmap string string;
  validation : ValidationResult;
  aiConfidence : Z
}.

Module FileParser.

Import Str Text Conv.

(** [s.split('.')] *)
Fixpoint split_dot (s : list ascii) : list (list ascii) :=
  match s with
  | [] => [[]]
  | c :: r =>
      if bool_decide (c = "."%char) then [] :: split_dot r
      else match split_dot r with
           | piece :: pieces => (c :: piece) :: pieces
           | [] => [[c]]
           end
  end.

(** ['.' + file.name.split('.').pop()?.toLowerCase()] *)
Definition fileExtension (name : string) : string :=
  of_chars ("."%char :: toLowerCase (default [] (last (split_dot (chars name))))).

Definition validTypes : list string := [".csv"; ".xlsx"; ".xls"]%string.

(** A decoded row is the list of the own properties of the object, in the
    order in which [Object.keys] enumerates them, with distinct names;
    properties inherited from [Object.prototype] are not modelled. *)
Definition keys (row : list (string * jsval)) : list string := row.*1.

(** [row[header]]; [undefined] when the row has no such property. *)
Fixpoint field (row : list (string * jsval)) (header : string) : jsval :=
  match row with
  | [] => JUndefined
  | (name, v) :: rest => if bool_decide (name = header) then v else field rest header
  end.

(** The loop over the unmapped headers: [cleanRow[header] = row[header]]. *)
Definition passThrough (mapped : gmap string string) (row : list (string * jsval))
    (cleanRow : gmap string jsval) (header : string) : gmap string jsval :=
  if bool_decide (header ∈ (map_to_list mapped).*2) then cleanRow
  else <[header := field row header]> cleanRow.

(** Body of [rawData.map(row => ...)]. *)
Definition cleanRow (headerList : list string) (mapped : gmap string string)
    (row : list (string * jsval)) : gmap string jsval :=
  let converted :=
    map_fold (fun standardField originalHeader (acc : gmap string jsval) =>
                <[standardField := convertValue (field row originalHeader) standardField]> acc)
             ∅ mapped in
  foldl (passThrough mapped row) converted headerList.

(** The result returned from the [catch] block. *)
Definition failure : FileProcessingResult :=
  {| success := false; data := []; headers := []; mappedHeaders := ∅;
     validation :=
       {| isValid := false; result_errors := []; result_warnings := []; confidence := 0;
          summary := {| totalErrors := 1; totalWarnings := 0; validRows := 0;
                        totalRows := 0 |} |};
     aiConfidence := 0 |}.

(** [processFile(file, dataType)], given the name and size of the file and
    what the decoder ([parseCSV] or [parseXLSX], which call libraries outside
    this development) made of it: [None] when the decoder failed or delivered
    no array.  The share of mapped fields is an exact quotient; the tables
    have 6 or 7 fields, so that no percentage lies halfway between two integers
    and rounding the double gives the same integer. *)
Definition processFile (name : string) (fileSize : Z)
    (decoded : option (list (list (string * jsval)))) (dataType : DataType)
  : FileProcessingResult :=
  if negb (bool_decide (fileExtension name ∈ validTypes)) then failure
  else if (10 * 1024 * 1024 <? fileSize)%Z then failure
  else
    match decoded with
    | None | Some [] => failure
    | Some ((first :: _) as rawData) =>
        let headerList := keys first in
        let mapped := mapHeaders headerList dataType in
        let processedData := map (cleanRow headerList mapped) rawData in
        let confidence :=
          (Qnat (size mapped) / Qnat (length (HEADER_MAPPINGS dataType)) * 100)%Q in
        {| success := true;
           data := processedData;
           headers := headerList;
           mappedHeaders := mapped;
           validation :=
             {| isValid := true; result_errors := []; result_warnings := [];
                confidence := 100;
                summary := {| totalErrors := 0; totalWarnings := 0;
                              validRows := Z.of_nat (length processedData);
                              totalRows := length processedData |} |};
           aiConfidence := Math_round confidence |}
    end.

End FileParser.

(** ** Definitions used to state the properties *)

(** *** Levenshtein distance: the textbook recurrence and edit scripts *)

(** The Levenshtein distance, by its recurrence on the first characters. *)
Fixpoint levenshtein (s : list ascii) : list ascii → nat :=
  fix go (t : list ascii) : nat :=
    match s, t with
    | [], _ => length t
    | _, [] => length s
    | a :: s', b :: t' =>
        Nat.min (Nat.min (levenshtein s' t + 1) (go t' + 1))
                (levenshtein s' t' + if decide (a = b) then 0 else 1)
    end.

(** [edit s t n]: a script of deletions, insertions and substitutions of
    cost [n] turns [s] into [t]. *)
Inductive edit : list ascii → list ascii → nat → Prop :=
| edit_nil : edit [] [] 0
| edit_del a s t n : edit s t n → edit (a :: s) t (S n)
| edit_ins b s t n : edit s t n → edit s (b :: t) (S n)
| edit_keep a s t n : edit s t n → edit (a :: s) (a :: t) n
| edit_sub a b s t n : edit s t n → edit (a :: s) (b :: t) (S n).

(** Distance between the prefixes of lengths [i] and [j]. *)
Definition cell (s1 s2 : list ascii) (i j : nat) : nat :=
  levenshtein (reverse (take i s1)) (reverse (take j s2)).

Definition table_wf (s1 s2 : list ascii) (m : list (list nat)) : Prop :=
  length m = length s2 + 1 ∧
  ∀ j row, m !! j = Some row → length row = length s1 + 1.

(** Cells that hold their final value when the loops stand at row [J],
    column [I]. *)
Definition done_before (J I j i : nat) : Prop :=
  j = 0 ∨ i = 0 ∨ j < J ∨ (j = J ∧ i < I).

Definition filled (s1 s2 : list ascii) (J I : nat) (m : list (list nat)) : Prop :=
  table_wf s1 s2 m ∧
  ∀ j i, j ≤ length s2 → i ≤ length s1 → done_before J I j i →
         mget m j i = cell s1 s2 i j.

(** [p] occurs in [s] as a contiguous block. *)
Definition substring (p s : list ascii) : Prop := ∃ l r, s = l ++ p ++ r.

(** *** Header mapper *)

(** The best score of a header against the alternatives of a field: [1] on a
    direct match, otherwise the largest similarity to an alternative. *)
Definition header_score (alternatives : list string) (header : string) : Q :=
  if directMatch alternatives header then 1%Q
  else foldr Qmax 0%Q (map (calculateSimilarity header) alternatives).

(** Headers that the fields of [pre] have claimed. *)
Definition claimed (headers : list string) (pre : list (string * list string))
  : gset string :=
  (mapFields headers pre).2.

(** What the pair [(bestMatch, bestScore)] satisfies while the headers are
    scanned. *)
Definition candidate_ok (headers : list string) (used : gset string)
    (alternatives : list string) (best : string * Q) : Prop :=
  best = (EmptyString, 0%Q) ∨
  ((best.1) ∈ headers ∧ ((best.1) ∉ used) ∧
   (0.6 < best.2)%Q ∧ (best.2 <= header_score alternatives best.1)%Q).

(** *** Value coercer *)

(** Field names that reach the slots rule of [convertValue]. *)
Definition slot_field (fieldName : string) : bool :=
  let named (word : string) := Str.includes (Str.chars fieldName) (Str.chars word) in
  named "Slots" &&
  negb (named "Skills" || named "TaskIDs" || named "Phases" || named "JSON"
        || named "Attributes" || named "Level" || named "Duration" || named "Load"
        || named "Concurrent").

(** Field names that reach the JSON rule of [convertValue]. *)
Definition json_field (fieldName : string) : bool :=
  let named (word : string) := Str.includes (Str.chars fieldName) (Str.chars word) in
  (named "JSON" || named "Attributes") &&
  negb (named "Skills" || named "TaskIDs" || named "Phases").

(** The integer a piece spells, if [parseInt] finds one in it. *)
Definition piece_integer (piece : list ascii) : option Z :=
  Text.mathInt (Text.trim piece).

(** A whole number, or an infinity. *)
Definition whole (n : num) : Prop := n = PosInf ∨ n = NegInf ∨ ∃ z, n = int z.

(** A text of 310 digits, beyond the range of doubles. *)
Definition digits_310 : string := Str.of_chars (replicate 310 "9"%char).

(** A parsing step that does not run out of fuel and, when it succeeds,
    leaves a strictly shorter text. *)
Definition consumes {A} (s : list ascii) (r : JSON.result (A * list ascii)) : Prop :=
  r ≠ JSON.OutOfFuel ∧ ∀ a rest, r = JSON.Ok (a, rest) → length rest < length s.

(** *** Validation engine *)

(** Diagnostics of the validator, written out. *)
Definition mkError (entity : DataType) (row : nat) (column : string) (message : string)
    (value : jsval) (suggestion : option string) : ValidationError :=
  {| type := error; severity := high; entity := entity; row := row; column := column;
     message := message; value := value; suggestion := suggestion;
     autoFixAvailable := DataValidator.offered suggestion |}.

Definition only_if (c : bool) (e : ValidationError) : list ValidationError :=
  if c then [e] else [].

(** The errors of [clientChecks], one conditional entry per check that
    reports an error. *)
Definition clientErrors (clientIds : list jsval) (index : nat)
    (client : gmap string jsval) : list ValidationError :=
  let ClientID := Js.get client "ClientID" in
  let ClientName := Js.get client "ClientName" in
  let PriorityLevel := Js.get client "PriorityLevel" in
  let RequestedTaskIDs := Js.get client "RequestedTaskIDs" in
  let AttributesJSON := Js.get client "AttributesJSON" in
  only_if (negb (Conv.truthy ClientID))
    (mkError clients index "ClientID" "Missing required field: ClientID" ClientID None) ++
  only_if (negb (Conv.truthy ClientName))
    (mkError clients index "ClientName" "Missing required field: ClientName"
       ClientName None) ++
  only_if (Conv.nullish PriorityLevel)
    (mkError clients index "PriorityLevel" "Missing required field: PriorityLevel"
       PriorityLevel None) ++
  only_if (Conv.truthy ClientID && Js.has clientIds ClientID)
    (mkError clients index "ClientID"
       (Str.of_chars (Str.chars "Duplicate ClientID: " ++ Conv.ToString ClientID)) ClientID
       (Some "Consider adding a suffix or using a unique identifier"%string)) ++
  only_if (negb (Conv.nullish PriorityLevel) &&
           (Js.lt PriorityLevel (DataValidator.num_lit 1)
            || Js.gt PriorityLevel (DataValidator.num_lit 5)))
    (mkError clients index "PriorityLevel" "PriorityLevel must be between 1 and 5"
       PriorityLevel (Some "Use a value between 1 (lowest) and 5 (highest)"%string)) ++
  only_if (Conv.truthy RequestedTaskIDs && negb (Js.isArray RequestedTaskIDs))
    (mkError clients index "RequestedTaskIDs" "RequestedTaskIDs must be an array"
       RequestedTaskIDs (Some "Format as comma-separated values or JSON array"%string)) ++
  only_if (Conv.truthy AttributesJSON && Js.is_string AttributesJSON
           && DataValidator.broken_json AttributesJSON)
    (mkError clients index "AttributesJSON" "Invalid JSON format in AttributesJSON"
       AttributesJSON
       (Some "Ensure proper JSON syntax with quotes around keys and values"%string)).

(** Identifiers that the loop has put in its set after the given rows. *)
Definition seen_ids (field : string) (rows : list (gmap string jsval)) : list jsval :=
  filter (fun v => Is_true (Conv.truthy v)) (map (fun r => Js.get r field) rows).

(** The errors of [validateClients], row by row. *)
Definition clientReports (data : list (gmap string jsval)) : list ValidationError :=
  mjoin (imap (fun k client => clientErrors (seen_ids "ClientID" (take k data)) k client) data).

(** The entries of [RequestedTaskIDs] that name no task of the collection. *)
Definition unresolvedTaskIds (allData : AllData) (client : gmap string jsval) : list jsval :=
  filter (fun taskId =>
            Is_true (negb (Js.has (map (fun t => Js.get t "TaskID") (all_tasks allData))
                                  taskId)))
         (Js.elements (Js.get client "RequestedTaskIDs")).

(** The error of the cross-entity pass for one client row. *)
Definition unresolvedError (allData : AllData) (index : nat) (client : gmap string jsval)
  : ValidationError :=
  mkError clients index "RequestedTaskIDs"
    (Str.of_chars (Str.chars "Referenced task IDs not found: "
                     ++ Conv.Array_join ", " (unresolvedTaskIds allData client)))
    (JArr (unresolvedTaskIds allData client)) None.

Definition crossErrors (allData : AllData) (index : nat) (client : gmap string jsval)
  : list ValidationError :=
  only_if (Conv.truthy (Js.get client "RequestedTaskIDs")
           && Js.isArray (Js.get client "RequestedTaskIDs")
           && (0 <? length (unresolvedTaskIds allData client)))
          (unresolvedError allData index client).

(** Rows outside [1,5], as the range check of [clientChecks] tests them. *)
Definition outside_1_5 (n : num) : bool := Num.ltb n (int 1) || Num.ltb (int 5) n.

(** The nearest integer to [m / 10^k], halves up, clamped into [1,5]. *)
Definition round_clamp (m : Z) (k : nat) : Z := Z.max 1 (Z.min 5 (Math_round (to_Q m k))).

(** A diagnostic that flags a duplicate client identifier. *)
Definition is_duplicate_error (e : ValidationError) : Prop :=
  Is_true (Str.prefixb (Str.chars "Duplicate ClientID: ") (Str.chars (message e))).

(** The error [clientChecks] reports for a repeated identifier. *)
Definition duplicateError (index : nat) (id : string) : ValidationError :=
  mkError clients index "ClientID" ("Duplicate ClientID: " +:+ id) (JStr id)
    (Some "Consider adding a suffix or using a unique identifier"%string).

(** Rows with no associated error, and the confidence the specification
    derives from them: [round(100 * rows_without_errors / total_rows)], and
    [100] for an empty collection. *)
Definition rows_without_errors (total : nat) (errs : list ValidationError) : nat :=
  length (filter (fun i => Forall (fun e => row e ≠ i) errs) (seq 0 total)).

Definition specified_confidence (total : nat) (errs : list ValidationError) : Z :=
  if 0 <? total
  then Math_round (100 * Qnat (rows_without_errors total errs) / Qnat total)%Q
  else 100%Z.

(** A well-formed client and one with two defects (no name, priority 9). *)
Definition sound_client (id : string) : gmap string jsval :=
  {[ "ClientID"%string := JStr id; "ClientName"%string := JStr "Acme";
     "PriorityLevel"%string := JNum (int 3) ]}.

Definition faulty_client (id : string) : gmap string jsval :=
  {[ "ClientID"%string := JStr id; "PriorityLevel"%string := JNum (int 9) ]}.

Definition ten_clients : list (gmap string jsval) :=
  [ sound_client "C0"; sound_client "C1"; sound_client "C2"; sound_client "C3";
    sound_client "C4"; sound_client "C5"; sound_client "C6";
    faulty_client "C7"; faulty_client "C8"; faulty_client "C9" ].

(** A step only appends to the two accumulators. *)
Definition appends (f : DataValidator.step) : Prop :=
  ∀ st, DataValidator.errors (f st) =
          DataValidator.errors st ++ DataValidator.errors (f DataValidator.fresh) ∧
        DataValidator.warnings (f st) =
          DataValidator.warnings st ++ DataValidator.warnings (f DataValidator.fresh).

(** No unclaimed header among [processed] scores above both 0.6 and
    [bound]. *)
Definition dominated (used : gset string) (alternatives : list string) (bound : Q)
    (processed : list string) : Prop :=
  ∀ h, h ∈ processed → h ∉ used →
       (header_score alternatives h <= 0.6)%Q ∨ (header_score alternatives h <= bound)%Q.

(** Field names that fall under the list rule of [convertValue]. *)
Definition list_field (fieldName : string) : bool :=
  let named (word : string) := Str.includes (Str.chars fieldName) (Str.chars word) in
  named "Skills" || named "TaskIDs" || named "Phases".

(** Field names that reach the number rule of [convertValue]. *)
Definition number_field (fieldName : string) : bool :=
  let named (word : string) := Str.includes (Str.chars fieldName) (Str.chars word) in
  (named "Level" || named "Duration" || named "Load" || named "Concurrent") &&
  negb (named "Skills" || named "TaskIDs" || named "Phases" || named "JSON"
        || named "Attributes").

(** A text that does not start with white space. *)
Definition headed (s : list ascii) : Prop :=
  match s with
  | [] => True
  | c :: _ => Text.is_space c = false
  end.

(** *** File processing *)

(** [ext] is what follows the last dot of [name], or the whole of [name]
    when it has no dot. *)
Definition after_last_dot (name ext : list ascii) : Prop :=
  ("."%char ∉ ext) ∧ (name = ext ∨ ∃ stem, name = stem ++ "."%char :: ext).

(** Headers of the file that no standard field was mapped to. *)
Definition unmapped (fileHeaders : list string) (mapped : gmap string string)
    (header : string) : Prop :=
  header ∈ fileHeaders ∧ ∀ f, mapped !! f ≠ Some header.

(** *** Shape and place of the diagnostics *)

(** What [addError] and [addWarning] put on every diagnostic they store. *)
Definition error_shaped (d : ValidationError) : Prop :=
  type d = error ∧ severity d = high ∧
  autoFixAvailable d = DataValidator.offered (suggestion d).

Definition warning_shaped (d : ValidationError) : Prop :=
  type d = warning ∧ severity d = medium ∧
  autoFixAvailable d = DataValidator.offered (suggestion d).

(** A diagnostic that points into the validated collection or, for the
    cross-entity pass, into the clients or tasks handed over with it; the
    workload warning is always put on row 0 of the tasks. *)
Definition placed (data : list (gmap string jsval)) (dataType : DataType)
    (allData : option AllData) (d : ValidationError) : Prop :=
  (entity d = dataType ∧ row d < length data) ∨
  match allData with
  | Some all =>
      (entity d = clients ∧ row d < length (all_clients all)) ∨
      (entity d = tasks ∧
       (row d < length (all_tasks all) ∨ (row d = 0 ∧ column d = "Duration"%string)))
  | None => False
  end.

(** Errors and warnings about row [i] of the collection [ent], and about
    some row of a collection of [n] rows. *)
Definition error_at (ent : DataType) (i : nat) (d : ValidationError) : Prop :=
  error_shaped d ∧ entity d = ent ∧ row d = i.

Definition warning_at (ent : DataType) (i : nat) (d : ValidationError) : Prop :=
  warning_shaped d ∧ entity d = ent ∧ row d = i.

Definition error_in (ent : DataType) (n : nat) (d : ValidationError) : Prop :=
  error_shaped d ∧ entity d = ent ∧ row d < n.

Definition warning_in (ent : DataType) (n : nat) (d : ValidationError) : Prop :=
  warning_shaped d ∧ entity d = ent ∧ row d < n.

(** A step that only appends: errors satisfying [E], warnings satisfying
    [W]. *)
Definition emits (E W : ValidationError → Prop) (f : DataValidator.step) : Prop :=
  appends f ∧
  Forall E (DataValidator.errors (f DataValidator.fresh)) ∧
  Forall W (DataValidator.warnings (f DataValidator.fresh)).

(** *** Accepted rows *)

(** A step that reports no error. *)
Definition silent (f : DataValidator.step) : Prop :=
  DataValidator.errors (f DataValidator.fresh) = [].

(** The rows on which the checks of the three entities report no error;
    [earlier] are the rows before the row at hand. *)
Definition client_accepted (earlier : list (gmap string jsval))
    (client : gmap string jsval) : Prop :=
  let ClientID := Js.get client "ClientID" in
  let ClientName := Js.get client "ClientName" in
  let PriorityLevel := Js.get client "PriorityLevel" in
  let RequestedTaskIDs := Js.get client "RequestedTaskIDs" in
  let AttributesJSON := Js.get client "AttributesJSON" in
  Conv.truthy ClientID = true ∧
  Conv.truthy ClientName = true ∧
  Conv.nullish PriorityLevel = false ∧
  Js.has (seen_ids "ClientID" earlier) ClientID = false ∧
  (Js.lt PriorityLevel (DataValidator.num_lit 1) = false ∧
   Js.gt PriorityLevel (DataValidator.num_lit 5) = false) ∧
  (Conv.truthy RequestedTaskIDs = true → Js.isArray RequestedTaskIDs = true) ∧
  (Conv.truthy AttributesJSON = true → Js.is_string AttributesJSON = true →
   DataValidator.broken_json AttributesJSON = false).

Definition worker_accepted (earlier : list (gmap string jsval))
    (worker : gmap string jsval) : Prop :=
  let WorkerID := Js.get worker "WorkerID" in
  let WorkerName := Js.get worker "WorkerName" in
  let Skills := Js.get worker "Skills" in
  let AvailableSlots := Js.get worker "AvailableSlots" in
  let MaxLoadPerPhase := Js.get worker "MaxLoadPerPhase" in
  Conv.truthy WorkerID = true ∧
  Conv.truthy WorkerName = true ∧
  (Conv.truthy Skills = true ∧ Js.isArray Skills = true ∧ Js.elements Skills ≠ []) ∧
  Js.has (seen_ids "WorkerID" earlier) WorkerID = false ∧
  (Conv.truthy AvailableSlots = true →
   Js.isArray AvailableSlots = true ∧
   Forall (fun slot => Js.is_number slot = true ∧
                       Js.lt slot (DataValidator.num_lit 0) = false)
          (Js.elements AvailableSlots)) ∧
  (Conv.nullish MaxLoadPerPhase = false →
   Js.le MaxLoadPerPhase (DataValidator.num_lit 0) = false).

Definition task_accepted (earlier : list (gmap string jsval))
    (task : gmap string jsval) : Prop :=
  let TaskID := Js.get task "TaskID" in
  let TaskName := Js.get task "TaskName" in
  let Category := Js.get task "Category" in
  let Duration := Js.get task "Duration" in
  let RequiredSkills := Js.get task "RequiredSkills" in
  let PreferredPhases := Js.get task "PreferredPhases" in
  let MaxConcurrent := Js.get task "MaxConcurrent" in
  Conv.truthy TaskID = true ∧
  Conv.truthy TaskName = true ∧
  Conv.truthy Category = true ∧
  Conv.nullish Duration = false ∧
  Js.has (seen_ids "TaskID" earlier) TaskID = false ∧
  Js.le Duration (DataValidator.num_lit 0) = false ∧
  (Conv.truthy RequiredSkills = true → Js.isArray RequiredSkills = true) ∧
  (Conv.truthy PreferredPhases = true →
   Js.isArray PreferredPhases = true ∧
   Forall (fun phase => Js.is_number phase = true ∧
                        Js.lt phase (DataValidator.num_lit 1) = false)
          (Js.elements PreferredPhases)) ∧
  (Conv.nullish MaxConcurrent = false →
   Js.le MaxConcurrent (DataValidator.num_lit 0) = false).

(** Every array of requested task identifiers names tasks of the collection
    only; nothing is asked when the collections are not handed over. *)
Definition references_resolved (allData : option AllData) : Prop :=
  match allData with
  | Some all =>
      ∀ client, client ∈ all_clients all →
        Conv.truthy (Js.get client "RequestedTaskIDs") = true →
        Js.isArray (Js.get client "RequestedTaskIDs") = true →
        unresolvedTaskIds all client = []
  | None => True
  end.

(** * Properties *)
(** ** Levenshtein distance: recurrence and edit scripts agree *)

Section Levenshtein.

Lemma min3_ind (P : nat → Prop) x y z :
  P x → P y → P z → P (Nat.min (Nat.min x y) z).
Proof. intros. destruct (Nat.min_spec x y) as [[_ ->]|[_ ->]]; apply Nat.min_case; done. Qed.

Lemma levenshtein_nil_r s : levenshtein s [] = length s.
Proof. by destruct s. Qed.

Lemma levenshtein_nil_l t : levenshtein [] t = length t.
Proof. by destruct t. Qed.

Lemma levenshtein_cons a b s t :
  levenshtein (a :: s) (b :: t) =
    Nat.min (Nat.min (levenshtein s (b :: t) + 1) (levenshtein (a :: s) t + 1))
            (levenshtein s t + if decide (a = b) then 0 else 1).
Proof. reflexivity. Qed.

Lemma edit_all_ins t : edit [] t (length t).
Proof. induction t; simpl; eauto using edit. Qed.

Lemma edit_all_del s : edit s [] (length s).
Proof. induction s; simpl; eauto using edit. Qed.

Lemma levenshtein_edit s t : edit s t (levenshtein s t).
Proof.
  revert t. induction s as [|a s IHs]; intros t.
  - destruct t; apply edit_all_ins.
  - induction t as [|b t IHt].
    + apply (edit_all_del (a :: s)).
    + rewrite levenshtein_cons. apply min3_ind.
      * rewrite Nat.add_1_r. by constructor.
      * rewrite Nat.add_1_r. by constructor.
      * case_decide as Hab.
        -- subst b. rewrite Nat.add_0_r. by constructor.
        -- rewrite Nat.add_1_r. by constructor.
Qed.

Lemma levenshtein_least s t n : edit s t n → levenshtein s t ≤ n.
Proof.
  induction 1 as [|a s t n _ IH|b s t n _ IH|a s t n _ IH|a b s t n _ IH].
  - done.
  - destruct t as [|b t]; [rewrite !levenshtein_nil_r in *; simpl; lia|].
    rewrite levenshtein_cons. lia.
  - destruct s as [|a s]; [rewrite !levenshtein_nil_l in *; simpl; lia|].
    rewrite levenshtein_cons. lia.
  - rewrite levenshtein_cons. rewrite decide_True by done. lia.
  - rewrite levenshtein_cons. case_decide; lia.
Qed.

Lemma edit_del_snoc a s t n : edit s t n → edit (s ++ [a]) t (S n).
Proof. induction 1; simpl; eauto using edit. Qed.

Lemma edit_ins_snoc b s t n : edit s t n → edit s (t ++ [b]) (S n).
Proof. induction 1; simpl; eauto using edit. Qed.

Lemma edit_keep_snoc a s t n : edit s t n → edit (s ++ [a]) (t ++ [a]) n.
Proof. induction 1; simpl; eauto using edit. Qed.

Lemma edit_sub_snoc a b s t n : edit s t n → edit (s ++ [a]) (t ++ [b]) (S n).
Proof. induction 1; simpl; eauto using edit. Qed.

Lemma edit_reverse s t n : edit s t n → edit (reverse s) (reverse t) n.
Proof.
  induction 1; rewrite ?reverse_cons;
    eauto using edit, edit_del_snoc, edit_ins_snoc, edit_keep_snoc, edit_sub_snoc.
Qed.

Lemma levenshtein_reverse s t : levenshtein (reverse s) (reverse t) = levenshtein s t.
Proof.
  apply Nat.le_antisymm.
  - apply levenshtein_least, edit_reverse, levenshtein_edit.
  - rewrite <- (reverse_involutive s), <- (reverse_involutive t) at 1.
    apply levenshtein_least, edit_reverse, levenshtein_edit.
Qed.

Lemma levenshtein_le_max s t : levenshtein s t ≤ Nat.max (length s) (length t).
Proof.
  revert t. induction s as [|a s IH]; intros t.
  - rewrite levenshtein_nil_l. lia.
  - destruct t as [|b t]; [rewrite levenshtein_nil_r; lia|].
    rewrite levenshtein_cons. specialize (IH t). simpl. case_decide; lia.
Qed.

End Levenshtein.

(** ** The table computes the recurrence *)

Section Table.

Variables s1 s2 : list ascii.

Lemma mset_wf m j i v : table_wf s1 s2 m → table_wf s1 s2 (mset m j i v).
Proof.
  intros [Hlen Hrow]. split; [by unfold mset; rewrite length_alter|].
  intros j' row. unfold mset. rewrite list_lookup_alter.
  case_decide; [subst|by eauto].
  destruct (m !! j') as [r|] eqn:E; [|done].
  intros [= <-]. rewrite length_insert. eauto.
Qed.

Lemma mget_mset_eq m j i v :
  table_wf s1 s2 m → j ≤ length s2 → i ≤ length s1 → mget (mset m j i v) j i = v.
Proof.
  intros [Hlen Hrow] Hj Hi. unfold mget, mset. rewrite list_lookup_alter_eq.
  destruct (lookup_lt_is_Some_2 m j) as [r Hr]; [lia|].
  rewrite Hr. simpl. rewrite list_lookup_insert_eq; [done|].
  rewrite (Hrow _ _ Hr). lia.
Qed.

Lemma mget_mset_ne m j i v j' i' :
  j' ≠ j ∨ i' ≠ i → mget (mset m j i v) j' i' = mget m j' i'.
Proof.
  intros Hne. unfold mget, mset. rewrite list_lookup_alter.
  case_decide; [subst j'|done].
  destruct (m !! j) as [r|]; [simpl|done].
  destruct Hne as [?|?]; [done|]. by rewrite list_lookup_insert_ne.
Qed.

Lemma foldl_seq_invariant {A} (Inv : nat → A → Prop) (f : A → nat → A) a n x :
  (∀ k y, a ≤ k < a + n → Inv k y → Inv (S k) (f y k)) →
  Inv a x → Inv (a + n) (foldl f x (seq a n)).
Proof.
  revert a x. induction n as [|n IH]; intros a x Hstep Hx; simpl.
  - by rewrite Nat.add_0_r.
  - replace (a + S n) with (S a + n) by lia. apply IH.
    + intros k y Hk. apply Hstep. lia.
    + apply Hstep; [lia|done].
Qed.

Lemma cell_0_r i : i ≤ length s1 → cell s1 s2 i 0 = i.
Proof.
  intros Hi. unfold cell. rewrite take_0. simpl.
  by rewrite levenshtein_nil_r, length_reverse, length_take_le.
Qed.

Lemma cell_0_l j : j ≤ length s2 → cell s1 s2 0 j = j.
Proof.
  intros Hj. unfold cell. rewrite take_0. simpl.
  by rewrite levenshtein_nil_l, length_reverse, length_take_le.
Qed.

Lemma cell_S i j :
  1 ≤ i ≤ length s1 → 1 ≤ j ≤ length s2 →
  cell s1 s2 i j =
    Nat.min (Nat.min (cell s1 s2 (i - 1) j + 1) (cell s1 s2 i (j - 1) + 1))
            (cell s1 s2 (i - 1) (j - 1) + indicator s1 s2 i j).
Proof.
  intros Hi Hj. destruct i as [|i]; [lia|]. destruct j as [|j]; [lia|].
  replace (S i - 1) with i by lia. replace (S j - 1) with j by lia.
  destruct (lookup_lt_is_Some_2 s1 i) as [a Ha]; [lia|].
  destruct (lookup_lt_is_Some_2 s2 j) as [b Hb]; [lia|].
  unfold cell, indicator.
  replace (S i - 1) with i by lia. replace (S j - 1) with j by lia.
  rewrite (take_S_r _ _ _ Ha), (take_S_r _ _ _ Hb), !reverse_snoc.
  rewrite levenshtein_cons, Ha, Hb.
  repeat case_decide; congruence.
Qed.

(** First loop: [matrix[0][i] = i]. *)
Lemma first_row_filled :
  let m0 := replicate (length s2 + 1) (replicate (length s1 + 1) 0) in
  let m1 := foldl (fun m i => mset m 0 i i) m0 (seq 0 (length s1 + 1)) in
  table_wf s1 s2 m1 ∧ ∀ i, i ≤ length s1 → mget m1 0 i = i.
Proof.
  intros m0 m1.
  assert (Hinv : table_wf s1 s2 m1 ∧ ∀ i, i < 0 + (length s1 + 1) → mget m1 0 i = i).
  { subst m0 m1.
    apply (foldl_seq_invariant (fun k m => table_wf s1 s2 m ∧ ∀ i, i < k → mget m 0 i = i)).
    - intros k m Hk [Hwf Hm]. split; [by apply mset_wf|].
      intros i Hi. destruct (decide (i = k)) as [->|Hne].
      + apply mget_mset_eq; [done|lia|lia].
      + rewrite mget_mset_ne by auto. apply Hm. lia.
    - split; [|intros; lia]. split; [by rewrite length_replicate|].
      intros j row [-> _]%lookup_replicate. by rewrite length_replicate. }
  destruct Hinv as [Hwf Hm]. split; [done|]. intros i Hi. apply Hm. lia.
Qed.

(** Second loop: [matrix[j][0] = j]. *)
Lemma borders_filled :
  let m0 := replicate (length s2 + 1) (replicate (length s1 + 1) 0) in
  let m1 := foldl (fun m i => mset m 0 i i) m0 (seq 0 (length s1 + 1)) in
  let m2 := foldl (fun m j => mset m j 0 j) m1 (seq 0 (length s2 + 1)) in
  filled s1 s2 1 1 m2.
Proof.
  intros m0 m1 m2. destruct first_row_filled as [Hwf1 Hrow0]. fold m0 m1 in Hwf1, Hrow0.
  clearbody m1. clear m0.
  assert (Hinv : table_wf s1 s2 m2 ∧ (∀ i, i ≤ length s1 → mget m2 0 i = i) ∧
                 ∀ j, j < 0 + (length s2 + 1) → mget m2 j 0 = j).
  { unfold m2.
    apply (foldl_seq_invariant (fun k m =>
             table_wf s1 s2 m ∧ (∀ i, i ≤ length s1 → mget m 0 i = i) ∧
             ∀ j, j < k → mget m j 0 = j)).
    - intros k m Hk (Hwf & Hr & Hc). split; [by apply mset_wf|]. split.
      + intros i Hi. destruct (decide (k = 0 ∧ i = 0)) as [[-> ->]|Hne].
        * apply mget_mset_eq; [done|lia|lia].
        * rewrite mget_mset_ne by lia. by apply Hr.
      + intros j Hj. destruct (decide (j = k)) as [->|Hne].
        * apply mget_mset_eq; [done|lia|lia].
        * rewrite mget_mset_ne by auto. apply Hc. lia.
    - split; [done|]. split; [done|]. intros; lia. }
  destruct Hinv as (Hwf & Hr & Hc). split; [done|].
  intros j i Hj Hi [->|[->|[Hlt|[-> Hlt]]]].
  - rewrite cell_0_r by done. by apply Hr.
  - rewrite cell_0_l by done. apply Hc. lia.
  - replace j with 0 by lia. rewrite cell_0_r by lia. by apply Hr.
  - replace i with 0 by lia. rewrite cell_0_l by lia. apply Hc. lia.
Qed.

Lemma fill_cell_filled J I m :
  1 ≤ J ≤ length s2 → 1 ≤ I ≤ length s1 →
  filled s1 s2 J I m → filled s1 s2 J (S I) (fill_cell s1 s2 J m I).
Proof.
  intros HJ HI [Hwf Hm]. split; [by apply mset_wf|].
  intros j i Hj Hi Hdone. unfold fill_cell.
  destruct (decide (j = J ∧ i = I)) as [[-> ->]|Hne].
  - rewrite mget_mset_eq by (done || lia).
    rewrite (cell_S I J) by lia.
    rewrite (Hm J (I - 1)), (Hm (J - 1) I), (Hm (J - 1) (I - 1));
      unfold done_before; (done || lia).
  - rewrite mget_mset_ne by lia. apply Hm; [done|done|].
    unfold done_before in *. lia.
Qed.

Lemma fill_row_filled J m :
  1 ≤ J ≤ length s2 → filled s1 s2 J 1 m → filled s1 s2 (S J) 1 (fill_row s1 s2 m J).
Proof.
  intros HJ Hm.
  assert (Hrow : filled s1 s2 J (1 + length s1) (fill_row s1 s2 m J)).
  { unfold fill_row. apply (foldl_seq_invariant (filled s1 s2 J)); [|done].
    intros I m' HI. apply fill_cell_filled; lia. }
  destruct Hrow as [Hwf Hc]. split; [done|].
  intros j i Hj Hi Hd. apply Hc; [done|done|]. unfold done_before in *. lia.
Qed.

Lemma levenshtein_matrix_filled :
  filled s1 s2 (1 + length s2) 1 (levenshtein_matrix s1 s2).
Proof.
  unfold levenshtein_matrix.
  apply (foldl_seq_invariant (fun J => filled s1 s2 J 1)).
  - intros J m HJ. apply fill_row_filled. lia.
  - apply borders_filled.
Qed.

(** The value read at [matrix[s2.length][s1.length]] is the Levenshtein
    distance of the two strings. *)
Lemma distance_levenshtein : distance s1 s2 = levenshtein s1 s2.
Proof.
  destruct levenshtein_matrix_filled as [_ Hc]. unfold distance.
  rewrite Hc; [|done|done|unfold done_before; lia].
  unfold cell. rewrite !take_ge by done. apply levenshtein_reverse.
Qed.

End Table.

(** ** Properties of the similarity scorer *)

Lemma prefixb_spec p s : Str.prefixb p s = true ↔ ∃ r, s = p ++ r.
Proof.
  revert s. induction p as [|a p IH]; intros s; simpl.
  - split; [eauto|done].
  - destruct s as [|b s]; [split; [done|by intros [? ?]]|].
    rewrite andb_true_iff, bool_decide_eq_true, IH. split.
    + intros [-> [r ->]]. eauto.
    + intros [r [= -> ->]]. eauto.
Qed.

Lemma includes_spec s p : Str.includes s p = true ↔ substring p s.
Proof.
  unfold substring. induction s as [|c s IH]; simpl; rewrite orb_true_iff, prefixb_spec.
  - split.
    + intros [[r Hr]|?]; [|done]. exists [], r. done.
    + intros (l & r & Hs). left. destruct l; [eauto|done].
  - rewrite IH. split.
    + intros [[r Hr]|(l & r & ->)]; [by exists [], r|by exists (c :: l), r].
    + intros ([|c' l] & r & Hs); [left; eauto|right].
      injection Hs as -> ->. eauto.
Qed.

Lemma Qltb_lt (x y : Q) : Qltb x y = true ↔ (x < y)%Q.
Proof.
  unfold Qltb. rewrite negb_true_iff, <- not_true_iff_false, Qle_bool_iff.
  split; [apply Qnot_le_lt|apply Qlt_not_le].
Qed.

Lemma Qnat_ratio_bounds (d m : nat) : d ≤ m → (0 <= Qnat d / Qnat m <= 1)%Q.
Proof.
  intros Hdm. unfold Qnat. destruct (decide (m = 0)) as [->|Hm].
  - replace d with 0 by lia. done.
  - assert (0 < inject_Z (Z.of_nat m))%Q as Hpos.
    { change 0%Q with (inject_Z 0). rewrite <- Zlt_Qlt. lia. }
    split.
    + apply Qle_shift_div_l; [done|]. rewrite Qmult_0_l.
      change 0%Q with (inject_Z 0). rewrite <- Zle_Qle. lia.
    + apply Qle_shift_div_r; [done|]. rewrite Qmult_1_l.
      rewrite <- Zle_Qle. lia.
Qed.

Lemma calculateSimilarity_bounds a b : (0 <= calculateSimilarity a b <= 1)%Q.
Proof.
  unfold calculateSimilarity. case_decide; [done|].
  destruct (_ || _); [done|].
  rewrite distance_levenshtein.
  pose proof (Qnat_ratio_bounds _ _ (levenshtein_le_max (normalize a) (normalize b)))
    as [H0 H1].
  set (q := (Qnat _ / Qnat _)%Q) in *. clearbody q. split.
  - rewrite <- (Qplus_opp_r q). unfold Qminus. by apply Qplus_le_l.
  - rewrite <- (Qplus_0_r 1) at 2. unfold Qminus. apply Qplus_le_r.
    change 0%Q with (- 0)%Q. by apply Qopp_le_compat.
Qed.

(** A string is as similar to itself as can be. *)
Lemma calculateSimilarity_refl s : calculateSimilarity s s = 1%Q.
Proof. unfold calculateSimilarity. by rewrite decide_True. Qed.

(** C6 (as amended): the score lies in [[0,1]]; it is [1] when the normalized
    strings coincide, [0.8] when they differ and one occurs inside the other,
    and otherwise [1 - d / m] where [d] is the Levenshtein distance of the
    normalized strings and [m] the larger of the lengths of the normalized
    strings. *)
Theorem calculateSimilarity_spec (a b : string) :
  let s1 := normalize a in
  let s2 := normalize b in
  (0 <= calculateSimilarity a b <= 1)%Q ∧
  (s1 = s2 → calculateSimilarity a b = 1%Q) ∧
  (s1 ≠ s2 → substring s1 s2 ∨ substring s2 s1 → calculateSimilarity a b = 0.8%Q) ∧
  (s1 ≠ s2 → ¬ substring s1 s2 → ¬ substring s2 s1 →
   calculateSimilarity a b =
     (1 - Qnat (levenshtein s1 s2) / Qnat (Nat.max (length s1) (length s2)))%Q).
Proof.
  intros s1 s2. split; [apply calculateSimilarity_bounds|].
  unfold calculateSimilarity. fold s1 s2. repeat split.
  - intros Heq. by rewrite decide_True.
  - intros Hne Hsub. rewrite decide_False by done.
    rewrite <- !includes_spec, <- orb_true_iff, orb_comm in Hsub. by rewrite Hsub.
  - intros Hne H12 H21. rewrite decide_False by done.
    rewrite <- includes_spec, not_true_iff_false in H12, H21.
    by rewrite H12, H21, distance_levenshtein.
Qed.

Lemma calculateSimilarity_spec_witness :
  calculateSimilarity "Kit_ten" "sitting" = (1 - Qnat 3 / Qnat 7)%Q.
Proof.
  pose proof (calculateSimilarity_spec "Kit_ten" "sitting") as (_ & _ & _ & H).
  apply H.
  - vm_compute. discriminate.
  - rewrite <- includes_spec. vm_compute. discriminate.
  - rewrite <- includes_spec. vm_compute. discriminate.
Defined.

(** C6 as written takes the larger of the lengths of the strings given; on
    ["a_b"] and ["xy"] the code divides by 2, the larger normalized length. *)
Lemma calculateSimilarity_raw_length_counterexample :
  let a := "a_b"%string in
  let b := "xy"%string in
  normalize a ≠ normalize b ∧
  ¬ substring (normalize a) (normalize b) ∧
  ¬ substring (normalize b) (normalize a) ∧
  calculateSimilarity a b = (1 - Qnat 2 / Qnat 2)%Q ∧
  ¬ (calculateSimilarity a b ==
       1 - Qnat (levenshtein (normalize a) (normalize b))
           / Qnat (Nat.max (String.length a) (String.length b)))%Q.
Proof.
  cbv zeta. rewrite <- !includes_spec. repeat split; try (vm_compute; discriminate).
Qed.

(** ** Properties of the header mapper *)

Section HeaderMapper.

Variable headers : list string.

Lemma max_score_ge header alt alternatives :
  alt ∈ alternatives →
  (calculateSimilarity header alt
     <= foldr Qmax 0 (map (calculateSimilarity header) alternatives))%Q.
Proof.
  induction 1 as [alt l|alt a l _ IH]; simpl.
  - apply Q.le_max_l.
  - eapply Qle_trans; [apply IH|apply Q.le_max_r].
Qed.

Lemma fuzzy_loop_ok used alternatives header best alts :
  header ∈ headers → header ∉ used → directMatch alternatives header = false →
  alts ⊆ alternatives →
  candidate_ok headers used alternatives best →
  candidate_ok headers used alternatives (foldl (fuzzy_step header) best alts).
Proof.
  intros Hin Hused Hdirect. revert best.
  induction alts as [|alt alts IH]; intros best Hsub Hbest; simpl; [done|].
  apply IH; [set_solver|]. unfold fuzzy_step.
  destruct (Qltb best.2 _ && Qltb 0.6 _) eqn:E; [|done].
  apply andb_true_iff in E as [_ E%Qltb_lt]. right. simpl.
  repeat split; try done. unfold header_score. rewrite Hdirect.
  apply max_score_ge. set_solver.
Qed.

Lemma header_step_ok used alternatives best header :
  header ∈ headers →
  candidate_ok headers used alternatives best →
  candidate_ok headers used alternatives (header_step used alternatives best header).
Proof.
  intros Hin Hbest. unfold header_step. case_decide; [done|].
  destruct (directMatch alternatives header) eqn:Hd.
  - right. simpl. unfold header_score. rewrite Hd. done.
  - by apply fuzzy_loop_ok.
Qed.

Lemma best_candidate_ok used alternatives :
  candidate_ok headers used alternatives (best_candidate headers used alternatives).
Proof.
  unfold best_candidate.
  assert (H : ∀ l best, l ⊆ headers → candidate_ok headers used alternatives best →
              candidate_ok headers used alternatives
                (foldl (header_step used alternatives) best l)).
  { induction l as [|h l IH]; intros best Hsub Hbest; simpl; [done|].
    apply IH; [set_solver|]. apply header_step_ok; [set_solver|done]. }
  apply H; [done|by left].
Qed.

(** A field that enters the result takes an unclaimed header whose score
    exceeds 0.6. *)
Lemma field_step_lookup st field alternatives f h :
  (field_step headers st (field, alternatives)).1 !! f = Some h →
  (st.1) !! f = Some h ∨
  (f = field ∧ h ∈ headers ∧ (h ∉ st.2) ∧ (0.6 < header_score alternatives h)%Q ∧
   (field_step headers st (field, alternatives)).2 = {[h]} ∪ st.2).
Proof.
  unfold field_step. simpl.
  pose proof (best_candidate_ok st.2 alternatives) as Hok.
  destruct (best_candidate headers st.2 alternatives) as [bm bs]. simpl.
  destruct (bool_decide (bm ≠ EmptyString) && Qltb 0.6 bs) eqn:E; [|by left].
  apply andb_true_iff in E as [Hne%bool_decide_eq_true _]. simpl.
  rewrite lookup_insert. case_decide; [|by left].
  intros [= <-]. right. destruct Hok as [[= -> _]|(? & ? & ? & ?)]; [done|].
  repeat split; try done. by eapply Qlt_le_trans.
Qed.

Lemma field_step_used st entry : st.2 ⊆ (field_step headers st entry).2.
Proof. unfold field_step. destruct (_ && _); simpl; set_solver. Qed.

Lemma field_step_absent st entry f :
  f ≠ entry.1 → (field_step headers st entry).1 !! f = st.1 !! f.
Proof.
  intros Hne. unfold field_step. destruct (_ && _); simpl; [|done].
  by rewrite lookup_insert_ne.
Qed.

Lemma mapFields_snoc mappings entry :
  mapFields headers (mappings ++ [entry]) =
    field_step headers (mapFields headers mappings) entry.
Proof. unfold mapFields. by rewrite foldl_app. Qed.

Lemma mapFields_app pre post :
  mapFields headers (pre ++ post) =
    foldl (field_step headers) (mapFields headers pre) post.
Proof. unfold mapFields. by rewrite foldl_app. Qed.

(** Headers held by the result are marked as used, and no header is held
    twice. *)
Lemma mapFields_injective mappings :
  let st := mapFields headers mappings in
  (∀ f h, st.1 !! f = Some h → h ∈ st.2) ∧
  (∀ f1 f2 h, st.1 !! f1 = Some h → st.1 !! f2 = Some h → f1 = f2).
Proof.
  induction mappings as [|[field alts] mappings IH] using rev_ind; simpl.
  - split; intros *; unfold mapFields; simpl; by rewrite lookup_empty.
  - rewrite mapFields_snoc. destruct IH as [IHu IHi].
    set (st := mapFields headers mappings) in *. split.
    + intros f h [Hold|(-> & _ & _ & _ & ->)]%field_step_lookup.
      * eapply field_step_used, IHu, Hold.
      * set_solver.
    + intros f1 f2 h [H1|(-> & _ & Hn1 & _)]%field_step_lookup
                     [H2|(-> & _ & Hn2 & _)]%field_step_lookup.
      * eauto.
      * by apply IHu in H1.
      * by apply IHu in H2.
      * done.
Qed.

Lemma mapFields_dom mappings f :
  f ∉ mappings.*1 → (mapFields headers mappings).1 !! f = None.
Proof.
  induction mappings as [|entry mappings IH] using rev_ind; intros Hf.
  - unfold mapFields. simpl. apply lookup_empty.
  - rewrite fmap_app in Hf. apply not_elem_of_app in Hf as [Hm He].
    rewrite mapFields_snoc, field_step_absent; [by apply IH|].
    intros ->. apply He. simpl. left.
Qed.

Lemma foldl_field_step_absent st post f :
  f ∉ post.*1 → (foldl (field_step headers) st post).1 !! f = st.1 !! f.
Proof.
  revert st. induction post as [|entry post IH]; intros st Hf; simpl; [done|].
  rewrite fmap_cons in Hf. apply not_elem_of_cons in Hf as [Hne Hpost].
  rewrite IH by done. by apply field_step_absent.
Qed.

(** The entry of field [f] in the final result is decided when [f] is
    processed. *)
Lemma mapFields_at pre f alts post :
  NoDup (pre ++ (f, alts) :: post).*1 →
  (mapFields headers (pre ++ (f, alts) :: post)).1 !! f =
    (field_step headers (mapFields headers pre) (f, alts)).1 !! f.
Proof.
  intros Hnd. rewrite mapFields_app. simpl.
  rewrite fmap_app, fmap_cons in Hnd. simpl in Hnd.
  apply NoDup_app in Hnd as (_ & _ & Hnd). apply NoDup_cons in Hnd as [Hf _].
  by apply foldl_field_step_absent.
Qed.

End HeaderMapper.

Lemma HEADER_MAPPINGS_NoDup dataType : NoDup (HEADER_MAPPINGS dataType).*1.
Proof. destruct dataType; compute_done. Qed.

Lemma HEADER_MAPPINGS_nonempty_alternatives dataType field alternatives :
  (field, alternatives) ∈ HEADER_MAPPINGS dataType → EmptyString ∉ alternatives.
Proof.
  assert (H : Forall (fun e => EmptyString ∉ e.2) (HEADER_MAPPINGS dataType)).
  { destruct dataType; compute_done. }
  rewrite Forall_forall in H. intros Hin. apply (H _ Hin).
Qed.

(** C4: [mapHeaders] never gives one incoming header to two canonical
    fields: distinct fields of the result hold distinct headers. *)
Theorem mapHeaders_injective (headers : list string) (dataType : DataType)
    (f1 f2 h1 h2 : string) :
  f1 ≠ f2 →
  mapHeaders headers dataType !! f1 = Some h1 →
  mapHeaders headers dataType !! f2 = Some h2 →
  h1 ≠ h2.
Proof.
  intros Hne H1 H2 ->. apply Hne.
  exact (proj2 (mapFields_injective headers (HEADER_MAPPINGS dataType)) f1 f2 h2 H1 H2).
Qed.

Lemma mapHeaders_injective_witness :
  let headers := ["id"; "name"; "ident"]%string in
  mapHeaders headers clients !! "ClientID"%string = Some "id"%string ∧
  mapHeaders headers clients !! "ClientName"%string = Some "name"%string ∧
  "id"%string ≠ "name"%string.
Proof.
  intros headers.
  assert (H1 : mapHeaders headers clients !! "ClientID"%string = Some "id"%string)
    by (vm_compute; reflexivity).
  assert (H2 : mapHeaders headers clients !! "ClientName"%string = Some "name"%string)
    by (vm_compute; reflexivity).
  split; [exact H1|]. split; [exact H2|].
  apply (mapHeaders_injective headers clients "ClientID" "ClientName"); [discriminate|done|done].
Defined.

(** C5: a canonical field is in the result only with a header that is among
    the incoming headers, is not claimed by an earlier field, and whose best
    score against the field's alternatives is strictly above 0.6; when every
    unclaimed header scores at most 0.6 the field is absent. *)
Theorem mapHeaders_threshold (headers : list string) (dataType : DataType)
    (pre post : list (string * list string)) (f : string) (alts : list string) :
  HEADER_MAPPINGS dataType = pre ++ (f, alts) :: post →
  (∀ h, mapHeaders headers dataType !! f = Some h →
        h ∈ headers ∧ (h ∉ claimed headers pre) ∧ (0.6 < header_score alts h)%Q) ∧
  ((∀ h, h ∈ headers → h ∉ claimed headers pre → (header_score alts h <= 0.6)%Q) →
   mapHeaders headers dataType !! f = None).
Proof.
  intros Htable.
  pose proof (HEADER_MAPPINGS_NoDup dataType) as Hnd. rewrite Htable in Hnd.
  unfold mapHeaders. rewrite Htable, mapFields_at by done.
  assert (Hpre : (mapFields headers pre).1 !! f = None).
  { apply mapFields_dom. rewrite fmap_app in Hnd.
    apply NoDup_app in Hnd as (_ & Hnd & _). intros Hin. apply (Hnd _ Hin).
    rewrite fmap_cons. simpl. left. }
  assert (Hstep : ∀ h, (field_step headers (mapFields headers pre) (f, alts)).1 !! f = Some h →
            h ∈ headers ∧ (h ∉ claimed headers pre) ∧ (0.6 < header_score alts h)%Q).
  { intros h [Hold|(_ & ? & ? & ? & _)]%field_step_lookup; [congruence|]. unfold claimed. auto. }
  split; [done|].
  intros Hlow. clear Hpre.
  destruct ((field_step _ _ _).1 !! f) as [h|] eqn:E; [|done].
  destruct (Hstep h eq_refl) as (Hin & Hun & Hlt).
  apply Qlt_not_le in Hlt. destruct Hlt. by apply Hlow.
Qed.

Lemma mapHeaders_threshold_witness :
  let headers := ["client_id"; "Name"; "priority"]%string in
  "Name"%string ∈ headers ∧
  ("Name"%string ∉ claimed headers (take 1 (HEADER_MAPPINGS clients))) ∧
  (0.6 < header_score ["client_name"; "clientname"; "name"; "company"; "organization"]%string
                      "Name")%Q.
Proof.
  apply (mapHeaders_threshold ["client_id"; "Name"; "priority"]%string clients
           (take 1 (HEADER_MAPPINGS clients)) (drop 2 (HEADER_MAPPINGS clients))
           "ClientName"
           ["client_name"; "clientname"; "name"; "company"; "organization"]%string).
  - reflexivity.
  - vm_compute. reflexivity.
Defined.

Example mapHeaders_clients :
  mapHeaders ["client_id"; "Name"; "priority"]%string clients =
    {[ "ClientID"%string := "client_id"%string; "ClientName"%string := "Name"%string;
       "PriorityLevel"%string := "priority"%string ]}.
Proof. vm_compute. reflexivity. Qed.

Section LastDirectMatch.

Variables (used : gset string) (alternatives : list string).

Lemma fuzzy_loop_keeps_direct header h alts :
  foldl (fuzzy_step header) (h, 1%Q) alts = (h, 1%Q).
Proof.
  induction alts as [|alt alts IH]; simpl; [done|].
  unfold fuzzy_step at 2. simpl.
  destruct (Qltb 1 (calculateSimilarity header alt)) eqn:E; [|done].
  apply Qltb_lt, Qlt_not_le in E. destruct E. apply calculateSimilarity_bounds.
Qed.

Lemma header_loop_keeps_direct h after :
  (∀ h', h' ∈ after → h' ∈ used ∨ directMatch alternatives h' = false) →
  foldl (header_step used alternatives) (h, 1%Q) after = (h, 1%Q).
Proof.
  induction after as [|h' after IH]; intros Hafter; simpl; [done|].
  assert (Hstep : header_step used alternatives (h, 1%Q) h' = (h, 1%Q)).
  { unfold header_step. case_decide; [done|].
    destruct (Hafter h') as [? | ->]; [left|done|]. apply fuzzy_loop_keeps_direct. }
  rewrite Hstep. apply IH. intros h'' Hin. apply Hafter. by right.
Qed.

Lemma best_candidate_last_direct before h after :
  h ∉ used → directMatch alternatives h = true →
  (∀ h', h' ∈ after → h' ∈ used ∨ directMatch alternatives h' = false) →
  best_candidate (before ++ h :: after) used alternatives = (h, 1%Q).
Proof.
  intros Hun Hd Hafter. unfold best_candidate. rewrite foldl_app. simpl.
  unfold header_step at 2. rewrite decide_False, Hd by done.
  by apply header_loop_keeps_direct.
Qed.

End LastDirectMatch.

(** C10 (as amended): among the headers that no earlier field has claimed,
    the last one in input order that directly matches an alternative of the
    field is the header the field receives; fuzzy scores of later headers do
    not displace it. *)
Theorem mapHeaders_last_direct_match (headers : list string) (dataType : DataType)
    (pre post : list (string * list string)) (f : string) (alts : list string)
    (before after : list string) (h : string) :
  HEADER_MAPPINGS dataType = pre ++ (f, alts) :: post →
  headers = before ++ h :: after →
  h ∉ claimed headers pre →
  directMatch alts h = true →
  (∀ h', h' ∈ after → h' ∈ claimed headers pre ∨ directMatch alts h' = false) →
  mapHeaders headers dataType !! f = Some h.
Proof.
  intros Htable -> Hun Hd Hafter.
  pose proof (HEADER_MAPPINGS_NoDup dataType) as Hnd. rewrite Htable in Hnd.
  unfold mapHeaders. rewrite Htable, mapFields_at by done.
  unfold field_step. simpl.
  rewrite (best_candidate_last_direct _ _ before h after) by done. simpl.
  assert (Hne : h ≠ EmptyString).
  { intros ->. unfold directMatch in Hd. apply bool_decide_eq_true in Hd.
    eapply (HEADER_MAPPINGS_nonempty_alternatives dataType f alts); [|exact Hd].
    rewrite Htable. apply elem_of_app. right. left. }
  rewrite bool_decide_true by done. simpl. apply lookup_insert_eq.
Qed.

Lemma mapHeaders_last_direct_match_witness :
  mapHeaders ["capacity"; "Capacity"; "cap"]%string workers !! "AvailableSlots"%string
  = Some "Capacity"%string.
Proof.
  apply (mapHeaders_last_direct_match _ workers
           (take 3 (HEADER_MAPPINGS workers)) (drop 4 (HEADER_MAPPINGS workers))
           "AvailableSlots"
           ["available_slots"; "availability"; "slots"; "capacity"; "schedule"]%string
           ["capacity"%string] ["cap"%string] "Capacity"%string).
  - reflexivity.
  - reflexivity.
  - vm_compute. discriminate.
  - vm_compute. reflexivity.
  - intros h' ->%list_elem_of_singleton. right. vm_compute. reflexivity.
Defined.

(** C10 as written: both ["capacity"] and ["Capacity"] directly match an
    alternative of [MaxLoadPerPhase], yet the field receives the first of
    them, the last one being claimed by [AvailableSlots]. *)
Lemma mapHeaders_last_direct_match_counterexample :
  let headers := ["capacity"; "Capacity"]%string in
  let alts := ["max_load_per_phase"; "max_load"; "capacity"; "workload_limit"]%string in
  ("MaxLoadPerPhase"%string, alts) ∈ HEADER_MAPPINGS workers ∧
  directMatch alts "capacity" = true ∧
  directMatch alts "Capacity" = true ∧
  mapHeaders headers workers !! "MaxLoadPerPhase"%string = Some "capacity"%string ∧
  mapHeaders headers workers !! "MaxLoadPerPhase"%string ≠ Some "Capacity"%string.
Proof.
  cbv zeta. split; [compute_done|]. repeat split; try (vm_compute; reflexivity).
  vm_compute. discriminate.
Qed.

(** ** The fuel of the JSON parser always suffices *)

Section ParserFuel.

Import Str Text JSON.

Lemma eat_length c s r : eat c s = Some r → length s = S (length r).
Proof. destruct s as [|x s]; simpl; [done|]. case_bool_decide; by intros [= ->]. Qed.

Lemma skip_ws_length s : length (skip_ws s) ≤ length s.
Proof. induction s as [|c s IH]; simpl; [done|]. destruct (is_ws c); simpl; lia. Qed.

Lemma span_length p s a b : span p s = (a, b) → length s = length a + length b.
Proof.
  revert a b. induction s as [|c s IH]; intros a b; simpl.
  - by intros [= <- <-].
  - destruct (p c); [|by intros [= <- <-]].
    destruct (span p s) as [a' b']. intros [= <- <-]. simpl. by rewrite (IH a' b').
Qed.

Lemma sign_prefix_length s : length (sign_prefix s).2 ≤ length s.
Proof.
  unfold sign_prefix.
  destruct (eat "-"%char s) eqn:E1; [apply eat_length in E1; simpl; lia|].
  destruct (eat "+"%char s) eqn:E2; [apply eat_length in E2; simpl; lia|done].
Qed.

Lemma exponent_part_length s e r : exponent_part s = Some (e, r) → length r < length s.
Proof.
  destruct s as [|c s]; simpl; [done|]. case_bool_decide; [|done].
  pose proof (sign_prefix_length s) as Hs.
  destruct (sign_prefix s) as [negative r1]. simpl in Hs.
  destruct (span is_digit r1) as [ds rest] eqn:E. apply span_length in E.
  destruct ds; [done|]. intros [= _ <-]. simpl in *. lia.
Qed.

Lemma consumes_error {A} s : consumes (A:=A) s SyntaxError.
Proof. split; [done|]. by intros. Qed.

Lemma consumes_ok {A} s (a : A) rest : length rest < length s → consumes s (Ok (a, rest)).
Proof. intros H. split; [done|]. by intros ? ? [= <- <-]. Qed.

Lemma consumes_shorter {A} s s' (r : result (A * list ascii)) :
  length s' ≤ length s → consumes s' r → consumes s r.
Proof. intros Hle [Hf Hr]. split; [done|]. intros a rest Ha. specialize (Hr a rest Ha). lia. Qed.

(** Sequencing: the continuation runs on the text left by the first step. *)
Lemma consumes_bind {A B} s (r : result (A * list ascii))
    (k : A * list ascii → result (B * list ascii)) :
  consumes s r →
  (∀ a rest, length rest < length s → consumes s (k (a, rest))) →
  consumes s (r ≫= k).
Proof.
  intros [Hf Hr] Hk. destruct r as [[a rest]| |]; simpl; [|apply consumes_error|done].
  apply Hk. by apply (Hr a).
Qed.

Lemma parse_string_consumes s : consumes s (parse_string s).
Proof.
  induction s as [s IH] using (induction_ltof1 _ (@length ascii)). unfold ltof in IH.
  destruct s as [|c r]; [apply consumes_error|]. simpl.
  case_bool_decide; [apply consumes_ok; simpl; lia|].
  case_bool_decide.
  - destruct r as [|e r1]; [apply consumes_error|].
    case_bool_decide.
    + destruct r1 as [|a [|b [|c' [|d r2]]]]; try apply consumes_error.
      destruct (hex4 a b c' d); [|apply consumes_error].
      apply consumes_bind.
      * eapply consumes_shorter; [|apply IH]; simpl; lia.
      * intros str rest Hlt. simpl. by apply consumes_ok.
    + destruct (escape e); [|apply consumes_error].
      apply consumes_bind.
      * eapply consumes_shorter; [|apply IH]; simpl; lia.
      * intros str rest Hlt. simpl. by apply consumes_ok.
  - destruct (code c <? 32); [apply consumes_error|].
    apply consumes_bind.
    + eapply consumes_shorter; [|apply IH]; simpl; lia.
    + intros str rest Hlt. simpl. by apply consumes_ok.
Qed.

Lemma parse_number_consumes s : consumes s (parse_number s).
Proof.
  unfold parse_number.
  assert (Hsign : ∃ negative s1,
            match eat "-"%char s with
            | Some r => (true, r)
            | None => (false, s)
            end = (negative, s1) ∧ length s1 ≤ length s).
  { destruct (eat "-"%char s) as [r|] eqn:E; [apply eat_length in E|]; eauto with lia. }
  destruct Hsign as (negative & s1 & -> & Hs1).
  assert (Hint : ∃ ip r1,
            match eat "0"%char s1 with
            | Some r => (["0"%char], r)
            | None => span is_digit s1
            end = (ip, r1) ∧ length s1 = length ip + length r1).
  { destruct (eat "0"%char s1) as [r|] eqn:E.
    - apply eat_length in E. exists ["0"%char], r. by rewrite E.
    - destruct (span is_digit s1) as [ip r1] eqn:E'. apply span_length in E'. eauto. }
  destruct Hint as (ip & r1 & -> & Hip).
  destruct ip as [|d ip]; [apply consumes_error|]. simpl in Hip.
  apply consumes_bind.
  - destruct (eat "."%char r1) as [r|] eqn:E.
    + apply eat_length in E. destruct (span is_digit r) as [fp r2] eqn:E'.
      apply span_length in E'. destruct fp; [apply consumes_error|].
      apply consumes_ok. simpl in *. lia.
    + apply consumes_ok. lia.
  - intros fp r2 Hr2. simpl. apply consumes_bind.
    + destruct (eat "e"%char r2) eqn:E1, (eat "E"%char r2) eqn:E2;
        try (destruct (exponent_part r2) as [[e r3]|] eqn:E;
             [apply exponent_part_length in E; apply consumes_ok; lia
             |apply consumes_error]).
      by apply consumes_ok.
    + intros e r3 Hr3. simpl. by apply consumes_ok.
Qed.

Lemma literal_consumes word v c r :
  0 < String.length word → consumes (c :: r) (literal word v (c :: r)).
Proof.
  intros Hw. unfold literal. destruct (prefixb _ _); [|apply consumes_error].
  apply consumes_ok. rewrite length_drop. simpl. lia.
Qed.

Lemma parse_fuel n :
  (∀ s, 2 * length s + 2 ≤ n → consumes s (parse_value n s)) ∧
  (∀ s, 2 * length s + 3 ≤ n → consumes s (parse_elements n s)) ∧
  (∀ s, 2 * length s + 2 ≤ n → consumes s (parse_members n s)).
Proof.
  induction n as [|n (IHv & IHe & IHm)]; [split; [|split]; intros; lia|].
  split; [|split].
  - (* values *)
    intros s Hn. simpl. pose proof (skip_ws_length s) as Hws.
    destruct (skip_ws s) as [|c r]; [apply consumes_error|]. simpl in Hws.
    apply (consumes_shorter s (c :: r)); [done|].
    case_bool_decide.
    { destruct (eat "]"%char (skip_ws r)) as [r'|] eqn:E.
      - apply eat_length in E. pose proof (skip_ws_length r).
        apply consumes_ok. simpl. lia.
      - apply consumes_bind.
        + apply (consumes_shorter _ r); [simpl; lia|]. apply IHe. lia.
        + intros vs r' Hr'. simpl. by apply consumes_ok. }
    case_bool_decide.
    { destruct (eat "}"%char (skip_ws r)) as [r'|] eqn:E.
      - apply eat_length in E. pose proof (skip_ws_length r).
        apply consumes_ok. simpl. lia.
      - apply consumes_bind.
        + apply (consumes_shorter _ r); [simpl; lia|]. apply IHm. lia.
        + intros ms r' Hr'. simpl. by apply consumes_ok. }
    case_bool_decide.
    { apply consumes_bind.
      - apply (consumes_shorter _ r); [simpl; lia|]. apply parse_string_consumes.
      - intros str r' Hr'. simpl. by apply consumes_ok. }
    destruct (_ || _).
    { apply consumes_bind; [apply parse_number_consumes|].
      intros x r' Hr'. simpl. by apply consumes_ok. }
    repeat case_bool_decide; try apply consumes_error;
      apply literal_consumes; simpl; lia.
  - (* elements *)
    intros s Hn. simpl. apply consumes_bind; [apply IHv; lia|].
    intros v r Hr. simpl. pose proof (skip_ws_length r) as Hws.
    destruct (skip_ws r) as [|c r']; [apply consumes_error|]. simpl in Hws.
    case_bool_decide.
    { apply consumes_bind.
      - apply (consumes_shorter _ r'); [lia|]. apply IHe. lia.
      - intros vs r'' Hr''. simpl. by apply consumes_ok. }
    case_bool_decide; [|apply consumes_error]. apply consumes_ok. lia.
  - (* members *)
    intros s Hn. simpl. pose proof (skip_ws_length s) as Hws.
    destruct (eat quote (skip_ws s)) as [r|] eqn:E; [|apply consumes_error].
    apply eat_length in E. apply consumes_bind.
    { apply (consumes_shorter _ r); [lia|]. apply parse_string_consumes. }
    intros key r1 Hr1. simpl. pose proof (skip_ws_length r1) as Hws1.
    destruct (eat ":"%char (skip_ws r1)) as [r2|] eqn:E2; [|apply consumes_error].
    apply eat_length in E2. apply consumes_bind.
    { apply (consumes_shorter _ r2); [lia|]. apply IHv. lia. }
    intros v r3 Hr3. simpl. pose proof (skip_ws_length r3) as Hws3.
    destruct (skip_ws r3) as [|c r4]; [apply consumes_error|]. simpl in Hws3.
    case_bool_decide.
    { apply consumes_bind.
      - apply (consumes_shorter _ r4); [lia|]. apply IHm. lia.
      - intros ms r5 Hr5. simpl. by apply consumes_ok. }
    case_bool_decide; [|apply consumes_error]. apply consumes_ok. lia.
Qed.

(** [JSON.parse] never stops for lack of fuel: [None] is a syntax error. *)
Lemma parse_text_fuel s : parse_text s ≠ OutOfFuel.
Proof.
  unfold parse_text, fuel_for.
  destruct (proj1 (parse_fuel (2 * length s + 3)) s) as [Hf _]; [lia|].
  destruct (parse_value _ s) as [[v r]| |]; simpl; [|done|done].
  by destruct (skip_ws r).
Qed.

End ParserFuel.

(** ** Properties of the value coercer *)

Section ConvertValueFacts.

Import Str Text Conv.

Lemma of_natural_whole n : whole (Num.of_natural n).
Proof.
  unfold Num.of_natural. cbv zeta. destruct (_ <=? _)%Z; [by left|].
  right. right. eauto.
Qed.

(** The Number value of an integer is a whole number or an infinity. *)
Lemma of_Z_whole z : whole (Num.of_Z z).
Proof.
  unfold Num.of_Z. destruct (z <? 0)%Z; [|apply of_natural_whole].
  destruct (of_natural_whole (- z)) as [->|[->|[m ->]]]; simpl.
  - right. by left.
  - by left.
  - right. right. by exists (- m)%Z.
Qed.

Lemma of_natural_exact n : (0 ≤ n < 2 ^ 53)%Z → Num.of_natural n = int n.
Proof.
  intros Hn. unfold Num.of_natural, Num.round_half_even.
  assert (He : Z.max 0 (Z.log2 n - 52) = 0%Z).
  { destruct (decide (n = 0%Z)) as [->|Hne]; [done|].
    assert (Z.log2 n < 53)%Z by (apply Z.log2_lt_pow2; lia). lia. }
  rewrite He. cbv zeta. change (2 ^ 0)%Z with 1%Z.
  rewrite Z.div_1_r, Z.mod_1_r. change (2 * 0 <? 1)%Z with true. cbv iota.
  rewrite Z.mul_1_r.
  assert (Hsmall : (2 ^ 53 ≤ 2 ^ 1024)%Z) by (apply Z.pow_le_mono_r; lia).
  destruct (Z.leb_spec (2 ^ 1024) n); [lia|done].
Qed.

(** Integers below [2^53] in absolute value are their own Number value. *)
Lemma of_Z_exact z : (Z.abs z < 2 ^ 53)%Z → Num.of_Z z = int z.
Proof.
  intros Hz. unfold Num.of_Z. destruct (Z.ltb_spec z 0).
  - rewrite of_natural_exact by lia. simpl. by rewrite Z.opp_involutive.
  - apply of_natural_exact. lia.
Qed.

Lemma of_Z_not_nan z : Num.is_nan (Num.of_Z z) = false.
Proof. by destruct (of_Z_whole z) as [->|[->|[m ->]]]. Qed.

Lemma integer_pieces_omap s :
  integer_pieces s =
    map (fun z => JNum (Num.of_Z z)) (omap piece_integer (split_comma s)).
Proof.
  unfold integer_pieces. induction (split_comma s) as [|piece pieces IH]; [done|].
  change (map ?f ?l) with (f <$> l) in *.
  rewrite fmap_cons, filter_cons. simpl. unfold piece_integer at 1, parseInt.
  destruct (mathInt (trim piece)) as [z|]; simpl.
  - rewrite of_Z_not_nan. simpl. f_equal. exact IH.
  - exact IH.
Qed.

(** What the pieces of a slots text are turned into. *)
Lemma integers_whole (integers : list Z) :
  Forall (fun z => whole (Num.of_Z z) ∧
                   ((Z.abs z < 2 ^ 53)%Z → Num.of_Z z = int z)) integers.
Proof. apply Forall_forall. intros z _. split; [apply of_Z_whole|apply of_Z_exact]. Qed.

Lemma convertValue_string_nonempty s fieldName :
  s ≠ EmptyString →
  convertValue (JStr s) fieldName =
    let stringValue := trim (chars s) in
    let named (word : string) := includes (chars fieldName) (chars word) in
    if named "Skills" || named "TaskIDs" || named "Phases" then
      if bracketed stringValue then
        match JSON.parse stringValue with
        | Some v => v
        | None => JArr (trimmed_pieces (slice_1_m1 stringValue))
        end
      else JArr (filter (fun v => Is_true (truthy v)) (trimmed_pieces stringValue))
    else if named "JSON" || named "Attributes" then
      match JSON.parse stringValue with
      | Some v => v
      | None => JStr (of_chars stringValue)
      end
    else if named "Level" || named "Duration" || named "Load" || named "Concurrent" then
      let num := parseFloat stringValue in
      if Num.is_nan num then JNull else JNum num
    else if named "Slots" then
      if bracketed stringValue then
        match JSON.parse stringValue with
        | Some v => v
        | None => JArr (integer_pieces (slice_1_m1 stringValue))
        end
      else JArr (integer_pieces stringValue)
    else JStr (of_chars stringValue).
Proof. intros Hs. unfold convertValue. by destruct s. Qed.

End ConvertValueFacts.

(** C2 (as amended): for a field whose name contains [Slots] and none of the
    words tested before it (such as [AvailableSlots]) and a non-empty raw
    string whose trimmed text is not a bracket-delimited text accepted by
    [JSON.parse], the text is split at commas (inside the brackets, when
    bracket-delimited), each trimmed piece is read by [parseInt], the pieces
    in which it finds no integer are dropped, and the result is the sequence
    of the Number values of the integers read: whole numbers, equal to the
    integer read below [2^53] in absolute value, or an infinity beyond the
    range of doubles. *)
Theorem convertValue_slots_integers (fieldName s : string) :
  slot_field fieldName = true →
  s ≠ EmptyString →
  let t := Text.trim (Str.chars s) in
  (Text.bracketed t = true → JSON.parse t = None) →
  let integers :=
    omap piece_integer
         (Text.split_comma (if Text.bracketed t then Text.slice_1_m1 t else t)) in
  convertValue (JStr s) fieldName = JArr (map (fun z => JNum (Num.of_Z z)) integers) ∧
  Forall (fun z => whole (Num.of_Z z) ∧
                   ((Z.abs z < 2 ^ 53)%Z → Num.of_Z z = int z)) integers.
Proof.
  intros Hfield Hs t Hjson integers. split; [|apply integers_whole].
  rewrite convertValue_string_nonempty by done.
  unfold slot_field in Hfield. cbv zeta. fold t.
  apply andb_true_iff in Hfield as [Hslots Hnot].
  rewrite !negb_orb, !andb_true_iff, !negb_true_iff in Hnot.
  destruct Hnot as ((((((((-> & ->) & ->) & ->) & ->) & ->) & ->) & ->) & ->).
  simpl. simpl in Hslots. rewrite Hslots. subst integers.
  destruct (Text.bracketed t); [rewrite Hjson by done|]; by rewrite integer_pieces_omap.
Qed.

Lemma convertValue_slots_integers_witness :
  convertValue (JStr "[1, 2, x]") "AvailableSlots" = JArr [JNum (int 1); JNum (int 2)] ∧
  convertValue (JStr "1,2,3") "AvailableSlots"
    = JArr [JNum (int 1); JNum (int 2); JNum (int 3)] ∧
  convertValue (JStr "9007199254740993") "AvailableSlots"
    = JArr [JNum (int 9007199254740992)] ∧
  convertValue (JStr ("7," +:+ digits_310)) "AvailableSlots"
    = JArr [JNum (int 7); JNum PosInf].
Proof.
  split; [|split; [|split]].
  - destruct (convertValue_slots_integers "AvailableSlots" "[1, 2, x]") as [H _].
    + vm_compute. reflexivity.
    + discriminate.
    + intros _. vm_compute. reflexivity.
    + rewrite H. vm_compute. reflexivity.
  - destruct (convertValue_slots_integers "AvailableSlots" "1,2,3") as [H _].
    + vm_compute. reflexivity.
    + discriminate.
    + vm_compute. discriminate.
    + rewrite H. vm_compute. reflexivity.
  - destruct (convertValue_slots_integers "AvailableSlots" "9007199254740993") as [H _].
    + vm_compute. reflexivity.
    + discriminate.
    + vm_compute. discriminate.
    + rewrite H. vm_compute. reflexivity.
  - destruct (convertValue_slots_integers "AvailableSlots" ("7," +:+ digits_310))
      as [H _].
    + vm_compute. reflexivity.
    + vm_compute. discriminate.
    + vm_compute. discriminate.
    + rewrite H. vm_compute. reflexivity.
Defined.

(** C2 as written: for [PreferredPhases] the pieces stay strings; a
    bracket-delimited text accepted by [JSON.parse] is returned as parsed,
    whatever its elements are; and a piece of 310 digits gives [Infinity],
    which is kept. *)
Lemma convertValue_slots_integers_counterexample :
  convertValue (JStr "1,2,3") "PreferredPhases" = JArr [JStr "1"; JStr "2"; JStr "3"] ∧
  convertValue (JStr "[1, 2, x]") "PreferredPhases" = JArr [JStr "1"; JStr "2"; JStr "x"] ∧
  convertValue (JStr "[1, 2.5, true]") "AvailableSlots"
    = JArr [JNum (int 1); JNum (Fin 25 1); JBool true] ∧
  convertValue (JStr ("7," +:+ digits_310)) "AvailableSlots"
    = JArr [JNum (int 7); JNum PosInf].
Proof. repeat split; vm_compute; reflexivity. Qed.

(** C9 (as amended): for a field whose name contains [JSON] or [Attributes]
    and none of the list words (such as [AttributesJSON]) and a non-empty raw
    string, [JSON.parse] is tried on the trimmed text; when it fails the
    result is the trimmed text, which is the raw string itself when that has
    no white space around it; nothing is raised. *)
Theorem convertValue_json_fallback (fieldName s : string) :
  json_field fieldName = true →
  s ≠ EmptyString →
  let t := Text.trim (Str.chars s) in
  JSON.parse t = None →
  convertValue (JStr s) fieldName = JStr (Str.of_chars t) ∧
  (t = Str.chars s → convertValue (JStr s) fieldName = JStr s).
Proof.
  intros Hfield Hs t Hjson.
  assert (H : convertValue (JStr s) fieldName = JStr (Str.of_chars t)).
  { rewrite convertValue_string_nonempty by done.
    unfold json_field in Hfield. cbv zeta. fold t.
    apply andb_true_iff in Hfield as [Hjs Hnot].
    rewrite !negb_orb, !andb_true_iff, !negb_true_iff in Hnot.
    destruct Hnot as ((-> & ->) & ->). simpl. simpl in Hjs. by rewrite Hjs, Hjson. }
  split; [done|]. intros Ht. rewrite H, Ht. unfold Str.of_chars, Str.chars.
  by rewrite string_of_list_ascii_of_string.
Qed.

Lemma convertValue_json_fallback_witness :
  convertValue (JStr "{bad json") "AttributesJSON" = JStr "{bad json".
Proof.
  apply (convertValue_json_fallback "AttributesJSON" "{bad json").
  - vm_compute. reflexivity.
  - discriminate.
  - vm_compute. reflexivity.
  - vm_compute. reflexivity.
Defined.

(** C9 as written: white space around the raw string is not kept. *)
Lemma convertValue_json_fallback_counterexample :
  JSON.parse (Text.trim (Str.chars " {bad json")) = None ∧
  convertValue (JStr " {bad json") "AttributesJSON" = JStr "{bad json" ∧
  convertValue (JStr " {bad json") "AttributesJSON" ≠ JStr " {bad json".
Proof. repeat split; try (vm_compute; reflexivity). vm_compute. discriminate. Qed.

(** ** Properties of the validation engine *)

Section Accumulators.

Import DataValidator.

Lemma appends_skip : appends (fun st => st).
Proof. intros st. simpl. by rewrite !app_nil_r. Qed.

Lemma appends_addError entity row column message value suggestion :
  appends (addError entity row column message value suggestion).
Proof. intros st. simpl. by rewrite app_nil_r. Qed.

Lemma appends_addWarning entity row column message value suggestion :
  appends (addWarning entity row column message value suggestion).
Proof. intros st. simpl. by rewrite app_nil_r. Qed.

Lemma appends_when c f : appends f → appends (when c f).
Proof. destruct c; [done|]. intros _. apply appends_skip. Qed.

Lemma appends_if (c : bool) f g : appends f → appends g → appends (if c then f else g).
Proof. by destruct c. Qed.

Lemma appends_and_then f g : appends f → appends g → appends (f >> g).
Proof.
  intros Hf Hg st. unfold and_then.
  destruct (Hg (f st)) as [-> ->], (Hg (f fresh)) as [-> ->], (Hf st) as [-> ->].
  by rewrite !app_assoc.
Qed.

Lemma errors_and_then f g :
  appends g → errors ((f >> g) fresh) = errors (f fresh) ++ errors (g fresh).
Proof. intros Hg. unfold and_then. by destruct (Hg (f fresh)) as [-> _]. Qed.

Lemma errors_when_addError c entity row column message value suggestion :
  errors (when c (addError entity row column message value suggestion) fresh) =
    only_if c (mkError entity row column (Str.of_chars message) value suggestion).
Proof. by destruct c. Qed.

Lemma errors_when_addWarning c entity row column message value suggestion :
  errors (when c (addWarning entity row column message value suggestion) fresh) = [].
Proof. by destruct c. Qed.

Lemma errors_when_when c1 c2 f :
  errors (when c1 (when c2 f) fresh) = errors (when (c1 && c2) f fresh).
Proof. by destruct c1, c2. Qed.

(** A check that reports an error on one branch and at most a warning on
    the other. *)
Lemma errors_when_if_addError c1 c2 c3 entity row column message value suggestion
    entity' row' column' message' value' suggestion' :
  errors (when c1 (if c2 : bool
                   then addError entity row column message value suggestion
                   else when c3 (addWarning entity' row' column' message' value'
                                   suggestion')) fresh) =
    only_if (c1 && c2) (mkError entity row column (Str.of_chars message) value suggestion).
Proof. by destruct c1, c2, c3. Qed.

End Accumulators.

(** Decomposes a composed step along its syntax. *)
Ltac appends_steps :=
  repeat lazymatch goal with
    | |- appends (DataValidator.and_then _ _) => apply appends_and_then
    | |- appends (DataValidator.when _ _) => apply appends_when
    | |- appends (DataValidator.addError _ _ _ _ _ _) => apply appends_addError
    | |- appends (DataValidator.addWarning _ _ _ _ _ _) => apply appends_addWarning
    | |- appends (if _ then _ else _) => apply appends_if
    | |- appends (fun st => st) => apply appends_skip
    end.

Section ClientChecks.

Import Conv Js DataValidator.

Lemma clientChecks_appends ids index client : appends (clientChecks ids index client).
Proof. unfold clientChecks. cbv zeta. appends_steps. Qed.

(** The errors reported for one client, in the order of the checks. *)
Lemma clientChecks_errors ids index client :
  errors (clientChecks ids index client fresh) = clientErrors ids index client.
Proof.
  unfold clientChecks, clientErrors. cbv zeta.
  repeat (rewrite errors_and_then by appends_steps).
  rewrite errors_when_if_addError, !errors_when_addError, !errors_when_addWarning.
  rewrite !app_nil_r, <- !app_assoc. reflexivity.
Qed.

End ClientChecks.

Section ClientLoop.

Import Conv Js DataValidator.

Lemma seen_ids_cons field r rows :
  seen_ids field (r :: rows) = seen_ids field [r] ++ seen_ids field rows.
Proof. unfold seen_ids. by rewrite <- filter_app. Qed.

Lemma validateClient_ids ids st n r :
  (validateClient (ids, st) (n, r)).1 = ids ++ seen_ids "ClientID" [r].
Proof.
  unfold validateClient, seen_ids, set_add. simpl. rewrite filter_cons, filter_nil.
  destruct (truthy (get r "ClientID")); simpl; by rewrite ?app_nil_r.
Qed.

Lemma validateClients_loop data ids n st :
  errors (foldl validateClient (ids, st) (imap (fun i r => (n + i, r)) data)).2 =
    errors st ++
    mjoin (imap (fun k client =>
                   clientErrors (ids ++ seen_ids "ClientID" (take k data)) (n + k) client)
                data).
Proof.
  revert ids n st. induction data as [|r rest IH]; intros ids n st.
  - simpl. by rewrite app_nil_r.
  - rewrite !imap_cons. simpl foldl.
    rewrite (surjective_pairing (validateClient _ _)), validateClient_ids.
    rewrite (imap_ext _ (fun i r => (S n + i, r))) by (intros; simpl; f_equal; lia).
    rewrite IH. unfold validateClient at 1. simpl.
    destruct (clientChecks_appends ids (n + 0) r st) as [-> _].
    rewrite clientChecks_errors, <- app_assoc. do 2 f_equal.
    + unfold seen_ids at 1. simpl. by rewrite app_nil_r.
    + f_equal. apply imap_ext. intros k x _. simpl.
      rewrite (seen_ids_cons _ r (take k rest)), !app_assoc.
      by replace (n + S k) with (S (n + k)) by lia.
Qed.

Lemma validateClients_errors data :
  errors (validateClients data fresh) = clientReports data.
Proof.
  exact (validateClients_loop data [] 0 fresh).
Qed.

Lemma clientReports_elem data index client e :
  data !! index = Some client →
  e ∈ clientErrors (seen_ids "ClientID" (take index data)) index client →
  e ∈ clientReports data.
Proof.
  intros Hrow He. unfold clientReports. apply list_elem_of_join.
  eexists. split; [exact He|].
  by apply (elem_of_lookup_imap_2
              (fun k c => clientErrors (seen_ids "ClientID" (take k data)) k c)).
Qed.

End ClientLoop.

Section CrossReferences.

Import Conv Js DataValidator.

Lemma forEach_loop (rows : list (gmap string jsval)) (body : nat → gmap string jsval → step)
    n st :
  (∀ i r, appends (body i r)) →
  let st' := foldl (fun st item => body item.1 item.2 st) st
                   (imap (fun i r => (n + i, r)) rows) in
  errors st' = errors st ++ mjoin (imap (fun i r => errors (body (n + i) r fresh)) rows) ∧
  warnings st' =
    warnings st ++ mjoin (imap (fun i r => warnings (body (n + i) r fresh)) rows).
Proof.
  intros Hbody. revert n st. induction rows as [|r rest IH]; intros n st; cbv zeta.
  - simpl. by rewrite !app_nil_r.
  - rewrite !imap_cons. simpl foldl.
    rewrite (imap_ext _ (fun i r => (S n + i, r))) by (intros; simpl; f_equal; lia).
    destruct (IH (S n) (body (n + 0) r st)) as [-> ->].
    destruct (Hbody (n + 0) r st) as [-> ->]. simpl.
    rewrite <- !app_assoc. split; do 3 f_equal; apply imap_ext; intros i x _; simpl;
      by replace (n + S i) with (S (n + i)) by lia.
Qed.

Lemma forEach_appends rows body :
  (∀ i r, appends (body i r)) → appends (forEach rows body).
Proof.
  intros Hbody st. unfold forEach.
  destruct (forEach_loop rows body 0 st Hbody) as [He Hw].
  destruct (forEach_loop rows body 0 fresh Hbody) as [He0 Hw0].
  simpl in *. by rewrite He, Hw, He0, Hw0.
Qed.

Lemma forEach_errors rows body :
  (∀ i r, appends (body i r)) →
  errors (forEach rows body fresh) = mjoin (imap (fun i r => errors (body i r fresh)) rows).
Proof. intros Hbody. exact (proj1 (forEach_loop rows body 0 fresh Hbody)). Qed.

Lemma forEach_only_warnings rows body :
  (∀ i r, appends (body i r)) →
  (∀ i r, errors (body i r fresh) = []) →
  errors (forEach rows body fresh) = [].
Proof.
  intros Hbody Hnone. rewrite forEach_errors by done.
  induction rows as [|r rest IH] using rev_ind; [done|].
  rewrite imap_app, join_app. simpl. by rewrite IH, Hnone.
Qed.

Lemma mjoin_imap_nil {A B} (f : nat → A → list B) (l : list A) :
  (∀ i x, f i x = []) → mjoin (imap f l) = [].
Proof.
  revert f. induction l as [|x l IH]; intros f Hf; [done|].
  rewrite imap_cons. simpl. rewrite Hf. apply IH. intros i y. apply Hf.
Qed.

Lemma validateCrossReferences_appends allData : appends (validateCrossReferences allData).
Proof.
  unfold validateCrossReferences. cbv zeta.
  appends_steps; apply forEach_appends; intros; appends_steps.
Qed.

(** Only the check of the task references reports errors. *)
Lemma validateCrossReferences_errors allData :
  errors (validateCrossReferences allData fresh) =
    mjoin (imap (crossErrors allData) (all_clients allData)).
Proof.
  unfold validateCrossReferences. cbv zeta.
  rewrite errors_and_then by appends_steps.
  rewrite !errors_and_then by (apply forEach_appends; intros; appends_steps).
  rewrite errors_when_addWarning, app_nil_r.
  rewrite !(forEach_only_warnings (all_tasks allData))
    by (intros; lazymatch goal with
                | |- appends _ => appends_steps
                | _ => rewrite errors_when_when; apply errors_when_addWarning
                end).
  rewrite !app_nil_r, forEach_errors by (intros; appends_steps).
  f_equal. apply imap_ext. intros i client _.
  by rewrite errors_when_when, errors_when_addError.
Qed.

Lemma validate_clients_errors data allData :
  result_errors (validate data clients allData) =
    clientReports data ++
    match allData with
    | Some all => mjoin (imap (crossErrors all) (all_clients all))
    | None => []
    end.
Proof.
  unfold validate. simpl. destruct allData as [all|].
  - rewrite errors_and_then by apply validateCrossReferences_appends.
    by rewrite validateClients_errors, validateCrossReferences_errors.
  - unfold and_then. by rewrite validateClients_errors, app_nil_r.
Qed.

End CrossReferences.

Section PriorityFix.

Import Conv Js DataValidator.

Lemma pow10_pos k : (0 < pow10 k)%Z.
Proof. unfold pow10. apply Z.pow_pos_nonneg; lia. Qed.

(** [Math.round] on a decimal agrees with rounding its rational value. *)
Lemma round_Math_round m k : Num.round (Fin m k) = int (Math_round (to_Q m k)).
Proof.
  unfold Num.round, Math_round, to_Q. f_equal.
  pose proof (pow10_pos k) as Hp.
  destruct (pow10 k) as [|p|p] eqn:E; try lia.
  assert (Heq : (inject_Z m / inject_Z (Z.pos p) + (1 # 2) == (2 * m + Z.pos p) # (2 * p))%Q).
  { unfold Qeq, Qdiv, Qmult, Qplus, Qinv, inject_Z. simpl. lia. }
  rewrite (Qfloor_comp _ _ Heq). reflexivity.
Qed.

Lemma ltb_int a b : Num.ltb (int a) (int b) = (a <? b)%Z.
Proof.
  unfold Num.ltb, int, Num.compare, pow10. simpl. rewrite !Z.mul_1_r.
  destruct (Z.ltb_spec a b) as [H|H].
  - apply bool_decide_eq_true. f_equal. by rewrite Z.compare_lt_iff.
  - apply bool_decide_eq_false. intros [= Hc]. rewrite Z.compare_lt_iff in Hc. lia.
Qed.

Lemma min_int a b : Num.min (int a) (int b) = int (Z.min a b).
Proof.
  unfold Num.min. change (Num.is_nan (int a) || Num.is_nan (int b)) with false.
  cbv iota. rewrite ltb_int. destruct (Z.ltb_spec b a); f_equal; lia.
Qed.

Lemma max_int a b : Num.max (int a) (int b) = int (Z.max a b).
Proof.
  unfold Num.max. change (Num.is_nan (int a) || Num.is_nan (int b)) with false.
  cbv iota. rewrite ltb_int. destruct (Z.ltb_spec a b); f_equal; lia.
Qed.

Lemma clamp_int r :
  Num.max (int 1) (Num.min (int 5) (int r)) = int (Z.max 1 (Z.min 5 r)).
Proof. by rewrite min_int, max_int. Qed.

(** The fix proposed for an out-of-range priority is an integer of [1..5]. *)
Lemma priority_fix n :
  outside_1_5 n = true →
  ∃ c, Num.max (int 1) (Num.min (int 5) (Num.round n)) = int c ∧ (1 ≤ c ≤ 5)%Z ∧
       ∀ m k, n = Fin m k → c = round_clamp m k.
Proof.
  intros Hout. destruct n as [m k| | |].
  - exists (round_clamp m k). rewrite round_Math_round, clamp_int.
    unfold round_clamp. split; [done|]. split; [lia|]. by intros ? ? [= <- <-].
  - done.
  - exists 5%Z. split; [done|]. split; [lia|done].
  - exists 1%Z. split; [done|]. split; [lia|done].
Qed.

End PriorityFix.

(** C3: validating a client whose [PriorityLevel] is a number outside [1,5]
    yields an error on that row and column, carrying the value, and the fix
    that [generateAutoFix] proposes for this error is the value rounded to the
    nearest integer and clamped into [1,5]. *)
Theorem priority_out_of_range_fix (data : list (gmap string jsval))
    (allData : option AllData) (index : nat) (client : gmap string jsval) (n : num) :
  data !! index = Some client →
  Js.get client "PriorityLevel" = JNum n →
  outside_1_5 n = true →
  ∃ e c,
    e ∈ result_errors (DataValidator.validate data clients allData) ∧
    type e = error ∧ row e = index ∧ column e = "PriorityLevel"%string ∧ value e = JNum n ∧
    generateAutoFix e = JNum (int c) ∧ (1 ≤ c ≤ 5)%Z ∧
    ∀ m k, n = Fin m k → c = round_clamp m k.
Proof.
  intros Hrow Hp Hout.
  destruct (priority_fix n Hout) as (c & Hfix & Hc & Hround).
  exists (mkError clients index "PriorityLevel" "PriorityLevel must be between 1 and 5"
            (JNum n) (Some "Use a value between 1 (lowest) and 5 (highest)"%string)), c.
  split; [|by rewrite <- Hfix].
  rewrite validate_clients_errors. apply elem_of_app. left.
  apply (clientReports_elem data index client); [done|].
  unfold clientErrors. cbv zeta. rewrite Hp.
  change (Js.lt (JNum n) (DataValidator.num_lit 1)
          || Js.gt (JNum n) (DataValidator.num_lit 5)) with (outside_1_5 n).
  rewrite Hout. unfold only_if at 5. cbv iota.
  rewrite !elem_of_app. do 4 right. left. apply list_elem_of_singleton. done.
Qed.

Lemma priority_out_of_range_fix_witness :
  let high_row : gmap string jsval := {[ "PriorityLevel"%string := JNum (int 7) ]} in
  let low_row : gmap string jsval := {[ "PriorityLevel"%string := JNum (int (-3)) ]} in
  (∃ e, e ∈ result_errors (DataValidator.validate [high_row; low_row] clients None) ∧
        row e = 0 ∧ value e = JNum (int 7) ∧ generateAutoFix e = JNum (int 5)) ∧
  (∃ e, e ∈ result_errors (DataValidator.validate [high_row; low_row] clients None) ∧
        row e = 1 ∧ value e = JNum (int (-3)) ∧ generateAutoFix e = JNum (int 1)).
Proof.
  intros high_row low_row. split.
  - destruct (priority_out_of_range_fix [high_row; low_row] None 0 high_row (int 7))
      as (e & c & He & _ & Hr & _ & Hv & Hfix & _ & Hc);
      [reflexivity|reflexivity|reflexivity|].
    exists e. rewrite Hfix, (Hc 7%Z 0 eq_refl). done.
  - destruct (priority_out_of_range_fix [high_row; low_row] None 1 low_row (int (-3)))
      as (e & c & He & _ & Hr & _ & Hv & Hfix & _ & Hc);
      [reflexivity|reflexivity|reflexivity|].
    exists e. rewrite Hfix, (Hc (-3)%Z 0 eq_refl). done.
Defined.

Section Rows.

Context {A B : Type}.

Lemma filter_mjoin_imap (P : B → Prop) `{!∀ x, Decision (P x)}
    (f : nat → A → list B) (l : list A) :
  filter P (mjoin (imap f l)) = mjoin (imap (fun i x => filter P (f i x)) l).
Proof.
  revert f. induction l as [|x l IH]; intros f; [done|].
  rewrite !imap_cons. simpl. by rewrite filter_app, IH.
Qed.

Lemma mjoin_imap_nil_at (f : nat → A → list B) (l : list A) :
  (∀ k x, l !! k = Some x → f k x = []) → mjoin (imap f l) = [].
Proof.
  revert f. induction l as [|x l IH]; intros f Hf; [done|].
  rewrite imap_cons. simpl. rewrite (Hf 0 x) by done. apply IH.
  intros k z Hk. by apply (Hf (S k) z).
Qed.

(** Only row [j] contributes. *)
Lemma mjoin_imap_single (f : nat → A → list B) (l : list A) j y :
  l !! j = Some y →
  (∀ k x, l !! k = Some x → k ≠ j → f k x = []) →
  mjoin (imap f l) = f j y.
Proof.
  revert f j. induction l as [|x l IH]; intros f j Hj Hf; [done|].
  rewrite imap_cons. simpl. destruct j as [|j]; simpl in Hj.
  - injection Hj as ->. rewrite mjoin_imap_nil_at; [by rewrite app_nil_r|].
    intros k z Hk. apply (Hf (S k) z); [done|lia].
  - rewrite (Hf 0 x) by done. simpl. apply (IH (f ∘ S) j Hj).
    intros k z Hk Hne. apply (Hf (S k) z); [done|lia].
Qed.

End Rows.

(** C7: in the cross-entity pass, a client row whose [RequestedTaskIDs] is an
    array with entries that name no task receives exactly one error; its value
    is the list of all unresolved entries of the row and its message lists
    them. *)
Theorem cross_reference_single_error (allData : AllData) (index : nat)
    (client : gmap string jsval) (requested : list jsval) :
  all_clients allData !! index = Some client →
  Js.get client "RequestedTaskIDs" = JArr requested →
  unresolvedTaskIds allData client ≠ [] →
  filter (fun e => row e = index)
         (DataValidator.errors
            (DataValidator.validateCrossReferences allData DataValidator.fresh)) =
    [ {| type := error; severity := high; entity := clients; row := index;
         column := "RequestedTaskIDs";
         message := Str.of_chars
                      (Str.chars "Referenced task IDs not found: "
                         ++ Conv.Array_join ", " (unresolvedTaskIds allData client));
         value := JArr (unresolvedTaskIds allData client);
         suggestion := None; autoFixAvailable := false |} ].
Proof.
  intros Hrow Hreq Hne.
  rewrite validateCrossReferences_errors, filter_mjoin_imap.
  rewrite (mjoin_imap_single _ _ index client Hrow).
  - assert (Hlen : (0 <? length (unresolvedTaskIds allData client)) = true)
      by (destruct (unresolvedTaskIds allData client); [done|reflexivity]).
    unfold crossErrors. rewrite Hreq, Hlen. unfold only_if. cbn [Conv.truthy Js.isArray andb].
    rewrite filter_cons_True by done. reflexivity.
  - intros k x _ Hk. unfold crossErrors, only_if.
    destruct (_ && _); [|done]. by rewrite filter_cons_False by (simpl; lia).
Qed.

Lemma cross_reference_single_error_witness :
  let client : gmap string jsval :=
    {[ "ClientID"%string := JStr "C1"; "RequestedTaskIDs"%string := JArr [JStr "T9"] ]} in
  let task : gmap string jsval := {[ "TaskID"%string := JStr "T1" ]} in
  let allData := {| all_clients := [client]; all_workers := []; all_tasks := [task] |} in
  filter (fun e => row e = 0)
         (DataValidator.errors
            (DataValidator.validateCrossReferences allData DataValidator.fresh)) =
    [ {| type := error; severity := high; entity := clients; row := 0;
         column := "RequestedTaskIDs";
         message := "Referenced task IDs not found: T9";
         value := JArr [JStr "T9"];
         suggestion := None; autoFixAvailable := false |} ].
Proof.
  intros client task allData.
  apply (cross_reference_single_error allData 0 client [JStr "T9"]).
  - reflexivity.
  - reflexivity.
  - vm_compute. discriminate.
Defined.

Section Duplicates.

Import Conv Js DataValidator.

Lemma chars_of_chars l : Str.chars (Str.of_chars l) = l.
Proof. apply list_ascii_of_string_of_list_ascii. Qed.

Lemma of_chars_app a b : Str.of_chars (Str.chars a ++ Str.chars b) = a +:+ b.
Proof.
  unfold Str.of_chars, Str.chars. induction a as [|c a IH]; simpl.
  - apply string_of_list_ascii_of_string.
  - by rewrite IH.
Qed.

Lemma prefixb_app p s : Str.prefixb p (p ++ s) = true.
Proof. apply prefixb_spec. eauto. Qed.

Lemma filter_only_if_False (P : ValidationError → Prop) `{!∀ x, Decision (P x)} c e :
  ¬ P e → filter P (only_if c e) = [].
Proof. intros He. destruct c; [|done]. unfold only_if. by rewrite filter_cons_False. Qed.

Lemma filter_only_if_True (P : ValidationError → Prop) `{!∀ x, Decision (P x)} c e :
  P e → filter P (only_if c e) = only_if c e.
Proof. intros He. destruct c; [|done]. unfold only_if. by rewrite filter_cons_True. Qed.

(** Among the errors of one client only the duplicate check passes the
    filter. *)
Lemma clientErrors_duplicates ids index client :
  filter is_duplicate_error (clientErrors ids index client) =
    only_if (truthy (get client "ClientID") && has ids (get client "ClientID"))
      (mkError clients index "ClientID"
         (Str.of_chars (Str.chars "Duplicate ClientID: "
                          ++ ToString (get client "ClientID")))
         (get client "ClientID")
         (Some "Consider adding a suffix or using a unique identifier"%string)).
Proof.
  unfold clientErrors. cbv zeta. rewrite !filter_app.
  rewrite (filter_only_if_True _ (_ && has _ _))
    by (unfold is_duplicate_error, mkError; cbn [message];
        rewrite chars_of_chars, prefixb_app; done).
  rewrite !filter_only_if_False by (unfold is_duplicate_error; simpl; tauto).
  by rewrite app_nil_r.
Qed.

Lemma crossErrors_duplicates allData index client :
  filter is_duplicate_error (crossErrors allData index client) = [].
Proof.
  unfold crossErrors. apply filter_only_if_False.
  unfold is_duplicate_error, unresolvedError, mkError. cbn [message].
  rewrite chars_of_chars. simpl. tauto.
Qed.

(** An identifier is in the set exactly when an earlier row carries it. *)
Lemma has_seen_ids data k v :
  has (seen_ids "ClientID" (take k data)) v = true ↔
  ∃ k' r, k' < k ∧ data !! k' = Some r ∧
          truthy (get r "ClientID") = true ∧
          SameValueZero (get r "ClientID") v = true.
Proof.
  unfold has, seen_ids. rewrite existsb_exists. split.
  - intros (x & Hx & Hsvz). apply list_elem_of_In, list_elem_of_filter in Hx as [Ht Hx].
    apply list_elem_of_fmap in Hx as (r & -> & Hr).
    apply list_elem_of_lookup in Hr as [k' Hk'].
    apply lookup_take_Some in Hk' as [Hk' Hlt].
    exists k', r. by rewrite (Is_true_true_1 _ Ht).
  - intros (k' & r & Hlt & Hr & Ht & Hsvz). exists (get r "ClientID").
    split; [|done]. apply list_elem_of_In, list_elem_of_filter.
    split; [by apply Is_true_true_2|].
    apply list_elem_of_fmap. exists r. split; [done|].
    apply list_elem_of_lookup. exists k'. by apply lookup_take_Some.
Qed.

End Duplicates.

(** C8: when the rows [i < j] of a client collection carry the same non-empty
    identifier and no other two rows share one, validation reports exactly one
    duplicate-identifier error; it is on row [j], names the identifier, and row
    [i] is not flagged; the collection keeps all its rows. *)
Theorem duplicate_client_id_once (data : list (gmap string jsval))
    (allData : option AllData) (i j : nat) (first second : gmap string jsval)
    (id : string) :
  i < j →
  data !! i = Some first →
  data !! j = Some second →
  id ≠ EmptyString →
  Js.get first "ClientID" = JStr id →
  Js.get second "ClientID" = JStr id →
  (∀ k k' r r',
     k < k' → data !! k = Some r → data !! k' = Some r' →
     Conv.truthy (Js.get r "ClientID") = true →
     Js.SameValueZero (Js.get r "ClientID") (Js.get r' "ClientID") = true →
     k = i ∧ k' = j) →
  filter is_duplicate_error (result_errors (DataValidator.validate data clients allData))
    = [duplicateError j id] ∧
  totalRows (summary (DataValidator.validate data clients allData)) = length data.
Proof.
  intros Hij Hi Hj Hid Hfirst Hsecond Hpair. split; [|done].
  rewrite validate_clients_errors, filter_app.
  assert (Hcross : filter is_duplicate_error
                     match allData with
                     | Some all => mjoin (imap (crossErrors all) (all_clients all))
                     | None => []
                     end = []).
  { destruct allData as [all|]; [|done]. rewrite filter_mjoin_imap.
    apply mjoin_imap_nil_at. intros. apply crossErrors_duplicates. }
  rewrite Hcross, app_nil_r. unfold clientReports. rewrite filter_mjoin_imap.
  rewrite (mjoin_imap_single _ _ j second Hj).
  - rewrite clientErrors_duplicates, Hsecond.
    assert (Hseen : Js.has (seen_ids "ClientID" (take j data)) (JStr id) = true).
    { apply has_seen_ids. exists i, first. rewrite Hfirst. simpl.
      rewrite bool_decide_false, bool_decide_true by done. done. }
    rewrite Hseen. simpl. rewrite bool_decide_false by done. simpl.
    unfold duplicateError. by rewrite <- of_chars_app.
  - intros k r Hk Hne. rewrite clientErrors_duplicates.
    destruct (Conv.truthy (Js.get r "ClientID")) eqn:Ht; [|done].
    destruct (Js.has _ _) eqn:Hhas; [|done].
    apply has_seen_ids in Hhas as (k' & r' & Hlt & Hr' & Ht' & Hsvz).
    destruct (Hpair k' k r' r Hlt Hr' Hk Ht' Hsvz) as [_ ->]. done.
Qed.

Lemma duplicate_client_id_once_witness :
  let a : gmap string jsval :=
    {[ "ClientID"%string := JStr "C1"; "ClientName"%string := JStr "Acme";
       "PriorityLevel"%string := JNum (int 3) ]} in
  let b : gmap string jsval :=
    {[ "ClientID"%string := JStr "C1"; "ClientName"%string := JStr "Borg";
       "PriorityLevel"%string := JNum (int 2) ]} in
  filter is_duplicate_error (result_errors (DataValidator.validate [a; b] clients None))
    = [duplicateError 1 "C1"] ∧
  totalRows (summary (DataValidator.validate [a; b] clients None)) = 2.
Proof.
  intros a b.
  apply (duplicate_client_id_once [a; b] None 0 1 a b "C1"); try reflexivity.
  - lia.
  - discriminate.
  - intros [|[|k]] [|[|k']] r r' Hlt Hr Hr' _ _; simpl in *; try lia; try done.
Defined.

(** An empty collection has confidence 100. *)
Lemma validate_empty_confidence dataType allData :
  confidence (DataValidator.validate [] dataType allData) = 100%Z.
Proof. reflexivity. Qed.

(** C1 on the code: [validate] subtracts the number of errors, not the number
    of rows that have one.  In a collection of ten clients, three of which
    have two errors each, seven rows are free of errors and the specified
    confidence is 70, but [validate] counts four valid rows and returns 40;
    one row with three errors gives -200. *)
Theorem validate_confidence_counts_errors :
  let res := DataValidator.validate ten_clients clients None in
  length ten_clients = 10 ∧
  rows_without_errors 10 (result_errors res) = 7 ∧
  specified_confidence 10 (result_errors res) = 70%Z ∧
  totalErrors (summary res) = 6 ∧
  validRows (summary res) = 4%Z ∧
  confidence res = 40%Z ∧
  confidence (DataValidator.validate [∅] clients None) = (-200)%Z.
Proof. repeat split; vm_compute; reflexivity. Qed.

(** ** Rounded percentages *)

Section Percentages.

(** [Math.round(v / N * 100)] in integer arithmetic. *)
Lemma Math_round_ratio (v : Z) (N : nat) :
  0 < N →
  Math_round (inject_Z v / Qnat N * 100) = ((200 * v + Z.of_nat N) / (2 * Z.of_nat N))%Z.
Proof.
  intros HN. unfold Math_round.
  destruct (Z.of_nat N) as [|p|p] eqn:E; try lia.
  assert (Heq : (inject_Z v / Qnat N * 100 + (1 # 2) == (200 * v + Z.pos p) # (2 * p))%Q).
  { unfold Qnat, Qeq, Qdiv, Qmult, Qplus, Qinv, inject_Z. rewrite E. simpl. lia. }
  rewrite (Qfloor_comp _ _ Heq). reflexivity.
Qed.

Lemma Math_round_ratio_le (v : Z) (N : nat) :
  0 < N → (v ≤ Z.of_nat N)%Z →
  (Math_round (inject_Z v / Qnat N * 100) ≤ 100)%Z ∧
  (v = Z.of_nat N → Math_round (inject_Z v / Qnat N * 100) = 100%Z).
Proof.
  intros HN Hv. rewrite Math_round_ratio by done.
  assert (Hp : (0 < 2 * Z.of_nat N)%Z) by lia.
  pose proof (Z.mul_div_le (200 * v + Z.of_nat N) _ Hp) as Hlow.
  pose proof (Z.mul_succ_div_gt (200 * v + Z.of_nat N) _ Hp) as Hhigh.
  split; [nia|]. intros ->. nia.
Qed.

(** The share [n / N] as a rounded percentage. *)
Lemma Math_round_percent (n N : nat) :
  0 < N < 200 → n ≤ N →
  (0 ≤ Math_round (Qnat n / Qnat N * 100) ≤ 100)%Z ∧
  (Math_round (Qnat n / Qnat N * 100) = 100%Z ↔ n = N).
Proof.
  intros HN Hn. change (Qnat n) with (inject_Z (Z.of_nat n)).
  rewrite Math_round_ratio by lia.
  assert (Hp : (0 < 2 * Z.of_nat N)%Z) by lia.
  split; [split|split].
  - apply Z.div_pos; lia.
  - apply Z.lt_succ_r, Z.div_lt_upper_bound; lia.
  - intros Hq. pose proof (Z.mul_div_le (200 * Z.of_nat n + Z.of_nat N) _ Hp) as Hlow.
    rewrite Hq in Hlow. lia.
  - intros ->. symmetry. apply (Z.div_unique _ _ _ (Z.of_nat N)); lia.
Qed.

End Percentages.

(** ** The distance computed by the table is a metric *)

Section EditScripts.

Lemma edit_refl s : edit s s 0.
Proof. induction s; eauto using edit. Qed.

Lemma edit_sym s t n : edit s t n → edit t s n.
Proof. induction 1; eauto using edit. Qed.

Lemma edit_zero s t : edit s t 0 → s = t.
Proof.
  intros H. remember 0 as n eqn:Hn. induction H; try done.
  f_equal. auto.
Qed.

(** A script changes the length by at most its cost. *)
Lemma edit_length s t n : edit s t n → length s ≤ length t + n ∧ length t ≤ length s + n.
Proof. induction 1; simpl; lia. Qed.

(** Scripts compose: the costs add up at most. *)
Lemma edit_trans s t n :
  edit s t n → ∀ u m, edit t u m → ∃ k, k ≤ n + m ∧ edit s u k.
Proof.
  induction 1 as [|a s t n _ IH|b s t n _ IH|a s t n _ IH|a b s t n _ IH]; intros u m Hu.
  - exists m. split; [lia|done].
  - destruct (IH u m Hu) as (k & Hk & He). exists (S k). split; [lia|by constructor].
  - remember (b :: t) as bt eqn:Hbt. revert Hbt.
    induction Hu as [|x t' u m Hu _|y t' u m Hu IHu|x t' u m Hu _|x y t' u m Hu _];
      intros Hbt; try done.
    + injection Hbt as -> ->. destruct (IH u m Hu) as (k & Hk & He).
      exists k. split; [lia|done].
    + destruct (IHu Hbt) as (k & Hk & He). exists (S k). split; [lia|by constructor].
    + injection Hbt as -> ->. destruct (IH u m Hu) as (k & Hk & He).
      exists (S k). split; [lia|by constructor].
    + injection Hbt as -> ->. destruct (IH u m Hu) as (k & Hk & He).
      exists (S k). split; [lia|by constructor].
  - remember (a :: t) as at_ eqn:Hat. revert Hat.
    induction Hu as [|x t' u m Hu _|y t' u m Hu IHu|x t' u m Hu _|x y t' u m Hu _];
      intros Hat; try done.
    + injection Hat as -> ->. destruct (IH u m Hu) as (k & Hk & He).
      exists (S k). split; [lia|by constructor].
    + destruct (IHu Hat) as (k & Hk & He). exists (S k). split; [lia|by constructor].
    + injection Hat as -> ->. destruct (IH u m Hu) as (k & Hk & He).
      exists k. split; [lia|by constructor].
    + injection Hat as -> ->. destruct (IH u m Hu) as (k & Hk & He).
      exists (S k). split; [lia|by constructor].
  - remember (b :: t) as bt eqn:Hbt. revert Hbt.
    induction Hu as [|x t' u m Hu _|y t' u m Hu IHu|x t' u m Hu _|x y t' u m Hu _];
      intros Hbt; try done.
    + injection Hbt as -> ->. destruct (IH u m Hu) as (k & Hk & He).
      exists (S k). split; [lia|by constructor].
    + destruct (IHu Hbt) as (k & Hk & He). exists (S k). split; [lia|by constructor].
    + injection Hbt as -> ->. destruct (IH u m Hu) as (k & Hk & He).
      exists (S k). split; [lia|by apply edit_sub].
    + injection Hbt as -> ->. destruct (IH u m Hu) as (k & Hk & He).
      exists (S k). split; [lia|by apply edit_sub].
Qed.

End EditScripts.

Section DistanceFacts.

Lemma distance_zero_iff s t : distance s t = 0 ↔ s = t.
Proof.
  rewrite distance_levenshtein. split.
  - intros H. apply edit_zero. rewrite <- H. apply levenshtein_edit.
  - intros ->. apply Nat.le_0_r, levenshtein_least, edit_refl.
Qed.

Lemma distance_sym s t : distance s t = distance t s.
Proof.
  rewrite !distance_levenshtein.
  apply Nat.le_antisymm; apply levenshtein_least, edit_sym, levenshtein_edit.
Qed.

Lemma distance_triangle s t u : distance s u ≤ distance s t + distance t u.
Proof.
  rewrite !distance_levenshtein.
  destruct (edit_trans s t _ (levenshtein_edit s t) u _ (levenshtein_edit t u))
    as (k & Hk & He).
  apply levenshtein_least in He. lia.
Qed.

Lemma distance_le_max s t : distance s t ≤ Nat.max (length s) (length t).
Proof. rewrite distance_levenshtein. apply levenshtein_le_max. Qed.

Lemma distance_ge_length_gap s t :
  Nat.max (length s) (length t) - Nat.min (length s) (length t) ≤ distance s t.
Proof.
  rewrite distance_levenshtein.
  pose proof (edit_length s t _ (levenshtein_edit s t)). lia.
Qed.

End DistanceFacts.

(** X1: the number read from the table is zero exactly for equal strings,
    does not depend on the order of the two strings, and obeys the triangle
    inequality. *)
Theorem distance_metric (s t u : list ascii) :
  (distance s t = 0 ↔ s = t) ∧
  distance s t = distance t s ∧
  distance s u ≤ distance s t + distance t u.
Proof.
  split; [apply distance_zero_iff|]. split; [apply distance_sym|apply distance_triangle].
Qed.

(** X2: the distance lies between the difference of the two lengths and the
    larger of them. *)
Theorem distance_bounds (s t : list ascii) :
  Nat.max (length s) (length t) - Nat.min (length s) (length t) ≤ distance s t ∧
  distance s t ≤ Nat.max (length s) (length t).
Proof. split; [apply distance_ge_length_gap|apply distance_le_max]. Qed.

(** ** Further properties of the similarity scorer *)

(** X3: the score does not depend on the order of its arguments. *)
Theorem calculateSimilarity_sym (a b : string) :
  calculateSimilarity a b = calculateSimilarity b a.
Proof.
  unfold calculateSimilarity.
  destruct (decide (normalize a = normalize b)) as [Heq|Hne].
  - by rewrite decide_True.
  - rewrite (decide_False (P := normalize b = normalize a)) by congruence.
    rewrite (orb_comm (Str.includes (normalize b) (normalize a))).
    destruct (_ || _); [done|].
    by rewrite (distance_sym (normalize a) (normalize b)), Nat.max_comm.
Qed.

Lemma Qnat_ratio_pos (d m : nat) : 0 < d → d ≤ m → (0 < Qnat d / Qnat m)%Q.
Proof.
  intros Hd Hm. unfold Qnat. apply Qlt_shift_div_l.
  - change 0%Q with (inject_Z 0). rewrite <- Zlt_Qlt. lia.
  - rewrite Qmult_0_l. change 0%Q with (inject_Z 0). rewrite <- Zlt_Qlt. lia.
Qed.

(** X4: the score is 1 exactly when the two strings have the same normal
    form; a pair that differs after normalization scores strictly less, so a
    fuzzy candidate never ties with an exact one. *)
Theorem calculateSimilarity_one_iff (a b : string) :
  (calculateSimilarity a b == 1)%Q ↔ normalize a = normalize b.
Proof.
  split; [|intros H; unfold calculateSimilarity; by rewrite decide_True].
  unfold calculateSimilarity. case_decide as Hne; [done|].
  destruct (_ || _); [intros H; by apply Qeq_bool_iff in H|].
  intros H. exfalso.
  assert (Hpos : 0 < distance (normalize a) (normalize b)).
  { destruct (distance _ _) eqn:E; [|lia].
    by apply distance_zero_iff in E. }
  pose proof (Qnat_ratio_pos _ _ Hpos
                (distance_le_max (normalize a) (normalize b))) as Hq.
  set (q := (Qnat _ / Qnat _)%Q) in *. clearbody q.
  assert (- q == 0)%Q as Hneg.
  { apply (Qplus_inj_l _ _ 1). by rewrite Qplus_0_r. }
  assert (q == 0)%Q as Hq0.
  { rewrite <- (Qopp_involutive q), Hneg. reflexivity. }
  rewrite Hq0 in Hq. by apply Qlt_irrefl in Hq.
Qed.

(** ** Further properties of the header mapper *)

Section MapperRange.

Variable headers : list string.

Lemma field_step_value st entry f h :
  (field_step headers st entry).1 !! f = Some h →
  (st.1) !! f = Some h ∨ (h ∈ headers ∧ h ≠ EmptyString).
Proof.
  unfold field_step.
  pose proof (best_candidate_ok headers st.2 entry.2) as Hok.
  destruct (best_candidate headers st.2 entry.2) as [bm bs]. simpl.
  destruct (bool_decide (bm ≠ EmptyString) && Qltb 0.6 bs) eqn:E; [|by left].
  apply andb_true_iff in E as [Hne%bool_decide_eq_true _]. simpl.
  rewrite lookup_insert. case_decide; [|by left].
  intros [= <-]. right. destruct Hok as [[= -> _]|(? & _)]; [done|]. done.
Qed.

Lemma mapFields_values mappings f h :
  (mapFields headers mappings).1 !! f = Some h → h ∈ headers ∧ h ≠ EmptyString.
Proof.
  induction mappings as [|entry mappings IH] using rev_ind.
  - unfold mapFields. simpl. by rewrite lookup_empty.
  - rewrite mapFields_snoc. intros [Hold|Hnew]%field_step_value; auto.
Qed.

Lemma mapFields_keys mappings f h :
  (mapFields headers mappings).1 !! f = Some h → f ∈ mappings.*1.
Proof.
  intros Hf. destruct (decide (f ∈ mappings.*1)) as [|Hnot]; [done|].
  by rewrite (mapFields_dom headers mappings f Hnot) in Hf.
Qed.

End MapperRange.

(** X5: every entry of the mapping pairs a canonical field of the entity's
    table with one of the incoming headers, and that header is not the empty
    string. *)
Theorem mapHeaders_range (headers : list string) (dataType : DataType) (f h : string) :
  mapHeaders headers dataType !! f = Some h →
  f ∈ (HEADER_MAPPINGS dataType).*1 ∧ h ∈ headers ∧ h ≠ EmptyString.
Proof.
  intros Hf. split; [by eapply mapFields_keys|by eapply mapFields_values].
Qed.

Lemma mapHeaders_range_witness :
  "ClientName"%string ∈ (HEADER_MAPPINGS clients).*1 ∧
  "Name"%string ∈ ["client_id"; "Name"; "priority"]%string ∧
  "Name"%string ≠ EmptyString.
Proof.
  apply (mapHeaders_range ["client_id"; "Name"; "priority"]%string clients).
  vm_compute. reflexivity.
Defined.

Section LastSatisfying.

Context {A : Type} (P : A → bool).

(** The last element satisfying [P], when there is one. *)
Lemma last_satisfying (l : list A) x :
  x ∈ l → P x = true →
  ∃ before y after, l = before ++ y :: after ∧ P y = true ∧ ∀ z, z ∈ after → P z = false.
Proof.
  induction l as [|z l IH] using rev_ind; intros Hin Hx; [by apply elem_of_nil in Hin|].
  destruct (P z) eqn:Hz.
  - exists l, z, []. split; [done|]. split; [done|]. intros ? H. by apply elem_of_nil in H.
  - apply elem_of_app in Hin as [Hin|Hin%list_elem_of_singleton]; [|congruence].
    destruct (IH Hin Hx) as (before & y & after & -> & Hy & Hafter).
    exists before, y, (after ++ [z]). rewrite <- app_assoc. split; [done|]. split; [done|].
    intros w [Hw|Hw%list_elem_of_singleton]%elem_of_app; [auto|by subst].
Qed.

End LastSatisfying.

(** X6: when some incoming header that no earlier field has claimed directly
    matches an alternative of a field, the field is mapped, and the header it
    receives is itself an unclaimed direct match: a fuzzy candidate never
    takes the place of an available exact one. *)
Theorem mapHeaders_direct_wins (headers : list string) (dataType : DataType)
    (pre post : list (string * list string)) (f : string) (alts : list string)
    (h : string) :
  HEADER_MAPPINGS dataType = pre ++ (f, alts) :: post →
  h ∈ headers →
  h ∉ claimed headers pre →
  directMatch alts h = true →
  ∃ h', mapHeaders headers dataType !! f = Some h' ∧
        h' ∈ headers ∧ (h' ∉ claimed headers pre) ∧ directMatch alts h' = true.
Proof.
  intros Htable Hin Hun Hd.
  destruct (last_satisfying
              (fun x => bool_decide (x ∉ claimed headers pre) && directMatch alts x)
              headers h Hin) as (before & h' & after & -> & Hh' & Hafter).
  { by rewrite bool_decide_true. }
  apply andb_true_iff in Hh' as [Hun'%bool_decide_eq_true Hd'].
  exists h'. split; [|split; [|done]].
  - pose proof (HEADER_MAPPINGS_NoDup dataType) as Hnd. rewrite Htable in Hnd.
    unfold mapHeaders. rewrite Htable, mapFields_at by done.
    unfold field_step. simpl.
    rewrite (best_candidate_last_direct _ _ before h' after); [|done|done|].
    + simpl. assert (Hne : h' ≠ EmptyString).
      { intros ->. unfold directMatch in Hd'. apply bool_decide_eq_true in Hd'.
        eapply (HEADER_MAPPINGS_nonempty_alternatives dataType f alts); [|exact Hd'].
        rewrite Htable. apply elem_of_app. right. left. }
      rewrite bool_decide_true by done. simpl. apply lookup_insert_eq.
    + intros z Hz. specialize (Hafter z Hz). apply andb_false_iff in Hafter as [H|H].
      * left. apply bool_decide_eq_false in H. by apply dec_stable.
      * by right.
  - apply elem_of_app. right. left.
Qed.

Lemma mapHeaders_direct_wins_witness :
  ∃ h', mapHeaders ["nam"; "Name"; "names"]%string clients !! "ClientName"%string = Some h' ∧
        h' ∈ ["nam"; "Name"; "names"]%string ∧
        (h' ∉ claimed ["nam"; "Name"; "names"]%string (take 1 (HEADER_MAPPINGS clients))) ∧
        directMatch ["client_name"; "clientname"; "name"; "company"; "organization"]%string h'
          = true.
Proof.
  apply (mapHeaders_direct_wins ["nam"; "Name"; "names"]%string clients
           (take 1 (HEADER_MAPPINGS clients)) (drop 2 (HEADER_MAPPINGS clients))
           "ClientName" _ "Name"%string).
  - reflexivity.
  - apply elem_of_cons. right. left.
  - vm_compute. discriminate.
  - vm_compute. reflexivity.
Defined.

Lemma mapHeaders_fields (headers : list string) (dataType : DataType) :
  dom (mapHeaders headers dataType) ⊆
    list_to_set (C := gset string) (HEADER_MAPPINGS dataType).*1 ∧
  size (list_to_set (C := gset string) (HEADER_MAPPINGS dataType).*1) =
    length (HEADER_MAPPINGS dataType).
Proof.
  split.
  - intros f [h Hf]%elem_of_dom. apply elem_of_list_to_set. by eapply mapFields_keys.
  - rewrite size_list_to_set by apply HEADER_MAPPINGS_NoDup. by rewrite length_fmap.
Qed.

(** X7: the mapping never has more entries than the entity has canonical
    fields. *)
Theorem mapHeaders_size (headers : list string) (dataType : DataType) :
  size (mapHeaders headers dataType) ≤ length (HEADER_MAPPINGS dataType).
Proof.
  destruct (mapHeaders_fields headers dataType) as [Hsub <-].
  rewrite <- size_dom. by apply subseteq_size.
Qed.

(** ** The header of a field has the best score *)

Section BestScore.

Variables (used : gset string) (alternatives : list string).

Lemma Qltb_ge x y : Qltb x y = false → (y <= x)%Q.
Proof. unfold Qltb. intros H%negb_false_iff. by apply Qle_bool_iff. Qed.

Lemma scores_le header (bound : Q) alts :
  (0 <= bound)%Q →
  (∀ alt, alt ∈ alts → (calculateSimilarity header alt <= bound)%Q) →
  (foldr Qmax 0 (map (calculateSimilarity header) alts) <= bound)%Q.
Proof.
  intros H0 Hall. induction alts as [|alt alts IH]; simpl; [done|].
  apply Q.max_lub.
  - apply Hall. left.
  - apply IH. intros a Ha. apply Hall. by right.
Qed.

Lemma header_score_le_1 header : (header_score alternatives header <= 1)%Q.
Proof.
  unfold header_score. destruct (directMatch _ _); [done|].
  apply scores_le; [done|]. intros alt _. apply calculateSimilarity_bounds.
Qed.

Lemma fuzzy_step_mono header best alt : (best.2 <= (fuzzy_step header best alt).2)%Q.
Proof.
  unfold fuzzy_step. destruct (Qltb best.2 _ && _) eqn:E; [|apply Qle_refl].
  apply andb_true_iff in E as [E%Qltb_lt _]. simpl. by apply Qlt_le_weak.
Qed.

Lemma fuzzy_loop_mono header alts best :
  (best.2 <= (foldl (fuzzy_step header) best alts).2)%Q.
Proof.
  revert best. induction alts as [|alt alts IH]; intros best; simpl; [apply Qle_refl|].
  eapply Qle_trans; [apply fuzzy_step_mono|apply IH].
Qed.

Lemma fuzzy_loop_covers header alts best alt :
  alt ∈ alts →
  (calculateSimilarity header alt <= Qmax 0.6 (foldl (fuzzy_step header) best alts).2)%Q.
Proof.
  revert best. induction alts as [|a alts IH]; intros best Hin; [by apply elem_of_nil in Hin|].
  apply elem_of_cons in Hin as [->|Hin]; [|by apply IH]. simpl.
  eapply Qle_trans; [|apply Q.max_le_compat_l, fuzzy_loop_mono].
  unfold fuzzy_step. destruct (Qltb best.2 _) eqn:E1; simpl.
  - destruct (Qltb 0.6 _) eqn:E2; simpl.
    + apply Q.le_max_r.
    + eapply Qle_trans; [by apply Qltb_ge|apply Q.le_max_l].
  - eapply Qle_trans; [by apply Qltb_ge|apply Q.le_max_r].
Qed.

Lemma header_step_mono best header :
  (best.2 <= 1)%Q → (best.2 <= (header_step used alternatives best header).2)%Q.
Proof.
  intros H1. unfold header_step. case_decide; [apply Qle_refl|].
  destruct (directMatch _ _); [done|]. apply fuzzy_loop_mono.
Qed.

Lemma header_step_le_1 best header :
  (best.2 <= 1)%Q → ((header_step used alternatives best header).2 <= 1)%Q.
Proof.
  intros H1. unfold header_step. case_decide; [done|].
  destruct (directMatch _ _); [done|].
  generalize alternatives. intros alts. revert best H1.
  induction alts as [|alt alts IH]; intros best H1; simpl; [done|].
  apply IH. unfold fuzzy_step. destruct (_ && _); [|done].
  apply calculateSimilarity_bounds.
Qed.

Lemma header_step_dominated best header processed :
  (best.2 <= 1)%Q →
  dominated used alternatives best.2 processed →
  dominated used alternatives (header_step used alternatives best header).2
            (processed ++ [header]).
Proof.
  intros H1 Hdom h [Hin| ->%list_elem_of_singleton]%elem_of_app Hun.
  - destruct (Hdom h Hin Hun) as [H|H]; [by left|right].
    eapply Qle_trans; [exact H|by apply header_step_mono].
  - unfold header_step. rewrite decide_False by done.
    unfold header_score. destruct (directMatch alternatives header); [by right|].
    set (best' := foldl (fuzzy_step header) best alternatives).
    assert (Hle : (foldr Qmax 0 (map (calculateSimilarity header) alternatives)
                   <= Qmax 0.6 best'.2)%Q).
    { apply scores_le; [by eapply Qle_trans; [|apply Q.le_max_l]|].
      intros alt Halt. by apply fuzzy_loop_covers. }
    destruct (Q.max_spec 0.6 best'.2) as [[_ Hmax]|[_ Hmax]];
      rewrite Hmax in Hle; [by right|by left].
Qed.

Lemma best_candidate_dominated headers :
  dominated used alternatives (best_candidate headers used alternatives).2 headers.
Proof.
  unfold best_candidate.
  assert (H : ∀ l best processed,
            (best.2 <= 1)%Q → dominated used alternatives best.2 processed →
            dominated used alternatives
              (foldl (header_step used alternatives) best l).2 (processed ++ l)).
  { induction l as [|h l IH]; intros best processed H1 Hdom; simpl.
    - by rewrite app_nil_r.
    - rewrite (cons_middle h processed l), app_assoc. apply IH.
      + by apply header_step_le_1.
      + by apply header_step_dominated. }
  apply (H headers (EmptyString, 0%Q) []); [done|].
  intros h Hin. by apply elem_of_nil in Hin.
Qed.

End BestScore.

(** X8: the header given to a field has the best score among the headers
    that the earlier fields have left unclaimed: no such header scores higher
    against the alternatives of the field. *)
Theorem mapHeaders_best_score (headers : list string) (dataType : DataType)
    (pre post : list (string * list string)) (f : string) (alts : list string)
    (c h : string) :
  HEADER_MAPPINGS dataType = pre ++ (f, alts) :: post →
  mapHeaders headers dataType !! f = Some c →
  h ∈ headers →
  h ∉ claimed headers pre →
  (header_score alts h <= header_score alts c)%Q.
Proof.
  intros Htable Hf Hin Hun.
  pose proof (HEADER_MAPPINGS_NoDup dataType) as Hnd. rewrite Htable in Hnd.
  unfold mapHeaders in Hf. rewrite Htable, mapFields_at in Hf by done.
  assert (Hnone : (mapFields headers pre).1 !! f = None).
  { apply mapFields_dom. rewrite fmap_app, fmap_cons in Hnd.
    apply NoDup_app in Hnd as (_ & Hnot & _). intros Hpre. apply (Hnot f Hpre). left. }
  unfold field_step in Hf. cbn [fst snd] in Hf.
  pose proof (best_candidate_ok headers (mapFields headers pre).2 alts) as Hok.
  pose proof (best_candidate_dominated (mapFields headers pre).2 alts headers h Hin Hun)
    as Hdom.
  destruct (best_candidate headers (mapFields headers pre).2 alts) as [bm bs].
  cbn [fst snd] in *.
  destruct (bool_decide (bm ≠ EmptyString) && Qltb 0.6 bs) eqn:E;
    [|by rewrite Hnone in Hf].
  apply andb_true_iff in E as [Hne%bool_decide_eq_true Hbs%Qltb_lt].
  cbn [fst] in Hf. rewrite lookup_insert_eq in Hf. injection Hf as <-.
  destruct Hok as [[= -> _]|(_ & _ & _ & Hscore)]; [done|]. cbn [fst snd] in Hscore.
  destruct Hdom as [Hlow|Hle].
  - eapply Qle_trans; [exact Hlow|]. eapply Qle_trans; [|exact Hscore].
    by apply Qlt_le_weak.
  - by eapply Qle_trans.
Qed.

Lemma mapHeaders_best_score_witness :
  (header_score ["client_name"; "clientname"; "name"; "company"; "organization"]%string
                "names"
   <= header_score ["client_name"; "clientname"; "name"; "company"; "organization"]%string
                   "Name")%Q.
Proof.
  apply (mapHeaders_best_score ["names"; "Name"; "nam"]%string clients
           (take 1 (HEADER_MAPPINGS clients)) (drop 2 (HEADER_MAPPINGS clients))
           "ClientName" _ "Name" "names").
  - reflexivity.
  - vm_compute. reflexivity.
  - apply elem_of_cons. by left.
  - vm_compute. discriminate.
Defined.

(** ** Further properties of the value coercer *)

Section Trim.

Import Str Text.

Lemma trimStart_headed s : headed (trimStart s).
Proof. induction s as [|c s IH]; simpl; [done|]. by destruct (is_space c) eqn:E. Qed.

Lemma trimStart_id s : headed s → trimStart s = s.
Proof. destruct s as [|c s]; simpl; [done|]. by intros ->. Qed.

Lemma trimStart_snoc s c : is_space c = false → trimStart (s ++ [c]) = trimStart s ++ [c].
Proof.
  intros Hc. induction s as [|x s IH]; simpl; [by rewrite Hc|].
  by destruct (is_space x).
Qed.

Lemma trimEnd_headed s : headed s → headed (trimEnd s).
Proof.
  destruct s as [|c s]; [done|]. simpl. intros Hc. unfold trimEnd.
  rewrite reverse_cons, trimStart_snoc, reverse_snoc by done. done.
Qed.

Lemma trimEnd_idemp s : trimEnd (trimEnd s) = trimEnd s.
Proof.
  unfold trimEnd. rewrite reverse_involutive.
  by rewrite (trimStart_id (trimStart _)) by apply trimStart_headed.
Qed.

Lemma trim_idemp s : trim (trim s) = trim s.
Proof.
  unfold trim.
  rewrite (trimStart_id (trimEnd _)) by apply trimEnd_headed, trimStart_headed.
  apply trimEnd_idemp.
Qed.

Lemma trimStart_elem x s : x ∈ trimStart s → x ∈ s.
Proof.
  induction s as [|c s IH]; simpl; [done|].
  destruct (is_space c); [|done]. intros H. right. auto.
Qed.

Lemma trim_elem x s : x ∈ trim s → x ∈ s.
Proof.
  unfold trim, trimEnd. intros H. rewrite elem_of_reverse in H.
  apply trimStart_elem in H. rewrite elem_of_reverse in H. by apply trimStart_elem.
Qed.

Lemma split_comma_no_comma s piece : piece ∈ split_comma s → ","%char ∉ piece.
Proof.
  revert piece. induction s as [|c s IH]; intros piece; simpl.
  - intros ->%list_elem_of_singleton. apply not_elem_of_nil.
  - case_bool_decide as Hc.
    + intros [->|H]%elem_of_cons; [apply not_elem_of_nil|by apply IH].
    + destruct (split_comma s) as [|p ps] eqn:E.
      * intros ->%list_elem_of_singleton. apply not_elem_of_cons.
        split; [congruence|apply not_elem_of_nil].
      * intros [->|H]%elem_of_cons.
        -- apply not_elem_of_cons. split; [congruence|]. apply IH. left.
        -- apply IH. by right.
Qed.

End Trim.

Section CoercerShapes.

Import Str Text Conv.

Lemma of_chars_nonempty l : of_chars l ≠ EmptyString → l ≠ [].
Proof. by intros H ->. Qed.

(** The pieces kept by the list rule. *)
Lemma trimmed_pieces_shape s v :
  v ∈ filter (fun v => Is_true (truthy v)) (trimmed_pieces s) →
  ∃ p, v = JStr p ∧ p ≠ EmptyString ∧ (","%char ∉ chars p) ∧ trim (chars p) = chars p.
Proof.
  intros [Ht Hv]%list_elem_of_filter. unfold trimmed_pieces in Hv.
  apply list_elem_of_fmap in Hv as (piece & -> & Hpiece).
  exists (of_chars (trim piece)). split; [done|]. split.
  - simpl in Ht. intros Hempty. rewrite Hempty in Ht. done.
  - rewrite chars_of_chars. split; [|apply trim_idemp].
    intros H%trim_elem. by apply (split_comma_no_comma s piece).
Qed.

End CoercerShapes.

(** X9: for a field under the list rule (a name containing [Skills], [TaskIDs]
    or [Phases]) and a non-empty raw string whose trimmed text is not
    bracket-delimited, the result is an array of strings, each of them
    non-empty, free of commas and without white space at either end. *)
Theorem convertValue_list_shape (fieldName s : string) :
  list_field fieldName = true →
  s ≠ EmptyString →
  Text.bracketed (Text.trim (Str.chars s)) = false →
  ∃ pieces : list string,
    convertValue (JStr s) fieldName = JArr (JStr <$> pieces) ∧
    Forall (fun p => p ≠ EmptyString ∧ (","%char ∉ Str.chars p) ∧
                     Text.trim (Str.chars p) = Str.chars p) pieces.
Proof.
  intros Hfield Hs Hb. rewrite convertValue_string_nonempty by done. cbv zeta.
  unfold list_field in Hfield. simpl in Hfield. simpl. rewrite Hfield, Hb.
  set (l := filter _ _).
  assert (Hl : ∀ v, v ∈ l →
            ∃ p, v = JStr p ∧ p ≠ EmptyString ∧ (","%char ∉ Str.chars p) ∧
                 Text.trim (Str.chars p) = Str.chars p)
    by (intros v; apply trimmed_pieces_shape).
  clearbody l. induction l as [|v l IH].
  - by exists [].
  - destruct (Hl v) as (p & -> & Hp); [left|].
    destruct IH as (ps & [= ->] & Hps); [intros; apply Hl; by right|].
    exists (p :: ps). split; [done|]. by constructor.
Qed.

Lemma convertValue_list_shape_witness :
  ∃ pieces : list string,
    convertValue (JStr " a, b ,,c ") "Skills" = JArr (JStr <$> pieces) ∧
    Forall (fun p => p ≠ EmptyString ∧ (","%char ∉ Str.chars p) ∧
                     Text.trim (Str.chars p) = Str.chars p) pieces.
Proof.
  apply (convertValue_list_shape "Skills" " a, b ,,c ");
    [vm_compute; reflexivity|discriminate|vm_compute; reflexivity].
Defined.

(** X10: for a field under the number rule (a name containing [Level],
    [Duration], [Load] or [Concurrent] and none of the words tested before)
    the result is [null] or a number that is not [NaN]: when the cell is not
    blank it is [parseFloat] of the trimmed text, and a text [parseFloat]
    cannot read becomes [null]. *)
Theorem convertValue_number (fieldName : string) (value : jsval) :
  number_field fieldName = true →
  convertValue value fieldName = JNull ∨
  ∃ n, convertValue value fieldName = JNum n ∧ Num.is_nan n = false ∧
       n = Text.parseFloat (Text.trim (Conv.ToString value)).
Proof.
  intros Hfield. unfold convertValue. destruct (_ || _); [by left|]. cbv zeta.
  unfold number_field in Hfield.
  apply andb_true_iff in Hfield as [Hnum Hnot].
  rewrite !negb_orb, !andb_true_iff, !negb_true_iff in Hnot.
  destruct Hnot as ((((-> & ->) & ->) & ->) & ->). simpl. simpl in Hnum. rewrite Hnum.
  destruct (Num.is_nan _) eqn:E; [by left|right]. eauto.
Qed.

Lemma convertValue_number_witness :
  convertValue (JStr " 4.50 ") "PriorityLevel" = JNum (Fin 45 1) ∧
  convertValue (JStr "high") "PriorityLevel" = JNull.
Proof.
  split.
  - destruct (convertValue_number "PriorityLevel" (JStr " 4.50 ")) as [H|(n & H & _ & ->)];
      [vm_compute; reflexivity|discriminate H|exact H].
  - destruct (convertValue_number "PriorityLevel" (JStr "high")) as [H|(n & H & Hn & ->)];
      [vm_compute; reflexivity|exact H|discriminate Hn].
Defined.

(** X11: a cell holding only white space is coerced by the rule of its field
    to an empty array (list and slot fields), to [null] (number fields) or to
    the empty string (JSON fields and all other fields). *)
Theorem convertValue_white_space (fieldName s : string) :
  s ≠ EmptyString →
  Text.trim (Str.chars s) = [] →
  convertValue (JStr s) fieldName =
    if list_field fieldName || slot_field fieldName then JArr []
    else if number_field fieldName then JNull
    else JStr EmptyString.
Proof.
  intros Hs Ht. rewrite convertValue_string_nonempty by done. cbv zeta. rewrite Ht.
  unfold list_field, slot_field, number_field. cbv zeta.
  repeat match goal with
         | |- context [Str.includes ?a ?b] =>
             let x := fresh "b" in set (x := Str.includes a b); clearbody x
         end.
  repeat match goal with b : bool |- _ => destruct b end; reflexivity.
Qed.

Lemma convertValue_white_space_witness :
  convertValue (JStr "  ") "Skills" = JArr [] ∧
  convertValue (JStr "  ") "Duration" = JNull ∧
  convertValue (JStr "  ") "ClientName" = JStr EmptyString.
Proof.
  split; [|split].
  - apply (convertValue_white_space "Skills" "  "); [discriminate|reflexivity].
  - apply (convertValue_white_space "Duration" "  "); [discriminate|reflexivity].
  - apply (convertValue_white_space "ClientName" "  "); [discriminate|reflexivity].
Defined.

(** ** Properties of file processing *)

Section FileName.

Import Str FileParser.

Lemma split_dot_no_dot s : ("."%char ∉ s) → split_dot s = [s].
Proof.
  induction s as [|c r IH]; [done|]. intros H.
  apply not_elem_of_cons in H as [Hc Hr]. simpl.
  rewrite bool_decide_eq_false_2 by congruence. by rewrite (IH Hr).
Qed.

Lemma split_dot_app stem ext :
  ∃ p ps, split_dot (stem ++ "."%char :: ext) = (p :: ps) ++ split_dot ext.
Proof.
  induction stem as [|c r (p & ps & IH)]; simpl.
  - exists [], []. by rewrite ?bool_decide_eq_true_2.
  - case_bool_decide.
    + exists [], (p :: ps). by rewrite IH.
    + rewrite IH. simpl. by exists (c :: p), ps.
Qed.

Lemma after_last_dot_pop name ext :
  after_last_dot name ext → last (split_dot name) = Some ext.
Proof.
  intros [Hext [->|[stem ->]]].
  - by rewrite split_dot_no_dot.
  - destruct (split_dot_app stem ext) as (p & ps & ->).
    rewrite split_dot_no_dot by done. by rewrite last_app.
Qed.

Lemma after_last_dot_exists name : ∃ ext, after_last_dot name ext.
Proof.
  induction name as [|c r (ext & Hext & [->|[stem ->]])].
  - exists []. split; [apply not_elem_of_nil | by left].
  - destruct (decide (c = "."%char)) as [->|Hc].
    + exists ext. split; [done|]. right. by exists [].
    + exists (c :: ext). split; [|by left].
      apply not_elem_of_cons. split; [congruence|done].
  - exists ext. split; [done|]. right. by exists (c :: stem).
Qed.

Lemma fileExtension_valid name :
  fileExtension name ∈ validTypes ↔
  ∃ ext, after_last_dot (chars name) ext ∧
         of_chars (toLowerCase ext) ∈ ["csv"; "xlsx"; "xls"]%string.
Proof.
  unfold fileExtension, validTypes.
  destruct (after_last_dot_exists (chars name)) as [ext Hext].
  rewrite (after_last_dot_pop _ _ Hext). simpl.
  split.
  - intros H. exists ext. split; [done|].
    rewrite !elem_of_cons, elem_of_nil in H. rewrite !elem_of_cons.
    destruct H as [H|[H|[H|[]]]]; injection H as ->; auto.
  - intros (ext' & Hext' & H).
    assert (ext' = ext) as ->.
    { apply after_last_dot_pop in Hext, Hext'. congruence. }
    rewrite !elem_of_cons, elem_of_nil in H. rewrite !elem_of_cons.
    destruct H as [->|[->|[->|[]]]]; auto.
Qed.

End FileName.

(** X12: a file is processed exactly when the text after the last dot of
    its name (the whole name when it has no dot) is csv, xlsx or xls in any
    letter case, its size is at most 10 MB and the decoder delivered at least
    one row; every other call returns the failure record. *)
Theorem processFile_accepts (name : string) (fileSize : Z)
    (decoded : option (list (list (string * jsval)))) (dataType : DataType) :
  let r := FileParser.processFile name fileSize decoded dataType in
  (success r = true ↔
     (∃ ext, after_last_dot (Str.chars name) ext ∧
             Str.of_chars (Str.toLowerCase ext) ∈ ["csv"; "xlsx"; "xls"]%string) ∧
     (fileSize ≤ 10485760)%Z ∧
     ∃ first rest, decoded = Some (first :: rest)) ∧
  (success r = false → r = FileParser.failure).
Proof.
  intros r. subst r. unfold FileParser.processFile.
  rewrite <- fileExtension_valid.
  case_bool_decide as Hext; simpl.
  - destruct (Z.ltb_spec (10 * 1024 * 1024) fileSize) as [Hsize|Hsize].
    + split; [|done]. split; [done|]. intros (_ & ? & _). lia.
    + destruct decoded as [[|first rest]|]; simpl.
      * split; [|done]. split; [done|]. by intros (_ & _ & ? & ? & ?).
      * split; [|done]. split; [|done]. intros _. repeat split; [done|lia|eauto].
      * split; [|done]. split; [done|]. by intros (_ & _ & ? & ? & ?).
  - split; [|done]. split; [done|]. by intros (? & _).
Qed.

Section CleanRow.

Import FileParser.

Variables (headerList : list string) (mapped : gmap string string)
          (row : list (string * jsval)).

Lemma converted_lookup k :
  map_fold (fun standardField originalHeader (acc : gmap string jsval) =>
              <[standardField := convertValue (field row originalHeader) standardField]> acc)
           ∅ mapped !! k =
    (fun h => convertValue (field row h) k) <$> mapped !! k.
Proof.
  apply (map_fold_weak_ind
           (fun (r : gmap string jsval) (m : gmap string string) =>
              r !! k = (fun h => convertValue (field row h) k) <$> m !! k)).
  - by rewrite !lookup_empty.
  - intros i x m r _ IH. destruct (decide (i = k)) as [->|Hne].
    + by rewrite !lookup_insert_eq.
    + by rewrite !lookup_insert_ne.
Qed.

Lemma values_elem h : h ∈ (map_to_list mapped).*2 ↔ ∃ f, mapped !! f = Some h.
Proof.
  rewrite list_elem_of_fmap. split.
  - intros ([f h'] & -> & H). exists f. by apply elem_of_map_to_list.
  - intros [f H]. exists (f, h). split; [done|]. by apply elem_of_map_to_list.
Qed.

Lemma passThrough_lookup l acc k :
  foldl (passThrough mapped row) acc l !! k =
    if bool_decide (k ∈ l ∧ k ∉ (map_to_list mapped).*2) then Some (field row k)
    else acc !! k.
Proof.
  revert acc. induction l as [|h l IH]; intros acc; cbn [foldl].
  - rewrite bool_decide_eq_false_2; [done|]. intros [H _]. by apply elem_of_nil in H.
  - rewrite IH. unfold passThrough.
    destruct (decide (k = h)) as [->|Hkh].
    + destruct (decide (h ∈ (map_to_list mapped).*2)) as [HV|HV].
      * rewrite (bool_decide_eq_true_2 _ HV).
        rewrite !bool_decide_eq_false_2; [done| |]; by intros [_ ?].
      * rewrite (bool_decide_eq_false_2 _ HV).
        rewrite (bool_decide_eq_true_2 (h ∈ h :: l ∧ _)) by (split; [left|done]).
        rewrite lookup_insert_eq. by destruct (bool_decide _).
    + rewrite (bool_decide_ext (k ∈ h :: l ∧ _) (k ∈ l ∧ k ∉ (map_to_list mapped).*2)).
      * destruct (bool_decide (k ∈ l ∧ _)); [done|].
        destruct (bool_decide (h ∈ _)); [done|]. by rewrite lookup_insert_ne.
      * rewrite elem_of_cons. intuition congruence.
Qed.

Lemma cleanRow_lookup k :
  cleanRow headerList mapped row !! k =
    if bool_decide (k ∈ headerList ∧ k ∉ (map_to_list mapped).*2) then Some (field row k)
    else (fun h => convertValue (field row h) k) <$> mapped !! k.
Proof. unfold cleanRow. cbv zeta. by rewrite passThrough_lookup, converted_lookup. Qed.

End CleanRow.

(** X13: when a file is read successfully, the headers reported are the
    property names of the first decoded row, the mapping reported is
    [mapHeaders] of these headers, and there are as many processed rows as
    decoded ones.  The processed row of a decoded row has, under each header
    that no field was mapped to, the raw cell of that header, and under each
    mapped field the coerced cell of the field's header (unless the field's
    own name is such an unmapped header, whose raw cell then takes its
    place); it has no other entries. *)
Theorem processFile_rows (name : string) (fileSize : Z)
    (first : list (string * jsval)) (rest : list (list (string * jsval)))
    (dataType : DataType) (i : nat) (row : list (string * jsval)) :
  let r := FileParser.processFile name fileSize (Some (first :: rest)) dataType in
  let fileHeaders := FileParser.keys first in
  let mapped := mapHeaders fileHeaders dataType in
  success r = true →
  (first :: rest) !! i = Some row →
  headers r = fileHeaders ∧
  mappedHeaders r = mapped ∧
  length (data r) = length (first :: rest) ∧
  ∃ clean, data r !! i = Some clean ∧
    (∀ h, unmapped fileHeaders mapped h → clean !! h = Some (FileParser.field row h)) ∧
    (∀ f h, mapped !! f = Some h → ¬ unmapped fileHeaders mapped f →
            clean !! f = Some (convertValue (FileParser.field row h) f)) ∧
    (∀ k, is_Some (clean !! k) → unmapped fileHeaders mapped k ∨ is_Some (mapped !! k)).
Proof.
  intros r hs m Hok Hrow. subst r. unfold FileParser.processFile in *.
  destruct (negb _); [done|]. destruct (_ <? _)%Z; [done|].
  cbn [data headers mappedHeaders] in *. fold hs m.
  split; [done|]. split; [done|]. split; [by rewrite length_map|].
  exists (FileParser.cleanRow hs m row). split; [by rewrite list_lookup_fmap, Hrow|].
  assert (Hun : ∀ k, (k ∈ hs ∧ k ∉ (map_to_list m).*2) ↔
                     (k ∈ hs ∧ ∀ f, m !! f ≠ Some k)).
  { intros k. rewrite values_elem. split; intros [? H]; (split; [done|]).
    - intros f Hf. apply H. by exists f.
    - intros [f Hf]. by apply (H f). }
  unfold unmapped. split; [|split].
  - intros h Hh. rewrite cleanRow_lookup, bool_decide_eq_true_2; [done|]. by apply Hun.
  - intros f h Hf Hnot. rewrite cleanRow_lookup, bool_decide_eq_false_2.
    + by rewrite Hf.
    + by rewrite Hun.
  - intros k. rewrite cleanRow_lookup. case_bool_decide as Hk.
    + intros _. left. by apply Hun.
    + intros [v Hv]. right. destruct (m !! k); [done|discriminate].
Qed.

Lemma processFile_rows_witness :
  let first :=
    [ ("client_id"%string, JStr " C1 "); ("Priority"%string, JStr "3");
      ("GroupTag"%string, JStr "raw"); ("group"%string, JStr " SMB ");
      ("Notes"%string, JStr " call back ") ] in
  let r := FileParser.processFile "clients.CSV" 2048 (Some [first]) clients in
  headers r = ["client_id"; "Priority"; "GroupTag"; "group"; "Notes"]%string ∧
  length (data r) = 1 ∧
  ∃ clean, data r !! 0 = Some clean ∧
    clean !! "ClientID"%string = Some (JStr "C1") ∧
    clean !! "PriorityLevel"%string = Some (JNum (int 3)) ∧
    clean !! "Notes"%string = Some (JStr " call back ") ∧
    clean !! "GroupTag"%string = Some (JStr "raw") ∧
    clean !! "group"%string = None.
Proof.
  intros first r. subst r.
  destruct (processFile_rows "clients.CSV" 2048 first [] clients 0 first)
    as (Hh & Hm & Hlen & clean & Hc & Hraw & Hconv & Hkeys);
    [vm_compute; reflexivity|reflexivity|].
  split; [by rewrite Hh|]. split; [by rewrite Hlen|]. exists clean. split; [exact Hc|].
  set (hs := FileParser.keys first) in *. set (m := mapHeaders hs clients) in *.
  assert (Hfree : ∀ h, h ∉ (map_to_list m).*2 → ∀ f, m !! f ≠ Some h).
  { intros h Hnot f Hf. apply Hnot, values_elem. exists f. exact Hf. }
  assert (Hcanon : ∀ f, f ∉ hs → ¬ unmapped hs m f).
  { intros f Hf [Hin _]. exact (Hf Hin). }
  split; [|split; [|split; [|split]]].
  - rewrite (Hconv "ClientID"%string "client_id"%string); [vm_compute; reflexivity..|].
    apply Hcanon. refine (bool_decide_unpack _ _). vm_compute. exact I.
  - rewrite (Hconv "PriorityLevel"%string "Priority"%string); [vm_compute; reflexivity..|].
    apply Hcanon. refine (bool_decide_unpack _ _). vm_compute. exact I.
  - rewrite (Hraw "Notes"%string); [vm_compute; reflexivity|].
    split; [|apply Hfree]; refine (bool_decide_unpack _ _); vm_compute; exact I.
  - rewrite (Hraw "GroupTag"%string); [vm_compute; reflexivity|].
    split; [|apply Hfree]; refine (bool_decide_unpack _ _); vm_compute; exact I.
  - destruct (clean !! "group"%string) eqn:E; [exfalso|reflexivity].
    destruct (Hkeys "group"%string) as [[_ Hno]|[h Hh']]; [rewrite E; eauto| |].
    + apply (Hno "GroupTag"%string). vm_compute. reflexivity.
    + revert Hh'. vm_compute. discriminate.
Defined.

(** X14: the reported mapping confidence is a whole percentage between 0
    and 100, and it is 100 exactly when the file was read and every
    canonical field of the entity received a header. *)
Theorem processFile_aiConfidence (name : string) (fileSize : Z)
    (decoded : option (list (list (string * jsval)))) (dataType : DataType) :
  let r := FileParser.processFile name fileSize decoded dataType in
  (0 ≤ aiConfidence r ≤ 100)%Z ∧
  (aiConfidence r = 100%Z ↔
     success r = true ∧
     ∀ f, f ∈ (HEADER_MAPPINGS dataType).*1 → is_Some (mappedHeaders r !! f)).
Proof.
  intros r.
  assert (Hfail : (0 ≤ aiConfidence FileParser.failure ≤ 100)%Z ∧
                  (aiConfidence FileParser.failure = 100%Z ↔
                     success FileParser.failure = true ∧
                     ∀ f, f ∈ (HEADER_MAPPINGS dataType).*1 →
                          is_Some (mappedHeaders FileParser.failure !! f))).
  { split; [simpl; lia|]. split; [done|]. by intros [? _]. }
  subst r. unfold FileParser.processFile.
  destruct (negb _); [done|]. destruct (_ <? _)%Z; [done|].
  destruct decoded as [[|first rest]|]; [done| |done].
  cbn [aiConfidence success mappedHeaders].
  set (m := mapHeaders (FileParser.keys first) dataType).
  destruct (mapHeaders_fields (FileParser.keys first) dataType) as [Hsub Hsize].
  fold m in Hsub.
  assert (HN : 0 < length (HEADER_MAPPINGS dataType) < 200).
  { destruct dataType; simpl; lia. }
  assert (Hle : size m ≤ length (HEADER_MAPPINGS dataType)).
  { rewrite <- Hsize, <- size_dom. by apply subseteq_size. }
  destruct (Math_round_percent _ _ HN Hle) as [Hrange Hfull].
  split; [done|]. rewrite Hfull. split.
  - intros Hall. split; [done|]. intros f Hf. apply elem_of_dom.
    assert (Heq : dom m ≡ list_to_set (C := gset string) (HEADER_MAPPINGS dataType).*1).
    { apply set_subseteq_size_equiv; [done|]. rewrite size_dom. lia. }
    apply Heq. by apply elem_of_list_to_set.
  - intros [_ Hall]. apply Nat.le_antisymm; [done|].
    rewrite <- Hsize, <- size_dom. apply subseteq_size.
    intros f Hf%elem_of_list_to_set. by apply elem_of_dom, Hall.
Qed.

(** ** Shape and place of the diagnostics *)

Section Emits.

Import DataValidator.

Variables E W : ValidationError → Prop.

Lemma emits_skip : emits E W (fun st => st).
Proof. split; [apply appends_skip|]. by split. Qed.

Lemma emits_addError entity row column message value suggestion :
  E (mkError entity row column (Str.of_chars message) value suggestion) →
  emits E W (addError entity row column message value suggestion).
Proof.
  intros HE. split; [apply appends_addError|]. split; simpl; [|done].
  by apply Forall_singleton.
Qed.

Lemma emits_addWarning entity row column message value suggestion :
  W {| type := warning; severity := medium; entity := entity; row := row;
       column := column; message := Str.of_chars message; value := value;
       suggestion := suggestion; autoFixAvailable := offered suggestion |} →
  emits E W (addWarning entity row column message value suggestion).
Proof.
  intros HW. split; [apply appends_addWarning|]. split; simpl; [done|].
  by apply Forall_singleton.
Qed.

Lemma emits_when c f : emits E W f → emits E W (when c f).
Proof. destruct c; [done|]. intros _. apply emits_skip. Qed.

Lemma emits_if (c : bool) f g : emits E W f → emits E W g → emits E W (if c then f else g).
Proof. by destruct c. Qed.

Lemma emits_and_then f g : emits E W f → emits E W g → emits E W (f >> g).
Proof.
  intros (Hf & HfE & HfW) (Hg & HgE & HgW). split; [by apply appends_and_then|].
  unfold and_then. destruct (Hg (f fresh)) as [-> ->].
  split; by apply Forall_app.
Qed.

Lemma emits_rows {A} (f : nat → A → step) (rows : list A) (run : step) :
  appends run →
  errors (run fresh) = mjoin (imap (fun i r => errors (f i r fresh)) rows) →
  warnings (run fresh) = mjoin (imap (fun i r => warnings (f i r fresh)) rows) →
  (∀ i r, rows !! i = Some r → emits E W (f i r)) →
  emits E W run.
Proof.
  intros Hrun He Hw Hrows. split; [done|]. rewrite He, Hw.
  split; apply Forall_forall; intros d (l & Hd & Hl)%list_elem_of_join;
    apply elem_of_lookup_imap_1 in Hl as (i & r & -> & Hr);
    destruct (Hrows i r Hr) as (_ & HE & HW);
    [rewrite Forall_forall in HE | rewrite Forall_forall in HW]; auto.
Qed.

End Emits.

Lemma emits_mono (E W E' W' : ValidationError → Prop) f :
  (∀ d, E d → E' d) → (∀ d, W d → W' d) → emits E W f → emits E' W' f.
Proof.
  intros HE HW (Hf & HfE & HfW). split; [done|].
  split; eapply Forall_impl; eauto.
Qed.

(** Decomposes a composed step along its syntax. *)
Ltac emits_steps :=
  repeat lazymatch goal with
    | |- emits _ _ (DataValidator.and_then _ _) => apply emits_and_then
    | |- emits _ _ (DataValidator.when _ _) => apply emits_when
    | |- emits _ _ (DataValidator.addError _ _ _ _ _ _) => apply emits_addError
    | |- emits _ _ (DataValidator.addWarning _ _ _ _ _ _) => apply emits_addWarning
    | |- emits _ _ (if _ then _ else _) => apply emits_if
    | |- emits _ _ (fun st => st) => apply emits_skip
    end.

Section IdLoop.

Import Conv Js DataValidator.

(** The loops of [validateClients], [validateWorkers] and [validateTasks]:
    [next] updates the set of identifiers, [checks] reports. *)
Variables (next : list jsval → gmap string jsval → list jsval)
          (checks : list jsval → nat → gmap string jsval → step).

Hypothesis checks_appends : ∀ ids i r, appends (checks ids i r).

Lemma id_loop data ids n st :
  let st' := (foldl (fun s item => (next s.1 item.2, checks s.1 item.1 item.2 s.2))
                    (ids, st) (imap (fun i r => (n + i, r)) data)).2 in
  errors st' =
    errors st ++
    mjoin (imap (fun k r => errors (checks (foldl next ids (take k data)) (n + k) r fresh))
                data) ∧
  warnings st' =
    warnings st ++
    mjoin (imap (fun k r => warnings (checks (foldl next ids (take k data)) (n + k) r fresh))
                data).
Proof.
  revert ids n st. induction data as [|r rest IH]; intros ids n st; cbv zeta.
  - simpl. by rewrite !app_nil_r.
  - rewrite !imap_cons. simpl foldl.
    rewrite (imap_ext _ (fun i r => (S n + i, r))) by (intros; simpl; f_equal; lia).
    destruct (IH (next ids r) (S n) (checks ids (n + 0) r st)) as [-> ->].
    destruct (checks_appends ids (n + 0) r st) as [-> ->]. simpl.
    rewrite <- !app_assoc. split; do 3 f_equal; apply imap_ext; intros i x _; simpl;
      by replace (n + S i) with (S (n + i)) by lia.
Qed.

Lemma id_loop_appends data :
  appends (fun st => (foldl (fun s item => (next s.1 item.2,
                                             checks s.1 item.1 item.2 s.2))
                            ([], st) (imap (fun i r => (i, r)) data)).2).
Proof.
  intros st.
  destruct (id_loop data [] 0 st) as [He Hw].
  destruct (id_loop data [] 0 fresh) as [He0 Hw0].
  simpl in *. by rewrite He, Hw, He0, Hw0.
Qed.

End IdLoop.

Section SeenIds.

Import Conv Js DataValidator.

Variable field : string.

Lemma foldl_seen_ids rows ids :
  foldl (fun ids r => if truthy (get r field) then set_add ids (get r field) else ids)
        ids rows = ids ++ seen_ids field rows.
Proof.
  revert ids. induction rows as [|r rows IH]; intros ids; simpl.
  - by rewrite app_nil_r.
  - rewrite IH, (seen_ids_cons _ r rows). unfold seen_ids at 2, set_add. simpl.
    rewrite filter_cons, filter_nil.
    destruct (truthy (get r field)); simpl; by rewrite <- ?app_assoc.
Qed.

End SeenIds.

Section Places.

Import Conv Js DataValidator.

Lemma id_loop_emits (next : list jsval → gmap string jsval → list jsval)
    (checks : list jsval → nat → gmap string jsval → step)
    (E W : nat → ValidationError → Prop) data :
  (∀ ids i r, emits (E i) (W i) (checks ids i r)) →
  emits (fun d => ∃ i, i < length data ∧ E i d) (fun d => ∃ i, i < length data ∧ W i d)
        (fun st => (foldl (fun s item => (next s.1 item.2, checks s.1 item.1 item.2 s.2))
                          ([], st) (imap (fun i r => (i, r)) data)).2).
Proof.
  intros Hchecks.
  assert (Happ : ∀ ids i r, appends (checks ids i r)) by (intros; apply Hchecks).
  destruct (id_loop next checks Happ data [] 0 fresh) as [He Hw].
  eapply (emits_rows _ _ (fun k r => checks (foldl next [] (take k data)) k r) data).
  - by apply id_loop_appends.
  - exact He.
  - exact Hw.
  - intros i r Hr. apply lookup_lt_Some in Hr.
    eapply emits_mono; [| |apply Hchecks]; intros d Hd; by exists i.
Qed.

Lemma forEach_emits (E W : nat → ValidationError → Prop) rows body :
  (∀ i r, emits (E i) (W i) (body i r)) →
  emits (fun d => ∃ i, i < length rows ∧ E i d) (fun d => ∃ i, i < length rows ∧ W i d)
        (forEach rows body).
Proof.
  intros Hbody.
  assert (Happ : ∀ i r, appends (body i r)) by (intros; apply Hbody).
  destruct (forEach_loop rows body 0 fresh Happ) as [He Hw].
  eapply (emits_rows _ _ body rows).
  - by apply forEach_appends.
  - exact He.
  - exact Hw.
  - intros i r Hr. apply lookup_lt_Some in Hr.
    eapply emits_mono; [| |apply Hbody]; intros d Hd; by exists i.
Qed.

Lemma emits_at_in ent (rows : list (gmap string jsval)) (f : step) :
  emits (fun d => ∃ i, i < length rows ∧ error_at ent i d)
        (fun d => ∃ i, i < length rows ∧ warning_at ent i d) f →
  emits (error_in ent (length rows)) (warning_in ent (length rows)) f.
Proof.
  apply emits_mono; intros d (i & Hi & Hs & He & <-); done.
Qed.

Lemma clientChecks_emits ids i r :
  emits (error_at clients i) (warning_at clients i) (clientChecks ids i r).
Proof. unfold clientChecks. cbv zeta. emits_steps; by repeat split. Qed.

Lemma workerChecks_emits ids i r :
  emits (error_at workers i) (warning_at workers i) (workerChecks ids i r).
Proof. unfold workerChecks. cbv zeta. emits_steps; by repeat split. Qed.

Lemma taskChecks_emits ids i r :
  emits (error_at tasks i) (warning_at tasks i) (taskChecks ids i r).
Proof. unfold taskChecks. cbv zeta. emits_steps; by repeat split. Qed.

Lemma validateClients_emits data :
  emits (error_in clients (length data)) (warning_in clients (length data)) (validateClients data).
Proof.
  apply emits_at_in.
  exact (id_loop_emits
           (fun ids r => if truthy (get r "ClientID") then set_add ids (get r "ClientID") else ids)
           clientChecks _ _ data (fun ids => clientChecks_emits ids)).
Qed.

Lemma validateWorkers_emits data :
  emits (error_in workers (length data)) (warning_in workers (length data)) (validateWorkers data).
Proof.
  apply emits_at_in.
  exact (id_loop_emits
           (fun ids r => if truthy (get r "WorkerID") then set_add ids (get r "WorkerID") else ids)
           workerChecks _ _ data (fun ids => workerChecks_emits ids)).
Qed.

Lemma validateTasks_emits data :
  emits (error_in tasks (length data)) (warning_in tasks (length data)) (validateTasks data).
Proof.
  apply emits_at_in.
  exact (id_loop_emits
           (fun ids r => if truthy (get r "TaskID") then set_add ids (get r "TaskID") else ids)
           taskChecks _ _ data (fun ids => taskChecks_emits ids)).
Qed.

Lemma validateCrossReferences_emits data dataType all :
  emits (fun d => error_shaped d ∧ placed data dataType (Some all) d)
        (fun d => warning_shaped d ∧ placed data dataType (Some all) d)
        (validateCrossReferences all).
Proof.
  unfold validateCrossReferences. cbv zeta.
  repeat lazymatch goal with
    | |- emits _ _ (_ >> _) => apply emits_and_then
    end.
  - eapply emits_mono; [| |apply (forEach_emits (fun i => error_at clients i)
                                                 (fun i => warning_at clients i))].
    + intros d (i & Hi & Hs & He & <-). split; [done|]. right. by left.
    + intros d (i & Hi & Hs & He & <-). split; [done|]. right. by left.
    + intros i r. emits_steps; by repeat split.
  - eapply emits_mono; [| |apply (forEach_emits (fun i => error_at tasks i)
                                                 (fun i => warning_at tasks i))].
    + intros d (i & Hi & Hs & He & <-). split; [done|]. right. right. split; [done|by left].
    + intros d (i & Hi & Hs & He & <-). split; [done|]. right. right. split; [done|by left].
    + intros i r. emits_steps; by repeat split.
  - eapply emits_mono; [| |apply (forEach_emits (fun i => error_at tasks i)
                                                 (fun i => warning_at tasks i))].
    + intros d (i & Hi & Hs & He & <-). split; [done|]. right. right. split; [done|by left].
    + intros d (i & Hi & Hs & He & <-). split; [done|]. right. right. split; [done|by left].
    + intros i r. emits_steps; by repeat split.
  - emits_steps. split; [by repeat split|]. right. right. split; [done|]. right. by split.
Qed.

Lemma validate_emits data dataType allData :
  let r := validate data dataType allData in
  Forall (fun d => error_shaped d ∧ placed data dataType allData d) (result_errors r) ∧
  Forall (fun d => warning_shaped d ∧ placed data dataType allData d) (result_warnings r).
Proof.
  unfold validate. cbv zeta. cbn [result_errors result_warnings].
  match goal with |- Forall _ (errors (?run fresh)) ∧ _ =>
    assert (Hrun : emits (fun d => error_shaped d ∧ placed data dataType allData d)
                         (fun d => warning_shaped d ∧ placed data dataType allData d) run)
  end; [|apply Hrun].
  apply emits_and_then.
  - destruct dataType;
      (eapply emits_mono;
       [| |first [apply validateClients_emits | apply validateWorkers_emits
                 | apply validateTasks_emits]];
       intros d (Hs & He & Hr); (split; [done|]); by left).
  - destruct allData as [all|]; [apply validateCrossReferences_emits|apply emits_skip].
Qed.

End Places.

(** X15: whatever is validated, the list of errors holds only diagnostics of
    type error and high severity, the list of warnings only diagnostics of type
    warning and medium severity, and a diagnostic is flagged as fixable
    exactly when it carries a non-empty suggestion. *)
Theorem validate_diagnostics_shape (data : list (gmap string jsval)) (dataType : DataType)
    (allData : option AllData) :
  let r := DataValidator.validate data dataType allData in
  Forall error_shaped (result_errors r) ∧ Forall warning_shaped (result_warnings r).
Proof.
  destruct (validate_emits data dataType allData) as [He Hw].
  split; eapply Forall_impl; eauto; by intros d [? _].
Qed.

(** X16: every diagnostic points at an existing row: it names the
    validated entity and a row of the validated collection or, when it comes
    from the cross-entity pass, the clients or the tasks handed over and a row
    of theirs; the one exception is the workload warning, always put on row 0
    of the tasks. *)
Theorem validate_diagnostics_placed (data : list (gmap string jsval)) (dataType : DataType)
    (allData : option AllData) :
  let r := DataValidator.validate data dataType allData in
  Forall (placed data dataType allData) (result_errors r ++ result_warnings r).
Proof.
  destruct (validate_emits data dataType allData) as [He Hw].
  apply Forall_app. split; eapply Forall_impl; eauto; by intros d [_ ?].
Qed.

(** X17: the summary is consistent with the lists: it counts the errors,
    the warnings and the rows; [validRows] is the number of rows less the
    number of errors; the collection is valid exactly when there is no error,
    that is when [validRows] equals [totalRows]; the confidence never exceeds
    100 and is 100 for a valid collection. *)
Theorem validate_summary (data : list (gmap string jsval)) (dataType : DataType)
    (allData : option AllData) :
  let r := DataValidator.validate data dataType allData in
  totalErrors (summary r) = length (result_errors r) ∧
  totalWarnings (summary r) = length (result_warnings r) ∧
  totalRows (summary r) = length data ∧
  validRows (summary r) =
    (Z.of_nat (totalRows (summary r)) - Z.of_nat (totalErrors (summary r)))%Z ∧
  (isValid r = true ↔ result_errors r = []) ∧
  (isValid r = true ↔ validRows (summary r) = Z.of_nat (totalRows (summary r))) ∧
  (confidence r ≤ 100)%Z ∧
  (isValid r = false ∨ confidence r = 100%Z).
Proof.
  destruct (validate_emits data dataType allData) as [He _].
  revert He. unfold DataValidator.validate. cbv zeta.
  cbn [result_errors result_warnings summary totalErrors totalWarnings totalRows
       validRows isValid confidence].
  match goal with |- context [DataValidator.errors ?s] => generalize s end.
  intros st He.
  assert (Hfilter : filter (fun e => type e = error) (DataValidator.errors st)
                    = DataValidator.errors st).
  { induction He as [|d l [[Hd _] _] _ IH]; [done|].
    rewrite filter_cons_True by done. by rewrite IH. }
  rewrite Hfilter.
  split; [done|]. split; [done|]. split; [done|]. split; [done|].
  split; [|split].
  - rewrite bool_decide_eq_true. apply length_zero_iff_nil.
  - rewrite bool_decide_eq_true. lia.
  - destruct (Nat.ltb_spec 0 (length data)) as [Hpos|Hzero].
    + destruct (Math_round_ratio_le
                  (Z.of_nat (length data) - Z.of_nat (length (DataValidator.errors st)))
                  (length data) Hpos ltac:(lia)) as [Hle Heq].
      split; [done|]. destruct (DataValidator.errors st); [right|by left].
      apply Heq. simpl. lia.
    + split; [lia|]. by right.
Qed.

(** ** Accepted collections *)

Section Silent.

Import DataValidator.

Lemma silent_and_then f g : appends g → silent (f >> g) ↔ silent f ∧ silent g.
Proof.
  intros Hg. unfold silent. rewrite errors_and_then by done. apply app_nil.
Qed.

Lemma silent_when c f : silent (when c f) ↔ (c = true → silent f).
Proof.
  destruct c; simpl; (split; [done|]); [intros Ht; by apply Ht|by intros _].
Qed.

Lemma silent_if (c : bool) f g :
  silent (if c then f else g) ↔ (c = true → silent f) ∧ (c = false → silent g).
Proof. destruct c; intuition congruence. Qed.

Lemma silent_addError entity row column message value suggestion :
  silent (addError entity row column message value suggestion) ↔ False.
Proof. done. Qed.

Lemma silent_addWarning entity row column message value suggestion :
  silent (addWarning entity row column message value suggestion) ↔ True.
Proof. done. Qed.

Lemma silent_and_then_iff f g (P Q : Prop) :
  appends g → (silent f ↔ P) → (silent g ↔ Q) → (silent (f >> g) ↔ P ∧ Q).
Proof. intros Hg <- <-. by apply silent_and_then. Qed.

Lemma silent_when_iff c f (P : Prop) :
  (silent f ↔ P) → (silent (when c f) ↔ (c = true → P)).
Proof. intros <-. apply silent_when. Qed.

Lemma silent_if_iff (c : bool) f g (P Q : Prop) :
  (silent f ↔ P) → (silent g ↔ Q) →
  (silent (if c then f else g) ↔ (c = true → P) ∧ (c = false → Q)).
Proof. intros <- <-. apply silent_if. Qed.

Lemma filter_nil_Forall {A} (P : A → Prop) `{!∀ x, Decision (P x)} (l : list A) :
  filter P l = [] ↔ Forall (fun x => ¬ P x) l.
Proof.
  induction l as [|x l IH]; [done|]. rewrite Forall_cons, <- IH.
  destruct (decide (P x)).
  - rewrite filter_cons_True by done. split; [done|]. by intros [? _].
  - rewrite filter_cons_False by done. tauto.
Qed.

Lemma positive_length_false {A} (l : list A) :
  ((0 <? length l) = true → False) ↔ l = [].
Proof.
  destruct l; simpl; (split; [|done]); [done|]. intros Hpos. by destruct Hpos.
Qed.

End Silent.

(** Reads off when a composed step reports no error. *)
Ltac silent_steps :=
  repeat lazymatch goal with
    | |- silent (DataValidator.and_then _ _) ↔ _ =>
        apply silent_and_then_iff; [appends_steps| |]
    | |- silent (DataValidator.when _ _) ↔ _ => apply silent_when_iff
    | |- silent (if _ then _ else _) ↔ _ => apply silent_if_iff
    | |- silent (DataValidator.addError _ _ _ _ _ _) ↔ _ => apply silent_addError
    | |- silent (DataValidator.addWarning _ _ _ _ _ _) ↔ _ => apply silent_addWarning
    end.

Section AcceptedRows.

Import Conv Js DataValidator.

(** [b] must hold, or must fail, for the check [H] to pass. *)
Local Ltac need b H := destruct b; [|by destruct H].
Local Ltac ban b H := destruct b; [by destruct H|].

Lemma clientChecks_silent earlier i client :
  silent (clientChecks (seen_ids "ClientID" earlier) i client) ↔
  client_accepted earlier client.
Proof.
  unfold clientChecks, client_accepted. cbv zeta.
  eapply iff_trans; [silent_steps|].
  generalize (truthy (get client "ClientID")) (truthy (get client "ClientName"))
    (nullish (get client "PriorityLevel"))
    (has (seen_ids "ClientID" earlier) (get client "ClientID"))
    (lt (get client "PriorityLevel") (num_lit 1))
    (gt (get client "PriorityLevel") (num_lit 5))
    (truthy (get client "RequestedTaskIDs")) (isArray (get client "RequestedTaskIDs"))
    (truthy (get client "AttributesJSON")) (is_string (get client "AttributesJSON"))
    (broken_json (get client "AttributesJSON")).
  intros b1 b2 b3 b4 b5 b6 b7 b8 b9 b10 b11. split.
  - intros ((((((((H1 & H2) & H3) & H4) & H5) & H6) & H7) & _) & _).
    need b1 H1. need b2 H2. ban b3 H3. ban b4 H4. ban b5 H5. ban b6 H5.
    repeat split.
    + intros ->. destruct (H6 eq_refl) as [H8 _]. need b8 H8. done.
    + intros -> ->. ban b11 H7. done.
  - intros (-> & -> & -> & -> & [-> ->] & H6 & H7).
    destruct b7; [rewrite (H6 eq_refl)|];
      (destruct b9, b10; [rewrite (H7 eq_refl eq_refl)|..]); by repeat split.
Qed.

(** No entry of the array fails the test of a filter of the checks. *)
Lemma no_invalid_entries (bad : jsval → bool) (l : list jsval) :
  ((0 <? length (filter (fun x => Is_true (negb (is_number x) || bad x)) l)) = true → False)
  ↔ Forall (fun x => is_number x = true ∧ bad x = false) l.
Proof.
  rewrite positive_length_false, filter_nil_Forall. apply Forall_iff. intros x.
  destruct (is_number x), (bad x); simpl; intuition congruence.
Qed.

Lemma workerChecks_silent earlier i worker :
  silent (workerChecks (seen_ids "WorkerID" earlier) i worker) ↔
  worker_accepted earlier worker.
Proof.
  unfold workerChecks, worker_accepted. cbv zeta.
  eapply iff_trans; [silent_steps|].
  pose proof (no_invalid_entries (fun slot => lt slot (num_lit 0))
                (elements (get worker "AvailableSlots"))) as HQ.
  cbv beta in HQ. revert HQ.
  generalize (Forall (fun slot => is_number slot = true ∧ lt slot (num_lit 0) = false)
                     (elements (get worker "AvailableSlots")))
    ((0 <? length (filter (fun slot => Is_true (negb (is_number slot)
                                                || lt slot (num_lit 0)))
                          (elements (get worker "AvailableSlots")))) = true → False).
  generalize (truthy (get worker "WorkerID")) (truthy (get worker "WorkerName"))
    (truthy (get worker "Skills")) (isArray (get worker "Skills"))
    (has (seen_ids "WorkerID" earlier) (get worker "WorkerID"))
    (truthy (get worker "AvailableSlots")) (isArray (get worker "AvailableSlots"))
    (nullish (get worker "MaxLoadPerPhase"))
    (le (get worker "MaxLoadPerPhase") (num_lit 0)).
  intros b1 b2 b3 b4 b5 b6 b7 b8 b9 Q Q' HQ. split.
  - intros ((((((((H1 & H2) & H3) & H4) & H5) & H6) & _) & _) & _).
    need b1 H1. need b2 H2. need b3 H3. need b4 H3. ban b5 H4.
    destruct (elements (get worker "Skills")) as [|skill skills]; [by destruct H3|].
    do 2 (split; [done|]). split; [done|]. split; [done|]. split.
    + intros ->. destruct (H5 eq_refl) as [H7 Hslots]. need b7 H7.
      split; [done|]. by apply HQ, Hslots.
    + intros ->. destruct (H6 eq_refl) as [H9 _]. ban b9 H9. done.
  - intros (-> & -> & (-> & -> & Hskills) & -> & H5 & H6).
    destruct (elements (get worker "Skills")) as [|skill skills]; [done|].
    assert (C5 : b6 = true → (negb b7 = true → False) ∧ (negb b7 = false → Q')).
    { intros Hb. destruct (H5 Hb) as [-> Hslots]. split; [done|]. intros _. by apply HQ. }
    assert (C6 : negb b8 = true → b9 = true → False).
    { intros Hb. rewrite H6; [done|]. by destruct b8. }
    repeat split; try done; intros; first [by apply C5 | by apply C6].
Qed.

Lemma taskChecks_silent earlier i task :
  silent (taskChecks (seen_ids "TaskID" earlier) i task) ↔ task_accepted earlier task.
Proof.
  unfold taskChecks, task_accepted. cbv zeta.
  eapply iff_trans; [silent_steps|].
  pose proof (no_invalid_entries (fun phase => lt phase (num_lit 1))
                (elements (get task "PreferredPhases"))) as HQ.
  cbv beta in HQ. revert HQ.
  generalize (Forall (fun phase => is_number phase = true ∧ lt phase (num_lit 1) = false)
                     (elements (get task "PreferredPhases")))
    ((0 <? length (filter (fun phase => Is_true (negb (is_number phase)
                                                 || lt phase (num_lit 1)))
                          (elements (get task "PreferredPhases")))) = true → False).
  generalize (truthy (get task "TaskID")) (truthy (get task "TaskName"))
    (truthy (get task "Category")) (nullish (get task "Duration"))
    (has (seen_ids "TaskID" earlier) (get task "TaskID"))
    (le (get task "Duration") (num_lit 0))
    (truthy (get task "RequiredSkills")) (isArray (get task "RequiredSkills"))
    (truthy (get task "PreferredPhases")) (isArray (get task "PreferredPhases"))
    (nullish (get task "MaxConcurrent")) (le (get task "MaxConcurrent") (num_lit 0)).
  intros b1 b2 b3 b4 b5 b6 b7 b8 b9 b10 b11 b12 Q Q' HQ. split.
  - intros (((((((((H1 & H2) & H3) & H4) & H5) & H6) & H7) & H8) & H9) & _).
    need b1 H1. need b2 H2. need b3 H3. ban b4 H4. ban b5 H5.
    destruct (H6 eq_refl) as [H6' _]. ban b6 H6'.
    do 6 (split; [done|]). split; [|split].
    + intros ->. destruct (H7 eq_refl) as [H7' _]. need b8 H7'. done.
    + intros ->. destruct (H8 eq_refl) as [H10 Hphases]. need b10 H10.
      split; [done|]. by apply HQ, Hphases.
    + intros ->. pose proof (H9 eq_refl) as H12. ban b12 H12. done.
  - intros (-> & -> & -> & -> & -> & -> & H7 & H8 & H9).
    assert (C7 : b7 = true → negb b8 = true → False).
    { intros Hb. by rewrite (H7 Hb). }
    assert (C8 : b9 = true → (negb b10 = true → False) ∧ (negb b10 = false → Q')).
    { intros Hb. destruct (H8 Hb) as [-> Hphases]. split; [done|]. intros _. by apply HQ. }
    assert (C9 : negb b11 = true → b12 = true → False).
    { intros Hb. rewrite H9; [done|]. by destruct b11. }
    repeat split; try done; intros;
      first [by apply C7 | by apply C8 | by apply C9].
Qed.

End AcceptedRows.

Section AcceptedCollections.

Import Conv Js DataValidator.

Lemma mjoin_imap_nil_iff {A B} (f : nat → A → list B) (l : list A) :
  mjoin (imap f l) = [] ↔ ∀ k x, l !! k = Some x → f k x = [].
Proof.
  split; [|apply mjoin_imap_nil_at].
  rewrite join_nil, Forall_forall. intros Hall k x Hk.
  apply Hall. by apply (elem_of_lookup_imap_2 f l _ k).
Qed.

(** The loop of a validator reports no error exactly when the checks of
    every row report none, the set holding the truthy identifiers of the
    rows before it. *)
Lemma id_loop_silent (field : string)
    (checks : list jsval → nat → gmap string jsval → step) data :
  (∀ ids i r, appends (checks ids i r)) →
  silent (fun st =>
            (foldl (fun s item =>
                      (if truthy (get item.2 field) then set_add s.1 (get item.2 field)
                       else s.1,
                       checks s.1 item.1 item.2 s.2))
                   ([], st) (imap (fun i r => (i, r)) data)).2)
  ↔ ∀ k r, data !! k = Some r → silent (checks (seen_ids field (take k data)) k r).
Proof.
  intros Happ. unfold silent.
  destruct (id_loop
              (fun ids r => if truthy (get r field) then set_add ids (get r field) else ids)
              checks Happ data [] 0 fresh) as [He _].
  cbv zeta in He. simpl in He. rewrite He. clear He.
  rewrite mjoin_imap_nil_iff. split; intros H k r Hk; specialize (H k r Hk);
    by rewrite foldl_seen_ids in *.
Qed.

Lemma validateCrossReferences_silent all :
  silent (validateCrossReferences all) ↔ references_resolved (Some all).
Proof.
  unfold silent. rewrite validateCrossReferences_errors, mjoin_imap_nil_iff.
  unfold references_resolved, crossErrors, only_if. split.
  - intros H client [k Hk]%list_elem_of_lookup Ht Ha. specialize (H k client Hk).
    rewrite Ht, Ha in H. simpl in H.
    by destruct (unresolvedTaskIds all client).
  - intros H k client Hk.
    destruct (truthy _) eqn:Ht; [|done]. destruct (isArray _) eqn:Ha; [|done].
    by rewrite (H client (list_elem_of_lookup_2 _ _ _ Hk) Ht Ha).
Qed.

Lemma validate_valid data dataType allData :
  isValid (validate data dataType allData) = true ↔
  silent (match dataType with
          | clients => validateClients data
          | workers => validateWorkers data
          | tasks => validateTasks data
          end) ∧
  references_resolved allData.
Proof.
  unfold validate. cbv zeta. cbn [isValid].
  rewrite bool_decide_eq_true, length_zero_iff_nil.
  destruct allData as [all|].
  - rewrite <- validateCrossReferences_silent.
    apply silent_and_then, validateCrossReferences_appends.
  - unfold and_then. simpl. unfold silent. tauto.
Qed.

End AcceptedCollections.

(** X18: a collection of clients is valid exactly when every row has a
    truthy identifier and name and a priority that is neither missing, below 1
    nor above 5, no earlier row carries the same identifier, the requested
    task identifiers, when given, are an array, a non-empty attributes string
    parses as JSON and, when the other collections are handed over, every
    requested identifier names a task. *)
Theorem validate_clients_accepts (data : list (gmap string jsval))
    (allData : option AllData) :
  isValid (DataValidator.validate data clients allData) = true ↔
  (∀ k client, data !! k = Some client → client_accepted (take k data) client) ∧
  references_resolved allData.
Proof.
  rewrite validate_valid.
  rewrite (id_loop_silent "ClientID" DataValidator.clientChecks data clientChecks_appends).
  apply and_iff_compat_r.
  split; intros H k r Hk; by apply (clientChecks_silent _ k), H.
Qed.

(** X19: a collection of workers is valid exactly when every row has a
    truthy identifier and name and a non-empty array of skills, no earlier row
    carries the same identifier, the available slots, when given, are an
    array of numbers none of which is negative, the load per phase, when
    given, is not at most 0, and the requested task identifiers of the clients
    handed over all name tasks. *)
Theorem validate_workers_accepts (data : list (gmap string jsval))
    (allData : option AllData) :
  isValid (DataValidator.validate data workers allData) = true ↔
  (∀ k worker, data !! k = Some worker → worker_accepted (take k data) worker) ∧
  references_resolved allData.
Proof.
  rewrite validate_valid.
  rewrite (id_loop_silent "WorkerID" DataValidator.workerChecks data).
  - apply and_iff_compat_r.
    split; intros H k r Hk; by apply (workerChecks_silent _ k), H.
  - intros. unfold DataValidator.workerChecks. cbv zeta. appends_steps.
Qed.

(** X20: a collection of tasks is valid exactly when every row has a truthy
    identifier, name and category and a duration that is neither missing nor
    at most 0, no earlier row carries the same identifier, the required
    skills, when given, are an array, the preferred phases, when given, are an
    array of numbers none of which is below 1, the concurrency limit, when
    given, is not at most 0, and the requested task identifiers of the clients
    handed over all name tasks. *)
Theorem validate_tasks_accepts (data : list (gmap string jsval))
    (allData : option AllData) :
  isValid (DataValidator.validate data tasks allData) = true ↔
  (∀ k task, data !! k = Some task → task_accepted (take k data) task) ∧
  references_resolved allData.
Proof.
  rewrite validate_valid.
  rewrite (id_loop_silent "TaskID" DataValidator.taskChecks data).
  - apply and_iff_compat_r.
    split; intros H k r Hk; by apply (taskChecks_silent _ k), H.
  - intros. unfold DataValidator.taskChecks. cbv zeta. appends_steps.
Qed.

(** ** Properties of the proposed fixes *)

Section Fixes.

Import Conv Js DataValidator.

Lemma clamped_priority (n : num) :
  (∃ c, Num.max (int 1) (Num.min (int 5) (Num.round n)) = int c ∧ (1 ≤ c ≤ 5)%Z) ∨
  (n = NaN ∧ Num.max (int 1) (Num.min (int 5) (Num.round n)) = NaN).
Proof.
  destruct n as [m k| | |].
  - left. exists (round_clamp m k). rewrite round_Math_round, clamp_int.
    unfold round_clamp. split; [done|lia].
  - by right.
  - left. exists 5%Z. split; [done|lia].
  - left. exists 1%Z. split; [done|lia].
Qed.

Lemma other_column (e : ValidationError) (name : string) (l : list string) :
  column e ∈ l → name ∉ l → bool_decide (column e = name) = false.
Proof. intros Hin Hnot. apply bool_decide_eq_false. by intros <-. Qed.

(** Dropping the falsy trimmed pieces is dropping the pieces that are empty
    after trimming. *)
Lemma nonempty_trimmed_pieces s :
  filter (fun v => Is_true (truthy v)) (trimmed_pieces s) =
    map (fun piece => JStr (Str.of_chars (Text.trim piece)))
        (filter (fun piece => Text.trim piece ≠ []) (Text.split_comma s)).
Proof.
  unfold trimmed_pieces. induction (Text.split_comma s) as [|piece pieces IH]; [done|].
  change (map ?f ?l) with (f <$> l) in *. rewrite fmap_cons, !filter_cons.
  destruct (Text.trim piece) as [|ch t] eqn:E.
  - rewrite decide_False by (by intros []). rewrite decide_False by (simpl; tauto).
    exact IH.
  - rewrite decide_True by done. rewrite decide_True by done.
    rewrite fmap_cons, E. f_equal. exact IH.
Qed.

End Fixes.

(** X21: the fix proposed for the column [PriorityLevel] is always a whole
    number from 1 to 5 (3 when the offending value is not a number), except
    that [NaN] is left as it is; in every case the priority checks of
    [validateClients] accept the proposed value. *)
Theorem generateAutoFix_priority (e : ValidationError) :
  column e = "PriorityLevel"%string →
  ((∃ c, generateAutoFix e = JNum (int c) ∧ (1 ≤ c ≤ 5)%Z) ∨
   (value e = JNum NaN ∧ generateAutoFix e = JNum NaN)) ∧
  (Js.is_number (value e) = false → generateAutoFix e = JNum (int 3)) ∧
  Conv.nullish (generateAutoFix e) = false ∧
  Js.lt (generateAutoFix e) (DataValidator.num_lit 1) = false ∧
  Js.gt (generateAutoFix e) (DataValidator.num_lit 5) = false.
Proof.
  intros Hcol. unfold generateAutoFix. cbv zeta. rewrite Hcol.
  rewrite bool_decide_eq_true_2 by done.
  assert (Hint : ∀ c, (1 ≤ c ≤ 5)%Z →
            Conv.nullish (JNum (int c)) = false ∧
            Js.lt (JNum (int c)) (DataValidator.num_lit 1) = false ∧
            Js.gt (JNum (int c)) (DataValidator.num_lit 5) = false).
  { intros c Hc. split; [done|].
    change (Js.lt (JNum (int c)) (DataValidator.num_lit 1)) with (Num.ltb (int c) (int 1)).
    change (Js.gt (JNum (int c)) (DataValidator.num_lit 5)) with (Num.ltb (int 5) (int c)).
    rewrite !ltb_int. split; apply Z.ltb_ge; lia. }
  destruct (value e) as [| | |n| | |] eqn:Hv;
    try (split; [left; exists 3%Z; split; [done|lia]|]; split; [done|];
         apply Hint; lia).
  destruct (clamped_priority n) as [(c & -> & Hc)|[-> ->]].
  - split; [left; by exists c|]. split; [done|]. by apply Hint.
  - split; [by right|]. done.
Qed.

Lemma generateAutoFix_priority_witness :
  let e := mkError clients 0 "PriorityLevel" "PriorityLevel must be between 1 and 5"
             (JNum (Fin 74 1)) None in
  ((∃ c, generateAutoFix e = JNum (int c) ∧ (1 ≤ c ≤ 5)%Z) ∨
   (value e = JNum NaN ∧ generateAutoFix e = JNum NaN)) ∧
  (Js.is_number (value e) = false → generateAutoFix e = JNum (int 3)) ∧
  Conv.nullish (generateAutoFix e) = false ∧
  Js.lt (generateAutoFix e) (DataValidator.num_lit 1) = false ∧
  Js.gt (generateAutoFix e) (DataValidator.num_lit 5) = false.
Proof.
  intros e. apply (generateAutoFix_priority e). reflexivity.
Defined.

(** X22: for the columns [Duration] and [MaxLoadPerPhase] a number that is
    at most 0 is replaced by a positive default (1 and 8), so that the
    proposed value is never a number at most 0; every other value, and in
    particular every value that is not a number, is handed back unchanged. *)
Theorem generateAutoFix_positive (e : ValidationError) :
  column e ∈ ["Duration"; "MaxLoadPerPhase"]%string →
  (Js.is_number (value e) && Js.le (value e) (DataValidator.num_lit 0) = true →
   generateAutoFix e = JNum (int (if bool_decide (column e = "Duration"%string) then 1 else 8))
   ∧ Js.le (generateAutoFix e) (DataValidator.num_lit 0) = false) ∧
  (Js.is_number (value e) && Js.le (value e) (DataValidator.num_lit 0) = false →
   generateAutoFix e = value e).
Proof.
  intros Hcol. unfold generateAutoFix. cbv zeta.
  change (JNum (int 0)) with (DataValidator.num_lit 0).
  destruct (Js.is_number (value e) && Js.le (value e) (DataValidator.num_lit 0)).
  - split; [intros _|done].
    apply elem_of_cons in Hcol as [->| ->%list_elem_of_singleton]; by split.
  - split; [done|intros _].
    apply elem_of_cons in Hcol as [->| ->%list_elem_of_singleton]; done.
Qed.

Lemma generateAutoFix_positive_witness :
  let e := mkError tasks 2 "Duration" "Duration must be greater than 0"
             (JNum (int (-4))) None in
  (Js.is_number (value e) && Js.le (value e) (DataValidator.num_lit 0) = true →
   generateAutoFix e = JNum (int (if bool_decide (column e = "Duration"%string) then 1 else 8))
   ∧ Js.le (generateAutoFix e) (DataValidator.num_lit 0) = false) ∧
  (Js.is_number (value e) && Js.le (value e) (DataValidator.num_lit 0) = false →
   generateAutoFix e = value e).
Proof.
  intros e. apply (generateAutoFix_positive e). apply elem_of_cons. by left.
Defined.

(** X23: for the columns that hold lists of names the proposed fix is always
    an array: it is empty when the offending value is not a string, and
    otherwise it is the list of the comma-separated pieces of the string,
    each trimmed, in their order and without the pieces that are empty after
    trimming; its entries are non-empty strings without commas or white space
    around them, so that the check for empty or invalid entries finds nothing
    in it. *)
Theorem generateAutoFix_names (e : ValidationError) :
  column e ∈ ["RequestedTaskIDs"; "Skills"; "RequiredSkills"]%string →
  ∃ l, generateAutoFix e = JArr l ∧
       (Js.is_string (value e) = false → l = []) ∧
       (∀ s, value e = JStr s →
             l = map (fun piece => JStr (Str.of_chars (Text.trim piece)))
                     (filter (fun piece => Text.trim piece ≠ [])
                             (Text.split_comma (Str.chars s)))) ∧
       Forall (fun v => ∃ p, v = JStr p ∧ p ≠ EmptyString ∧
                             (","%char ∉ Str.chars p) ∧
                             Text.trim (Str.chars p) = Str.chars p) l ∧
       DataValidator.not_strings l = [].
Proof.
  intros Hcol. unfold generateAutoFix. cbv zeta.
  rewrite (other_column e "PriorityLevel" _ Hcol) by compute_done.
  rewrite (other_column e "Duration" _ Hcol) by compute_done.
  rewrite (other_column e "MaxLoadPerPhase" _ Hcol) by compute_done.
  assert (Hor : bool_decide (column e = "RequestedTaskIDs"%string)
                || bool_decide (column e = "Skills"%string)
                || bool_decide (column e = "RequiredSkills"%string) = true).
  { rewrite !elem_of_cons, elem_of_nil in Hcol.
    destruct Hcol as [->|[->|[->|[]]]]; done. }
  rewrite Hor.
  destruct (value e) as [| | | |s| |]; try (exists []; by repeat split).
  eexists. split; [done|]. split; [done|].
  split; [intros ? [= <-]; apply nonempty_trimmed_pieces|].
  assert (Hshape : Forall (fun v => ∃ p, v = JStr p ∧ p ≠ EmptyString ∧
                                      (","%char ∉ Str.chars p) ∧
                                      Text.trim (Str.chars p) = Str.chars p)
                     (filter (fun v => Is_true (Conv.truthy v))
                             (trimmed_pieces (Str.chars s)))).
  { apply Forall_forall. intros v. apply trimmed_pieces_shape. }
  split; [done|]. unfold DataValidator.not_strings.
  apply filter_nil_Forall. eapply Forall_impl; [exact Hshape|].
  intros v (p & -> & Hp & _). simpl. rewrite bool_decide_eq_false_2 by done. simpl. tauto.
Qed.

Lemma generateAutoFix_names_witness :
  generateAutoFix (mkError clients 1 "RequestedTaskIDs" "RequestedTaskIDs must be an array"
                           (JStr "T1, T2,,T3 ") None)
    = JArr [JStr "T1"; JStr "T2"; JStr "T3"] ∧
  generateAutoFix (mkError workers 0 "Skills" "Missing or empty skills array"
                           (JNum (int 5)) None)
    = JArr [].
Proof.
  split.
  - destruct (generateAutoFix_names
                (mkError clients 1 "RequestedTaskIDs" "RequestedTaskIDs must be an array"
                         (JStr "T1, T2,,T3 ") None))
      as (l & -> & _ & Hl & _); [apply elem_of_cons; by left|].
    rewrite (Hl "T1, T2,,T3 " eq_refl). vm_compute. reflexivity.
  - destruct (generateAutoFix_names
                (mkError workers 0 "Skills" "Missing or empty skills array"
                         (JNum (int 5)) None))
      as (l & -> & Hl & _); [apply elem_of_cons; right; apply elem_of_cons; by left|].
    by rewrite (Hl eq_refl).
Defined.

(** X24: for the columns that hold lists of numbers the proposed fix is
    always an array: it is empty when the offending value is not a string,
    and otherwise holds, in order, the Number values of the integers that
    [parseInt] reads from the trimmed comma-separated pieces, the pieces
    without an integer left out; every entry is a whole number (the integer
    read itself below [2^53] in absolute value) or an infinity. *)
Theorem generateAutoFix_integers (e : ValidationError) :
  column e ∈ ["AvailableSlots"; "PreferredPhases"]%string →
  ∃ l, generateAutoFix e = JArr l ∧
       (Js.is_string (value e) = false → l = []) ∧
       (∀ s, value e = JStr s →
             let integers := omap piece_integer (Text.split_comma (Str.chars s)) in
             l = map (fun z => JNum (Num.of_Z z)) integers ∧
             Forall (fun z => (Z.abs z < 2 ^ 53)%Z → Num.of_Z z = int z) integers) ∧
       Forall (fun v => ∃ n, v = JNum n ∧ whole n) l.
Proof.
  intros Hcol. unfold generateAutoFix. cbv zeta.
  rewrite (other_column e "PriorityLevel" _ Hcol) by compute_done.
  rewrite (other_column e "Duration" _ Hcol) by compute_done.
  rewrite (other_column e "MaxLoadPerPhase" _ Hcol) by compute_done.
  rewrite (other_column e "RequestedTaskIDs" _ Hcol) by compute_done.
  rewrite (other_column e "Skills" _ Hcol) by compute_done.
  rewrite (other_column e "RequiredSkills" _ Hcol) by compute_done.
  assert (Hor : bool_decide (column e = "AvailableSlots"%string)
                || bool_decide (column e = "PreferredPhases"%string) = true).
  { rewrite !elem_of_cons, elem_of_nil in Hcol.
    destruct Hcol as [->|[->|[]]]; done. }
  cbn [orb]. rewrite Hor.
  destruct (value e) as [| | | |s| |]; try (exists []; by repeat split).
  eexists. split; [done|]. split; [done|]. rewrite integer_pieces_omap. split.
  - intros ? [= <-]. split; [done|].
    eapply Forall_impl; [apply integers_whole|]. by intros z [_ ?].
  - apply Forall_forall. intros v (z & -> & _)%list_elem_of_fmap.
    exists (Num.of_Z z). split; [done|apply of_Z_whole].
Qed.

Lemma generateAutoFix_integers_witness :
  generateAutoFix (mkError workers 0 "AvailableSlots" "AvailableSlots must be an array"
                           (JStr "1, 2,x, 4.5") None)
    = JArr [JNum (int 1); JNum (int 2); JNum (int 4)] ∧
  generateAutoFix (mkError tasks 0 "PreferredPhases" "PreferredPhases must be an array"
                           (JStr ("7," +:+ digits_310)) None)
    = JArr [JNum (int 7); JNum PosInf].
Proof.
  split.
  - destruct (generateAutoFix_integers
                (mkError workers 0 "AvailableSlots" "AvailableSlots must be an array"
                         (JStr "1, 2,x, 4.5") None))
      as (l & -> & _ & Hl & _); [apply elem_of_cons; by left|].
    destruct (Hl "1, 2,x, 4.5" eq_refl) as [-> _]. vm_compute. reflexivity.
  - destruct (generateAutoFix_integers
                (mkError tasks 0 "PreferredPhases" "PreferredPhases must be an array"
                         (JStr ("7," +:+ digits_310)) None))
      as (l & -> & _ & Hl & _); [apply elem_of_cons; right; apply elem_of_cons; by left|].
    destruct (Hl ("7," +:+ digits_310) eq_refl) as [-> _]. vm_compute. reflexivity.
Defined.
